(** * NetworkDiagnosisTool: hop discovery, probe classification and
      cycle statistics

    A shallow embedding of [lib/traceroute.js] ([runTraceroute]),
    [lib/mtr.js] ([executePing], [runMtrCycles]), of [index.js] (the
    constructor and [run], with its "Force Target Append" step) and of
    [getLocalNetworkInfo] and [resolveDNS] of [lib/network.js], with the
    properties the specification states about them and further properties
    of the code.

    Modelling conventions.
    - A JavaScript string is a list of UTF-16 code units ([list N]); [str]
      turns an ASCII literal into such a list.
    - A JavaScript number that holds a measurement (RTT, sum, average, loss,
      standard deviation) is a real number: the rounding error of binary64
      arithmetic, NaN and overflow are outside the model.  Counters
      ([sent], [received]) are natural numbers, hop indices and the cycle
      count are integers.
    - A child process is what the handlers installed on it observe: the
      text it wrote to stdout followed by [close], an [error] event, or an
      exception raised while it was being set up.
    - Probes of one batch or cycle run concurrently, but each task writes
      only its own record and [Promise.all] returns the results in the
      order of the tasks it was given, so a batch or cycle is a map over
      the tasks. *)

From Stdlib Require Import String Ascii.
From Stdlib Require Import List Sorted ZArith NArith Arith Bool Lia.
From Stdlib Require Import Reals Lra R_sqrt R_Ifp.
Import ListNotations.

(** ** Strings *)

Definition cu := N.
Definition jsstring := list cu.

Definition str (s : string) : jsstring :=
  map N_of_ascii (list_ascii_of_string s).

Definition cu_eqb (a b : cu) : bool := N.eqb a b.

Fixpoint jseqb (a b : jsstring) : bool :=
  match a, b with
  | [], [] => true
  | x :: a', y :: b' => cu_eqb x y && jseqb a' b'
  | _, _ => false
  end.

(** ** A backtracking matcher for the regular expressions of the source

    The fragment covers what the four patterns of the source use: character
    classes, sequence, ordered alternative, greedy bounded repetition,
    greedy unbounded repetition of a character class and capture groups.
    Every repeated body of the source patterns consumes at least one code
    unit, so the rule about empty iterations never applies. *)

Module Regex.

Inductive re : Type :=
| Empty
| Char (p : cu -> bool)
| Cat (a b : re)
| Alt (a b : re)
| Rep (lo hi : nat) (a : re)
| Many (lo : nat) (p : cu -> bool)
| Group (i : nat) (a : re).

Definition caps := list (nat * jsstring).

Fixpoint capture (i : nat) (c : caps) : option jsstring :=
  match c with
  | [] => None
  | (j, m) :: c' => if Nat.eqb i j then Some m else capture i c'
  end.

Section Exec.
Variable A : Type.

(** [p{lo,}], longest first. *)
Fixpoint many (p : cu -> bool) (lo : nat) (s : jsstring) (c : caps)
         (k : jsstring -> caps -> option A) : option A :=
  match s with
  | x :: s' =>
      if p x then
        match many p (pred lo) s' c k with
        | Some r => Some r
        | None => if Nat.eqb lo 0 then k s c else None
        end
      else if Nat.eqb lo 0 then k s c else None
  | [] => if Nat.eqb lo 0 then k s c else None
  end.

Fixpoint exec (r : re) (s : jsstring) (c : caps)
         (k : jsstring -> caps -> option A) {struct r} : option A :=
  match r with
  | Empty => k s c
  | Char p =>
      match s with
      | x :: s' => if p x then k s' c else None
      | [] => None
      end
  | Cat a b => exec a s c (fun s' c' => exec b s' c' k)
  | Alt a b =>
      match exec a s c k with
      | Some x => Some x
      | None => exec b s c k
      end
  | Rep lo hi a =>
      (fix rep (hi lo : nat) (s : jsstring) (c : caps) {struct hi}
         : option A :=
         match hi with
         | O => if Nat.eqb lo 0 then k s c else None
         | S hi' =>
             match exec a s c (fun s' c' => rep hi' (pred lo) s' c') with
             | Some x => Some x
             | None => if Nat.eqb lo 0 then k s c else None
             end
         end) hi lo s c
  | Many lo p => many p lo s c k
  | Group i a =>
      exec a s c
        (fun s' c' => k s' ((i, firstn (length s - length s') s) :: c'))
  end.
End Exec.

Arguments many {A} p lo s c k.
Arguments exec {A} r s c k.

(** The result of [String.prototype.match] without the [g] flag. *)
Record found : Type := mkFound {
  before : jsstring;
  matched : jsstring;
  groups : caps;
  after : jsstring
}.

Definition matchHere (r : re) (pre s : jsstring) : option found :=
  exec r s []
    (fun s' c =>
       Some (mkFound (rev pre) (firstn (length s - length s') s) c s')).

(** Start positions are tried from left to right. *)
Fixpoint searchFrom (r : re) (pre s : jsstring) : option found :=
  match matchHere r pre s with
  | Some f => Some f
  | None =>
      match s with
      | [] => None
      | x :: s' => searchFrom r (x :: pre) s'
      end
  end.

Definition search (r : re) (s : jsstring) : option found :=
  searchFrom r [] s.

Definition test (r : re) (s : jsstring) : bool :=
  match search r s with Some _ => true | None => false end.

(** *** Character classes and literals *)

Definition digit (c : cu) : bool := (48 <=? c)%N && (c <=? 57)%N.

Definition hex (c : cu) : bool :=
  digit c || ((97 <=? c)%N && (c <=? 102)%N)
          || ((65 <=? c)%N && (c <=? 70)%N).

(** [\s]: WhiteSpace and LineTerminator of ECMAScript. *)
Definition space (c : cu) : bool :=
  ((9 <=? c)%N && (c <=? 13)%N) || (c =? 32)%N || (c =? 160)%N
  || (c =? 5760)%N || ((8192 <=? c)%N && (c <=? 8202)%N)
  || (c =? 8232)%N || (c =? 8233)%N || (c =? 8239)%N || (c =? 8287)%N
  || (c =? 12288)%N || (c =? 65279)%N.

Definition lit (x : cu) (c : cu) : bool := N.eqb c x.

Definition oneOf (l : jsstring) (c : cu) : bool := existsb (N.eqb c) l.

(** Canonicalisation under the [i] flag: an ASCII letter matches both of
    its cases, any other code unit only itself. *)
Definition upper (c : cu) : cu :=
  if (97 <=? c)%N && (c <=? 122)%N then (c - 32)%N else c.

Definition ci (x : cu) (c : cu) : bool := N.eqb (upper c) (upper x).

Fixpoint word (eq : cu -> cu -> bool) (w : jsstring) : re :=
  match w with
  | [] => Empty
  | x :: w' => Cat (Char (eq x)) (word eq w')
  end.

Definition Opt (a : re) : re := Rep 0 1 a.

(** *** Declarative meaning, with the captures a match leaves *)

Inductive matches : re -> jsstring -> caps -> caps -> Prop :=
| MEmpty c : matches Empty [] c c
| MChar p x c : p x = true -> matches (Char p) [x] c c
| MCat a b m1 m2 c c1 c2 :
    matches a m1 c c1 -> matches b m2 c1 c2 ->
    matches (Cat a b) (m1 ++ m2) c c2
| MAltL a b m c c' : matches a m c c' -> matches (Alt a b) m c c'
| MAltR a b m c c' : matches b m c c' -> matches (Alt a b) m c c'
| MRepStop hi a c : matches (Rep 0 hi a) [] c c
| MRepStep lo hi a m1 m2 c c1 c2 :
    matches a m1 c c1 -> matches (Rep (pred lo) hi a) m2 c1 c2 ->
    matches (Rep lo (S hi) a) (m1 ++ m2) c c2
| MMany lo p m c :
    forallb p m = true -> lo <= length m -> matches (Many lo p) m c c
| MGroup i a m c c' :
    matches a m c c' -> matches (Group i a) m c ((i, m) :: c').

End Regex.

(** ** Child processes and promises *)

(** What the handlers of one spawned [ping] observe. *)
Inductive ProcOutcome : Type :=
| Closed (output : jsstring) (code : Z)
    (** stdout delivered [output], then ['close'] fired with [code] *)
| SpawnError
    (** the ['error'] event: the process could not be started *)
| Thrown.
    (** the promise executor raised before any handler ran *)


Inductive Settled (A : Type) : Type :=
| Fulfilled (a : A)
| Rejected.
Arguments Fulfilled {A} a.
Arguments Rejected {A}.

(** [Promise.all]: the values in the order of the promises, or the first
    rejection. *)
Fixpoint promiseAll {A : Type} (ps : list (Settled A)) : Settled (list A) :=
  match ps with
  | [] => Fulfilled []
  | Rejected :: _ => Rejected
  | Fulfilled a :: ps' =>
      match promiseAll ps' with
      | Fulfilled l => Fulfilled (a :: l)
      | Rejected => Rejected
      end
  end.

(** ** Numbers read from text *)

Fixpoint span (p : cu -> bool) (s : jsstring) : jsstring * jsstring :=
  match s with
  | x :: s' =>
      if p x then let (a, b) := span p s' in (x :: a, b) else ([], s)
  | [] => ([], [])
  end.

Definition digitsValue (ds : jsstring) : Z :=
  fold_left (fun acc d => (10 * acc + (Z.of_N d - 48))%Z) ds 0%Z.

(** [parseFloat] on an unsigned decimal numeral without exponent, the only
    text capture group 2 of [rttRe] can hold; [None] stands for NaN. *)
Definition parseFloat (s : jsstring) : option R :=
  let (int, rest) := span Regex.digit s in
  match int with
  | [] => None
  | _ :: _ =>
      match rest with
      | 46%N :: rest' =>
          let (frac, _) := span Regex.digit rest' in
          Some (IZR (digitsValue int)
                + IZR (digitsValue frac) / IZR (10 ^ Z.of_nat (length frac)))%R
      | _ => Some (IZR (digitsValue int))
      end
  end.

(** [parseFloat(x.toFixed(1))]: the nearest multiple of one tenth, the larger
    one on a tie, computed on the absolute value; from 10^21 on [toFixed]
    prints the number itself. *)
Definition roundTenth (x : R) : R := (IZR (Int_part (x * 10 + / 2)) / 10)%R.

Definition toFixed1 (x : R) : R :=
  if Rle_dec (IZR (10 ^ 21)) (Rabs x) then x
  else if Rlt_dec x 0 then (- roundTenth (- x))%R
  else roundTenth x.

(** ** lib/mtr.js: one direct probe *)

Module Ping.

Record result : Type := mk { alive : bool; time : option R }.

(** [/([<>=]|\s)(\d+(?:\.\d+)?)\s*ms/i] *)
Definition rttRe : Regex.re :=
  Regex.Cat
    (Regex.Group 1
       (Regex.Alt (Regex.Char (Regex.oneOf (str "<>=")))
                  (Regex.Char Regex.space)))
    (Regex.Cat
       (Regex.Group 2
          (Regex.Cat (Regex.Many 1 Regex.digit)
             (Regex.Opt
                (Regex.Cat (Regex.Char (Regex.lit 46%N))
                           (Regex.Many 1 Regex.digit)))))
       (Regex.Cat (Regex.Many 0 Regex.space)
          (Regex.word Regex.ci (str "ms")))).

Definition group2 (m : Regex.found) : option R :=
  match Regex.capture 2 (Regex.groups m) with
  | Some t => parseFloat t
  | None => None
  end.

End Ping.

Definition executePing (o : ProcOutcome) : Settled Ping.result :=
  match o with
  | Thrown => Rejected
  | SpawnError => Fulfilled (Ping.mk false None)
  | Closed output code =>
      match Regex.search Ping.rttRe output with
      | Some timeMatch => Fulfilled (Ping.mk true (Ping.group2 timeMatch))
      | None => Fulfilled (Ping.mk false None)
      end
  end.

(** ** Hops

    One record for the hop objects that travel from discovery through the
    facade into the aggregator; a field that an object does not carry is
    [None]. *)

Module Hop.
Record t : Type := mk {
  hop : Z;
  ip : option jsstring;
  host : option jsstring;
  reached : option bool;
  rtt1 : option jsstring
}.
End Hop.

(** [h.ip === a] *)
Definition ipIs (h : Hop.t) (a : jsstring) : bool :=
  match Hop.ip h with
  | Some b => jseqb b a
  | None => false
  end.

Definition truthy (b : option bool) : bool :=
  match b with Some true => true | _ => false end.

(** ** lib/traceroute.js *)

Module Traceroute.

Definition MAX_HOPS : Z := 30.
Definition BATCH_SIZE : Z := 10.

Definition star : jsstring := str "*".

(** [/((?:[0-9a-fA-F]{0,4}:){2,7}[0-9a-fA-F]{0,4}|\d{1,3}\.\d{1,3}\.\d{1,3}\.\d{1,3})/] *)
Definition ipRe : Regex.re :=
  let colon := Regex.Char (Regex.lit 58%N) in
  let dot := Regex.Char (Regex.lit 46%N) in
  let hextet := Regex.Rep 0 4 (Regex.Char Regex.hex) in
  let octet := Regex.Rep 1 3 (Regex.Char Regex.digit) in
  Regex.Group 1
    (Regex.Alt
       (Regex.Cat (Regex.Rep 2 7 (Regex.Cat hextet colon)) hextet)
       (Regex.Cat octet (Regex.Cat dot (Regex.Cat octet
          (Regex.Cat dot (Regex.Cat octet (Regex.Cat dot octet))))))).

(** [/(?:time|ms|时间|時間|zeit)[=<]?\s*\d+/i] *)
Definition timeRe : Regex.re :=
  Regex.Cat
    (Regex.Alt (Regex.word Regex.ci (str "time"))
       (Regex.Alt (Regex.word Regex.ci (str "ms"))
          (Regex.Alt (Regex.word Regex.ci [26102; 38388]%N)
             (Regex.Alt (Regex.word Regex.ci [26178; 38291]%N)
                (Regex.word Regex.ci (str "zeit"))))))
    (Regex.Cat (Regex.Opt (Regex.Char (Regex.oneOf (str "=<"))))
       (Regex.Cat (Regex.Many 0 Regex.space) (Regex.Many 1 Regex.digit))).

(** [/(?:bytes|seq|icmp_seq)[=<]\d+/i] *)
Definition bytesRe : Regex.re :=
  Regex.Cat
    (Regex.Alt (Regex.word Regex.ci (str "bytes"))
       (Regex.Alt (Regex.word Regex.ci (str "seq"))
          (Regex.word Regex.ci (str "icmp_seq"))))
    (Regex.Cat (Regex.Char (Regex.oneOf (str "=<")))
       (Regex.Many 1 Regex.digit)).

(** [output.split(/\r?\n/)] *)
Fixpoint splitLines (cur : jsstring) (s : jsstring) : list jsstring :=
  match s with
  | [] => [rev cur]
  | 13%N :: (10%N :: s') => rev cur :: splitLines [] s'
  | 10%N :: s' => rev cur :: splitLines [] s'
  | x :: s' => splitLines (x :: cur) s'
  end.

(** [foundIp.replace(/:$/, '')] *)
Definition stripColon (s : jsstring) : jsstring :=
  match rev s with
  | 58%N :: r => rev r
  | _ => s
  end.

(** The loop over the lines in the ['close'] handler; the result is
    [(discoveredIp, reachedDest)]. *)
Fixpoint scanLines (targetIP : jsstring) (lines : list jsstring)
  : jsstring * bool :=
  match lines with
  | [] => (star, false)
  | line :: rest =>
      match Regex.search ipRe line with
      | None => scanLines targetIP rest
      | Some ipMatch =>
          match Regex.capture 1 (Regex.groups ipMatch) with
          | None => scanLines targetIP rest
          | Some foundIp =>
              if (length foundIp <? 2)%nat then scanLines targetIP rest
              else
                let foundIp := stripColon foundIp in
                if negb (jseqb foundIp targetIP) then (foundIp, false)
                else
                  let hasTime := Regex.test timeRe line in
                  let hasBytes := Regex.test bytesRe line in
                  if hasTime || hasBytes then (targetIP, true)
                  else scanLines targetIP rest
          end
      end
  end.

Definition reply (ttl : Z) (ip : jsstring) (reachedDest : bool) : Hop.t :=
  Hop.mk ttl (Some ip) None (Some reachedDest) None.

Section Run.
(** What the [ping] started for a given TTL does. *)
Variable world : Z -> ProcOutcome.
Variable targetIP : jsstring.

Definition probeHop (ttl : Z) : Settled Hop.t :=
  match world ttl with
  | Thrown => Rejected
  | SpawnError => Fulfilled (reply ttl star false)
  | Closed output _ =>
      let (discoveredIp, reachedDest) :=
        scanLines targetIP (splitLines [] output) in
      Fulfilled (reply ttl discoveredIp reachedDest)
  end.

(** The values [i] of [for (i = 1; i <= MAX_HOPS; i += BATCH_SIZE)]. *)
Definition batchStarts : list Z :=
  map (fun k => 1 + BATCH_SIZE * Z.of_nat k)%Z
      (seq 0 (Z.to_nat ((MAX_HOPS - 1) / BATCH_SIZE + 1))).

(** The values of [ttl] from [i] to [endTtl]. *)
Definition batchTtls (i : Z) : list Z :=
  let endTtl := Z.min (i + BATCH_SIZE - 1) MAX_HOPS in
  map (fun k => i + Z.of_nat k)%Z (seq 0 (Z.to_nat (endTtl - i + 1))).

(** The body of [for (const res of results)]. *)
Definition collect (acc : list Hop.t * bool) (res : Hop.t)
  : list Hop.t * bool :=
  let (hops, targetReached) := acc in
  let hops := if negb (ipIs res star) then hops ++ [res] else hops in
  let targetReached :=
    if truthy (Hop.reached res) || ipIs res targetIP then true
    else targetReached in
  (hops, targetReached).

Fixpoint sweep (starts : list Z) (hops : list Hop.t) (targetReached : bool)
  : Settled (list Hop.t) :=
  match starts with
  | [] => Fulfilled hops
  | i :: starts' =>
      if targetReached then Fulfilled hops
      else
        match promiseAll (map probeHop (batchTtls i)) with
        | Rejected => Rejected
        | Fulfilled results =>
            let (hops', reached') :=
              fold_left collect results (hops, targetReached) in
            sweep starts' hops' reached'
        end
  end.

(** [hops.sort((a, b) => a.hop - b.hop)], a stable sort. *)
Fixpoint insert (x : Hop.t) (l : list Hop.t) : list Hop.t :=
  match l with
  | [] => [x]
  | y :: l' =>
      if (Hop.hop x <=? Hop.hop y)%Z then x :: l else y :: insert x l'
  end.

Definition sort (l : list Hop.t) : list Hop.t := fold_right insert [] l.

Fixpoint truncate (hops : list Hop.t) : list Hop.t :=
  match hops with
  | [] => []
  | h :: rest => if ipIs h targetIP then [h] else h :: truncate rest
  end.

Definition runTraceroute : Settled (list Hop.t) :=
  match sweep batchStarts [] false with
  | Rejected => Rejected
  | Fulfilled hops => Fulfilled (truncate (sort hops))
  end.
End Run.

End Traceroute.

(** ** index.js: the "Force Target Append" step of [run] *)

Definition forceTargetAppend (hops : list Hop.t) (targetIP : jsstring)
  : list Hop.t :=
  match last (map Some hops) None with
  | Some lastHop =>
      if negb (ipIs lastHop targetIP) then
        hops ++ [Hop.mk (Hop.hop lastHop + 1) (Some targetIP) None None
                        (Some (str "0 ms"))]
      else hops
  | None =>
      hops ++ [Hop.mk (0 + 1) (Some targetIP) None None (Some (str "0 ms"))]
  end.

(** ** lib/mtr.js: cycle statistics *)

Module Mtr.

Local Open Scope R_scope.

(** [best] starts at [Infinity]. *)
Inductive ext : Type :=
| Finite (r : R)
| Infinity.

Module Stat.
Record t : Type := mk {
  src : Hop.t;          (** [...hop] *)
  sent : nat;
  received : nat;
  rtts : list R;
  best : ext;
  worst : R;
  sum : R;
  avg : R;
  loss : R;
  stdev : R;
  isDead : bool
}.
End Stat.

(** A row of the [hops] array of a progress message. *)
Module Row.
Record t : Type := mk {
  hop : Z;
  ip : option jsstring;
  loss : R;
  avg : R;
  best : R;
  worst : R;
  stdev : R;
  sent : nat
}.
End Row.

(** An element of the array [runMtrCycles] resolves with. *)
Module Final.
Record t : Type := mk {
  host : option jsstring;
  ip : option jsstring;
  loss : R;
  avg : R;
  best : R;
  worst : R;
  stdev : R
}.
End Final.

(** The argument of [progressCallback]; [type] is always ['cycle_update']. *)
Module Progress.
Record t : Type := mk {
  cycle : Z;
  totalCycles : Z;
  hops : list Row.t
}.
End Progress.

(** What a run does to the outside, in order. *)
Inductive event : Type :=
| EvPing (cycle : Z) (slot : nat) (ip : option jsstring)
    (** [executePing(stat.ip)] called by the task of [slot] *)
| EvProgress (p : Progress.t)
    (** [progressCallback(p)] *)
| EvDelay (ms : Z).
    (** [setTimeout(r, interval)] awaited *)

(** [!hop.ip || hop.ip === '*'] *)
Definition dead (h : Hop.t) : bool :=
  match Hop.ip h with
  | None => true
  | Some a => match a with [] => true | _ => jseqb a (str "*") end
  end.

Definition init (h : Hop.t) : Stat.t :=
  Stat.mk h 0 0 [] Infinity 0 0 0 0 0 (dead h).

Definition calculateStDev (rtts : list R) (avg : R) : R :=
  if (length rtts <? 2)%nat then 0
  else
    let squareDiffs := map (fun rtt => (rtt - avg) ^ 2) rtts in
    let avgSquareDiff :=
      fold_left Rplus squareDiffs 0 / INR (length rtts) in
    sqrt avgSquareDiff.

(** [time < stat.best] *)
Definition below (time : R) (b : ext) : bool :=
  match b with
  | Infinity => true
  | Finite r => if Rlt_dec time r then true else false
  end.

(** The statements guarded by [res.alive]. *)
Definition record (res : Ping.result) (stat : Stat.t) : Stat.t :=
  if Ping.alive res then
    let received := S (Stat.received stat) in
    match Ping.time res with
    | Some time =>
        Stat.mk (Stat.src stat) (Stat.sent stat) received
          (Stat.rtts stat ++ [time])
          (if below time (Stat.best stat) then Finite time
           else Stat.best stat)
          (if Rlt_dec (Stat.worst stat) time then time else Stat.worst stat)
          (Stat.sum stat + time)
          (Stat.avg stat) (Stat.loss stat) (Stat.stdev stat)
          (Stat.isDead stat)
    | None =>
        Stat.mk (Stat.src stat) (Stat.sent stat) received
          (Stat.rtts stat) (Stat.best stat) (Stat.worst stat)
          (Stat.sum stat) (Stat.avg stat) (Stat.loss stat)
          (Stat.stdev stat) (Stat.isDead stat)
    end
  else stat.

(** "Recalculate Derived Stats" *)
Definition derive (stat : Stat.t) : Stat.t :=
  if (0 <? Stat.received stat)%nat then
    let avg := Stat.sum stat / INR (Stat.received stat) in
    let stdev := calculateStDev (Stat.rtts stat) avg in
    let loss :=
      (INR (Stat.sent stat) - INR (Stat.received stat))
      / INR (Stat.sent stat) * 100 in
    Stat.mk (Stat.src stat) (Stat.sent stat) (Stat.received stat)
      (Stat.rtts stat) (Stat.best stat) (Stat.worst stat) (Stat.sum stat)
      avg loss stdev (Stat.isDead stat)
  else
    Stat.mk (Stat.src stat) (Stat.sent stat) (Stat.received stat)
      (Stat.rtts stat) (Stat.best stat) (Stat.worst stat) (Stat.sum stat)
      (Stat.avg stat) 100 (Stat.stdev stat) (Stat.isDead stat).

Definition incSent (stat : Stat.t) : Stat.t :=
  Stat.mk (Stat.src stat) (S (Stat.sent stat)) (Stat.received stat)
    (Stat.rtts stat) (Stat.best stat) (Stat.worst stat) (Stat.sum stat)
    (Stat.avg stat) (Stat.loss stat) (Stat.stdev stat) (Stat.isDead stat).

Definition setLoss (l : R) (stat : Stat.t) : Stat.t :=
  Stat.mk (Stat.src stat) (Stat.sent stat) (Stat.received stat)
    (Stat.rtts stat) (Stat.best stat) (Stat.worst stat) (Stat.sum stat)
    (Stat.avg stat) l (Stat.stdev stat) (Stat.isDead stat).

(** The task of one hop in one cycle, the body of
    [hopStats.map(async (stat) => ...)]: the events it causes and the
    record it leaves.  [o] is what the [ping] it starts would do. *)
Definition hopTask (cycle : Z) (slot : nat) (o : ProcOutcome) (stat : Stat.t)
  : list event * Stat.t :=
  if Stat.isDead stat then ([], setLoss 100 (incSent stat))
  else
    let stat := incSent stat in
    let ping := EvPing cycle slot (Hop.ip (Stat.src stat)) in
    let stat :=
      match executePing o with
      | Fulfilled res => record res stat
      | Rejected => stat
      end in
    ([ping], derive stat).

Definition snapshotRow (stat : Stat.t) : Row.t :=
  Row.mk (Hop.hop (Stat.src stat)) (Hop.ip (Stat.src stat))
    (toFixed1 (Stat.loss stat)) (toFixed1 (Stat.avg stat))
    (match Stat.best stat with
     | Infinity => 0
     | Finite b => toFixed1 b
     end)
    (toFixed1 (Stat.worst stat)) (toFixed1 (Stat.stdev stat))
    (Stat.sent stat).

(** [stat.host || stat.ip] *)
Definition hostOrIp (h : Hop.t) : option jsstring :=
  match Hop.host h with
  | Some ((_ :: _) as a) => Some a
  | _ => Hop.ip h
  end.

Definition finalRow (stat : Stat.t) : Final.t :=
  Final.mk (hostOrIp (Stat.src stat)) (Hop.ip (Stat.src stat))
    (toFixed1 (Stat.loss stat)) (toFixed1 (Stat.avg stat))
    (match Stat.best stat with
     | Infinity => 0
     | Finite b => toFixed1 b
     end)
    (toFixed1 (Stat.worst stat)) (toFixed1 (Stat.stdev stat)).

Section Run.
(** What the [ping] started in a given cycle for a given slot does. *)
Variable world : Z -> nat -> ProcOutcome.
Variable cycles : Z.
(** Whether a [progressCallback] was passed. *)
Variable progressCallback : bool.
Variable interval : Z.

(** The tasks of one cycle, for the slots from [slot] on. *)
Fixpoint runTasks (cycle : Z) (slot : nat) (hopStats : list Stat.t)
  : list event * list Stat.t :=
  match hopStats with
  | [] => ([], [])
  | stat :: rest =>
      let (ev, stat') := hopTask cycle slot (world cycle slot) stat in
      let (evs, rest') := runTasks cycle (S slot) rest in
      (ev ++ evs, stat' :: rest')
  end.

(** The values of [cycle] in
    [for (let cycle = 1; cycle <= cycles; cycle++)]. *)
Definition cycleIndices : list Z :=
  map Z.of_nat (seq 1 (Z.to_nat cycles)).

Fixpoint cycleLoop (cs : list Z) (hopStats : list Stat.t)
  : list event * list Stat.t :=
  match cs with
  | [] => ([], hopStats)
  | cycle :: cs' =>
      let (evPings, hopStats') := runTasks cycle 0 hopStats in
      let evProgress :=
        if progressCallback then
          [EvProgress (Progress.mk cycle cycles (map snapshotRow hopStats'))]
        else [] in
      let evDelay :=
        if (cycle <? cycles)%Z then [EvDelay interval] else [] in
      let (evRest, final) := cycleLoop cs' hopStats' in
      (evPings ++ evProgress ++ evDelay ++ evRest, final)
  end.

Definition runMtrCycles (hops : list Hop.t) : list event * list Final.t :=
  let hopStats := map init hops in
  let (evs, final) := cycleLoop cycleIndices hopStats in
  (evs, map finalRow final).
End Run.

End Mtr.

(** ** index.js: discovery, repair, aggregation

    [None] is the [catch] branch of [run]: discovery was rejected and no
    statistics are gathered. *)
Definition diagnose (trace : Z -> ProcOutcome)
           (pings : Z -> nat -> ProcOutcome) (targetIP : jsstring)
           (mtrDuration : Z)
  : option (list Mtr.event * list Mtr.Final.t) :=
  match Traceroute.runTraceroute trace targetIP with
  | Rejected => None
  | Fulfilled hops =>
      Some (Mtr.runMtrCycles pings mtrDuration true 1000
              (forceTargetAppend hops targetIP))
  end.

(** ** The notions the specification speaks of *)

Module Spec.

Local Open Scope R_scope.

(** *** A millisecond value in a text

    A decimal numeral directly preceded by one of [<], [>], [=] or a white
    space character and followed, after optional white space, by [ms] in
    either case. *)

Definition delimiter (c : cu) : bool :=
  Regex.oneOf (str "<>=") c || Regex.space c.

Inductive numeral : jsstring -> Prop :=
| NumInt int :
    int <> [] -> forallb Regex.digit int = true -> numeral int
| NumFrac int frac :
    int <> [] -> forallb Regex.digit int = true ->
    frac <> [] -> forallb Regex.digit frac = true ->
    numeral (int ++ 46%N :: frac).

(** [num ++ unit] is the text of the value with its unit, [d] the delimiter
    in front of it. *)
Definition msValue (d : cu) (num unit : jsstring) : Prop :=
  delimiter d = true /\ numeral num /\
  exists ws m s,
    unit = ws ++ [m; s] /\ forallb Regex.space ws = true /\
    (m = 109%N \/ m = 77%N) /\ (s = 115%N \/ s = 83%N).

(** The text [s] holds a millisecond value with numeral [num] right after
    [pre]. *)
Definition msValueAt (pre num : jsstring) (s : jsstring) : Prop :=
  exists d unit post,
    s = pre ++ d :: num ++ unit ++ post /\ msValue d num unit.


(** No millisecond value of [s] starts left of the end of [pre]. *)
Definition leftmost (pre : jsstring) (s : jsstring) : Prop :=
  forall pre' num', msValueAt pre' num' s -> (length pre <= length pre')%nat.


(** *** The address token of a line of a TTL probe

    The first address-shaped token of the line, without a trailing colon:
    what the ['close'] handler of [probeHop] compares with the target. *)
Definition firstAddress (line : jsstring) : option jsstring :=
  match Regex.search Traceroute.ipRe line with
  | Some ipMatch =>
      match Regex.capture 1 (Regex.groups ipMatch) with
      | Some foundIp =>
          if (length foundIp <? 2)%nat then None
          else Some (Traceroute.stripColon foundIp)
      | None => None
      end
  | None => None
  end.

(** The line [line] holds the text [t]. *)
Definition holds (t line : jsstring) : Prop :=
  exists u v, line = u ++ t ++ v.

(** *** Statistics of a list of samples *)

Definition total (rs : list R) : R := fold_right Rplus 0 rs.

Definition mean (rs : list R) : R := total rs / INR (length rs).


Definition lossPercent (sent received : nat) : R :=
  100 * (INR sent - INR received) / INR sent.

(** *** The samples a slot collects *)

(** The RTT a probe contributes, if it is answered. *)
Definition sample (o : ProcOutcome) : list R :=
  match executePing o with
  | Fulfilled res =>
      if Ping.alive res then
        match Ping.time res with Some t => [t] | None => [] end
      else []
  | Rejected => []
  end.

(** The samples of [slot] over the cycles [cs], in order. *)
Definition collected (world : Z -> nat -> ProcOutcome) (slot : nat)
           (cs : list Z) : list R :=
  flat_map (fun c => sample (world c slot)) cs.

End Spec.

(** ** Invariants of discovery *)

Module Discovery.

(** Strictly ascending hop indices. *)
Definition ascending (l : list Hop.t) : Prop :=
  StronglySorted Z.lt (map Hop.hop l).

(** The invariant of the sweep: the hops kept so far ascend below the
    start of the next batch, and each is what its probe resolved with. *)
Definition sweepInv (world : Z -> ProcOutcome) (targetIP : jsstring)
           (bound : Z) (hops : list Hop.t) : Prop :=
  ascending hops /\
  Forall (fun h =>
            (Hop.hop h < bound)%Z /\
            Traceroute.probeHop world targetIP (Hop.hop h) = Fulfilled h /\
            ipIs h Traceroute.star = false) hops.

(** The starts of the batches are a batch apart. *)
Fixpoint chain (bound : Z) (starts : list Z) : Prop :=
  match starts with
  | [] => True
  | i :: starts' =>
      (bound <= i)%Z /\ chain (i + Traceroute.BATCH_SIZE) starts'
  end.

End Discovery.

(** ** Views of a run of the aggregator *)

Module Run.

Section View.
Variable world : Z -> nat -> ProcOutcome.
Variable cycles : Z.
Variable progressCallback : bool.
Variable interval : Z.

(** The record the task of [slot] leaves in [cycle]. *)
Definition taskAt (slot : nat) (stat : Mtr.Stat.t) (cycle : Z)
  : Mtr.Stat.t :=
  snd (Mtr.hopTask cycle slot (world cycle slot) stat).

(** The record of [slot] after the cycles [cs]. *)
Definition slotAfter (slot : nat) (cs : list Z) (stat : Mtr.Stat.t)
  : Mtr.Stat.t :=
  fold_left (taskAt slot) cs stat.

(** The records after the first [n] cycles. *)
Definition statsAfter (hops : list Hop.t) (n : nat) : list Mtr.Stat.t :=
  snd (Mtr.cycleLoop world cycles progressCallback interval
         (firstn n (Mtr.cycleIndices cycles)) (map Mtr.init hops)).

Definition events (hops : list Hop.t) : list Mtr.event :=
  fst (Mtr.runMtrCycles world cycles progressCallback interval hops).

Definition result (hops : list Hop.t) : list Mtr.Final.t :=
  snd (Mtr.runMtrCycles world cycles progressCallback interval hops).
End View.

(** The invariant of a record between cycles: the counters and the sum
    agree with the samples held, and the derived fields are those of the
    last recalculation. *)
Definition consistent (stat : Mtr.Stat.t) : Prop :=
  Mtr.Stat.received stat = length (Mtr.Stat.rtts stat) /\
  Mtr.Stat.sum stat = Spec.total (Mtr.Stat.rtts stat) /\
  (Mtr.Stat.received stat <= Mtr.Stat.sent stat)%nat /\
  (Mtr.Stat.received stat = 0%nat ->
     Mtr.Stat.avg stat = 0%R /\ Mtr.Stat.stdev stat = 0%R /\
     Mtr.Stat.loss stat = if Nat.eqb (Mtr.Stat.sent stat) 0 then 0%R
                          else 100%R) /\
  ((0 < Mtr.Stat.received stat)%nat ->
     Mtr.Stat.avg stat = Spec.mean (Mtr.Stat.rtts stat) /\
     Mtr.Stat.stdev stat
     = Mtr.calculateStDev (Mtr.Stat.rtts stat) (Mtr.Stat.avg stat) /\
     Mtr.Stat.loss stat
     = ((INR (Mtr.Stat.sent stat) - INR (Mtr.Stat.received stat))
        / INR (Mtr.Stat.sent stat) * 100)%R).

(** The record of a dead slot once a cycle has passed. *)
Definition deadRecord (stat : Mtr.Stat.t) : Prop :=
  Mtr.Stat.isDead stat = true /\
  Mtr.Stat.received stat = 0%nat /\ Mtr.Stat.rtts stat = [] /\
  Mtr.Stat.best stat = Mtr.Infinity /\ Mtr.Stat.worst stat = 0%R /\
  Mtr.Stat.sum stat = 0%R /\ Mtr.Stat.avg stat = 0%R /\
  Mtr.Stat.stdev stat = 0%R.

(** The messages handed to the progress callback, in order. *)
Fixpoint snapshots (evs : list Mtr.event) : list Mtr.Progress.t :=
  match evs with
  | [] => []
  | Mtr.EvProgress p :: evs' => p :: snapshots evs'
  | _ :: evs' => snapshots evs'
  end.

(** The slots probed, in order, with the cycle of each probe. *)
Fixpoint probes (evs : list Mtr.event) : list (Z * nat) :=
  match evs with
  | [] => []
  | Mtr.EvPing c i _ :: evs' => (c, i) :: probes evs'
  | _ :: evs' => probes evs'
  end.

End Run.

(** ** Concrete runs used as examples *)

Module Scenario.

(** A reply line of [ping] as Linux prints it. *)
Definition line (ip ms : string) : jsstring :=
  str ("64 bytes from " ++ ip ++ ": icmp_seq=1 ttl=64 time=" ++ ms ++ " ms")
  ++ [10%N].

Definition answered (ip ms : string) : ProcOutcome := Closed (line ip ms) 0.

Definition timedOut : ProcOutcome := Closed [] 1.

Definition hopAt (n : Z) (ip : string) : Hop.t :=
  Hop.mk n (Some (str ip)) None None None.

(** A hop object without an address. *)
Definition noAddress (n : Z) : Hop.t := Hop.mk n None None None None.

Definition twoHops : list Hop.t :=
  [hopAt 1 "10.0.0.1"; hopAt 2 "10.0.0.2"].

(** Two cycles over [twoHops]: RTTs 10 and 12 for the first hop, 10 and 14
    for the second. *)
Definition twoCycles (cycle : Z) (slot : nat) : ProcOutcome :=
  match cycle, slot with
  | 1%Z, 0%nat => answered "10.0.0.1" "10"
  | 2%Z, 0%nat => answered "10.0.0.1" "12"
  | 1%Z, 1%nat => answered "10.0.0.2" "10"
  | 2%Z, 1%nat => answered "10.0.0.2" "14"
  | _, _ => timedOut
  end.


(** No [ping] can be started. *)
Definition noPing (cycle : Z) (slot : nat) : ProcOutcome := SpawnError.

(** The first line [ping] prints. *)
Definition banner (ip : string) : jsstring :=
  str ("PING " ++ ip ++ " (" ++ ip ++ ") 56(84) bytes of data.") ++ [10%N].

(** A router answers that the TTL ran out. *)
Definition exceeded (target router : string) : ProcOutcome :=
  Closed (banner target
          ++ str ("From " ++ router ++ " icmp_seq=1 Time to live exceeded")
          ++ [10%N]) 1.

(** The destination answers in 23 ms. *)
Definition reply23 (target : string) : ProcOutcome :=
  Closed (banner target
          ++ str ("64 bytes from " ++ target
                  ++ ": icmp_seq=1 ttl=117 time=23ms")
          ++ [10%N]) 0.

(** A path to 8.8.8.8 with one router in front of it. *)
Definition shortPath (ttl : Z) : ProcOutcome :=
  if (ttl =? 1)%Z then exceeded "8.8.8.8" "10.0.0.1" else reply23 "8.8.8.8".


(** A line that names a router before the destination. *)
Definition viaLine : jsstring :=
  str "From 10.0.0.1 via 8.8.8.8 time=23ms".

End Scenario.

(** ** More views of a run of the aggregator *)

Module Trace.

(** The delays awaited, in order. *)
Fixpoint delays (evs : list Mtr.event) : list Z :=
  match evs with
  | [] => []
  | Mtr.EvDelay ms :: evs' => ms :: delays evs'
  | _ :: evs' => delays evs'
  end.

(** The probes one cycle starts for the hops from [slot] on: one for each
    hop with a usable address, in the order of the hops. *)
Fixpoint pingsFrom (cycle : Z) (slot : nat) (hops : list Hop.t)
  : list Mtr.event :=
  match hops with
  | [] => []
  | h :: hops' =>
      (if Mtr.dead h then [] else [Mtr.EvPing cycle slot (Hop.ip h)])
      ++ pingsFrom cycle (S slot) hops'
  end.

(** What the [k]-th cycle of a run does, given the records it leaves. *)
Definition cycleEvents (cycles : Z) (progressCallback : bool) (interval : Z)
           (hops : list Hop.t) (after : nat -> list Mtr.Stat.t) (k : nat)
  : list Mtr.event :=
  pingsFrom (Z.of_nat k) 0 hops
  ++ (if progressCallback
      then [Mtr.EvProgress
              (Mtr.Progress.mk (Z.of_nat k) cycles
                 (map Mtr.snapshotRow (after k)))]
      else [])
  ++ (if (Z.of_nat k <? cycles)%Z then [Mtr.EvDelay interval] else []).

(** [best] and [worst] against the samples held: [best] is the least
    sample, or still unset; [worst] is an upper bound that is a sample or
    still the initial 0. *)
Definition extremes (stat : Mtr.Stat.t) : Prop :=
  match Mtr.Stat.best stat with
  | Mtr.Infinity => Mtr.Stat.rtts stat = []
  | Mtr.Finite b =>
      In b (Mtr.Stat.rtts stat) /\
      Forall (fun r => (b <= r)%R) (Mtr.Stat.rtts stat)
  end /\
  Forall (fun r => (r <= Mtr.Stat.worst stat)%R) (Mtr.Stat.rtts stat) /\
  (Mtr.Stat.worst stat = 0%R \/ In (Mtr.Stat.worst stat) (Mtr.Stat.rtts stat)).

(** The numbers of a row within their ranges. *)
Definition inRange (loss avg best worst stdev : R) : Prop :=
  (0 <= loss <= 100)%R /\ (0 <= avg)%R /\ (0 <= best)%R /\
  (0 <= worst)%R /\ (0 <= stdev)%R.

End Trace.

(** ** More views of discovery *)

Module Sweep.

(** The TTLs of a full sweep, in order. *)
Definition ttls : list Z := map Z.of_nat (seq 1 30).

(** What the probes of the TTLs [l] resolve with, in order; a probe that
    throws contributes nothing. *)
Definition answers (world : Z -> ProcOutcome) (targetIP : jsstring)
           (l : list Z) : list Hop.t :=
  flat_map (fun ttl =>
              match Traceroute.probeHop world targetIP ttl with
              | Fulfilled res => [res]
              | Rejected => []
              end) l.

(** [res.ip !== '*'] *)
Definition kept (res : Hop.t) : bool := negb (ipIs res Traceroute.star).

(** [res.reached || res.ip === targetIP] *)
Definition hit (targetIP : jsstring) (res : Hop.t) : bool :=
  truthy (Hop.reached res) || ipIs res targetIP.

(** [hasTime || hasBytes] *)
Definition evidence (line : jsstring) : bool :=
  Regex.test Traceroute.timeRe line || Regex.test Traceroute.bytesRe line.

(** A line that does not end the scan: it has no address token, or its
    token is the target and the line shows neither a time nor a byte
    count. *)
Definition undecided (targetIP : jsstring) (line : jsstring) : Prop :=
  Spec.firstAddress line = None \/
  (Spec.firstAddress line = Some targetIP /\ evidence line = false).

End Sweep.

(** ** lib/network.js *)

Module Network.

(** An entry of an array of [os.networkInterfaces()]. *)
Module Iface.
Record t : Type := mk {
  address : jsstring;
  family : jsstring;
  internal : bool
}.
End Iface.

(** What [getLocalNetworkInfo] returns. *)
Module Info.
Record t : Type := mk {
  ipv4 : list jsstring;
  ipv6 : list jsstring;
  dnsServers : list jsstring
}.
End Info.

(** The body of [for (const iface of interfaces[name])]. *)
Definition visit (acc : list jsstring * list jsstring) (iface : Iface.t)
  : list jsstring * list jsstring :=
  let (ipv4, ipv6) := acc in
  if negb (Iface.internal iface) then
    let ipv4 :=
      if jseqb (Iface.family iface) (str "IPv4")
      then ipv4 ++ [Iface.address iface] else ipv4 in
    let ipv6 :=
      if jseqb (Iface.family iface) (str "IPv6")
      then ipv6 ++ [Iface.address iface] else ipv6 in
    (ipv4, ipv6)
  else (ipv4, ipv6).

(** [interfaces] is the object [os.networkInterfaces()], a list of its
    properties in the order [for ... in] visits them; [servers] is
    [dns.getServers()]. *)
Definition getLocalNetworkInfo
           (interfaces : list (jsstring * list Iface.t))
           (servers : list jsstring) : Info.t :=
  let (ipv4, ipv6) :=
    fold_left (fun acc name => fold_left visit (snd name) acc)
              interfaces ([], []) in
  Info.mk ipv4 ipv6 servers.

(** What the callback of [dns.lookup(domain, { all: true }, ...)] gets:
    an error, or an array of [{ address, family }] objects. *)
Inductive Lookup : Type :=
| LookupError (message : jsstring)
| LookupOk (addresses : list (jsstring * Z)).

(** A promise that is rejected with an [Error]; [message] is its
    [message]. *)
Inductive Attempt (A : Type) : Type :=
| Resolve (a : A)
| Reject (message : jsstring).
Arguments Resolve {A} a.
Arguments Reject {A} message.

Definition resolveDNS (o : Lookup) : Attempt (list jsstring) :=
  match o with
  | LookupError message => Reject message
  | LookupOk addresses => Resolve (map fst addresses)
  end.

(** What [getPublicIps] resolves with; it never rejects. *)
Module PublicIps.
Record t : Type := mk {
  ipv4 : option jsstring;
  ipv6 : option jsstring
}.
End PublicIps.

End Network.

(** ** index.js: the class [NetworkDiagnosisTool]

    The callback is taken to return normally.  [getPublicIps] catches
    every failure of its two requests, so the [catch] branch after it in
    [run] is not entered. *)

Module Facade.

(** [results.localNetwork] *)
Module Local.
Record t : Type := mk {
  ipv4 : list jsstring;
  ipv6 : list jsstring;
  dnsServers : list jsstring;
  publicIps : option Network.PublicIps.t
}.
End Local.

(** [targetResult.dns] *)
Module Dns.
Record t : Type := mk {
  resolved : bool;
  addresses : list jsstring;
  error : option jsstring
}.
End Dns.

(** [targetResult.mtr] *)
Module Stats.
Record t : Type := mk {
  executed : bool;
  hops : list Mtr.Final.t;
  error : option jsstring
}.
End Stats.

Module Target.
Record t : Type := mk {
  domain : jsstring;
  dns : Dns.t;
  mtr : Stats.t
}.
End Target.

(** [this.results] *)
Module Results.
Record t : Type := mk {
  timestamp : jsstring;
  localNetwork : Local.t;
  diagnosis : list Target.t
}.
End Results.

(** The fields of an instance. *)
Module Tool.
Record t : Type := mk {
  targetDomains : list jsstring;
  mtrDuration : Z;
  results : Results.t
}.
End Tool.

(** The objects passed to the callback of [run]. *)
Inductive report : Type :=
| LocalInfoStarting
| PublicIpFetching
| PublicIpCompleted (data : Network.PublicIps.t)
| LocalInfoCompleted (data : Local.t)
| TargetStarting (domain : jsstring)
| DnsResolving (domain : jsstring)
| DnsResolved (domain : jsstring) (data : list jsstring)
| DnsFailed (domain : jsstring) (error : jsstring)
| TraceRunning (domain : jsstring) (ip : jsstring)
| TraceCompleted (domain : jsstring) (count : nat)
| PingRunning (domain : jsstring) (total : nat)
| PingProgress (domain : jsstring) (progress : Mtr.Progress.t)
| PingCompleted (domain : jsstring) (data : list Mtr.Final.t)
| TestFailed (domain : jsstring) (error : jsstring)
| TestSkipped (domain : jsstring)
| TargetCompleted (domain : jsstring)
| Finished (data : Results.t).

(** [mtrDuration || 10]; [None] is [undefined]. *)
Definition orTen (mtrDuration : option Z) : Z :=
  match mtrDuration with
  | None => 10
  | Some 0%Z => 10
  | Some d => d
  end.

(** [new NetworkDiagnosisTool(targetDomains, mtrDuration)]; [now] is
    [new Date().toISOString()]. *)
Definition constructor (targetDomains : list jsstring)
           (mtrDuration : option Z) (now : jsstring) : Tool.t :=
  Tool.mk targetDomains (orTen mtrDuration)
    (Results.mk now (Local.mk [] [] [] None) []).

(** What happens outside while one target is processed. *)
Module World.
Record t : Type := mk {
  lookup : Network.Lookup;
  (** the [ping] started by discovery for a TTL *)
  trace : Z -> ProcOutcome;
  (** the message of the exception, if discovery is rejected *)
  thrown : jsstring;
  (** the [ping] started in a cycle for a slot *)
  pings : Z -> nat -> ProcOutcome
}.
End World.

(** [if (targetIP)]: [addresses[0]] exists and is not the empty string. *)
Definition firstUsable (addresses : list jsstring) : option jsstring :=
  match addresses with
  | ((_ :: _) as targetIP) :: _ => Some targetIP
  | _ => None
  end.

(** "2a. DNS Resolution": the reports, [targetResult.dns] and
    [targetIP], if it passes [if (targetIP)]. *)
Definition dnsStep (domain : jsstring) (w : World.t)
  : list report * Dns.t * option jsstring :=
  match Network.resolveDNS (World.lookup w) with
  | Network.Resolve addresses =>
      ([DnsResolving domain; DnsResolved domain addresses],
       Dns.mk true addresses None, firstUsable addresses)
  | Network.Reject message =>
      ([DnsResolving domain; DnsFailed domain message],
       Dns.mk false [] (Some message), None)
  end.

(** "2b. Simulated MTR (Traceroute + Ping)" *)
Definition mtrStep (mtrDuration : Z) (domain : jsstring) (w : World.t)
           (targetIP : option jsstring) : list report * Stats.t :=
  match targetIP with
  | Some targetIP =>
      match Traceroute.runTraceroute (World.trace w) targetIP with
      | Fulfilled hops =>
          let hops := forceTargetAppend hops targetIP in
          let (evs, detailedHops) :=
            Mtr.runMtrCycles (World.pings w) mtrDuration true 1000 hops in
          ([TraceRunning domain targetIP;
            TraceCompleted domain (length hops);
            PingRunning domain (length hops)]
           ++ map (PingProgress domain) (Run.snapshots evs)
           ++ [PingCompleted domain detailedHops],
           Stats.mk true detailedHops None)
      | Rejected =>
          ([TraceRunning domain targetIP;
            TestFailed domain (World.thrown w)],
           Stats.mk false [] (Some (World.thrown w)))
      end
  | None =>
      ([TestSkipped domain],
       Stats.mk false [] (Some (str "Skipped due to DNS failure")))
  end.

(** The body of [for (const domain of this.targetDomains)]. *)
Definition target (mtrDuration : Z) (domain : jsstring) (w : World.t)
  : list report * Target.t :=
  let '(dnsReports, dns, targetIP) := dnsStep domain w in
  let (mtrReports, mtr) := mtrStep mtrDuration domain w targetIP in
  ([TargetStarting domain] ++ dnsReports ++ mtrReports
   ++ [TargetCompleted domain],
   Target.mk domain dns mtr).

(** The loop over the targets; [worlds k] is the world while the [k]-th
    target of this call is processed, [diagnosis] is
    [this.results.diagnosis]. *)
Fixpoint targets (mtrDuration : Z) (worlds : nat -> World.t) (k : nat)
         (domains : list jsstring) (diagnosis : list Target.t)
  : list report * list Target.t :=
  match domains with
  | [] => ([], diagnosis)
  | domain :: rest =>
      let (reports, targetResult) := target mtrDuration domain (worlds k) in
      let (reports', diagnosis') :=
        targets mtrDuration worlds (S k) rest (diagnosis ++ [targetResult]) in
      (reports ++ reports', diagnosis')
  end.

(** [run(callback)]: the reports passed to the callback, in order, and the
    instance afterwards; [run] resolves with its [results].  [info] is
    what [getLocalNetworkInfo] returns and [publicIps] what
    [getPublicIps] resolves with. *)
Definition run (tool : Tool.t) (info : Network.Info.t)
           (publicIps : Network.PublicIps.t) (worlds : nat -> World.t)
  : list report * Tool.t :=
  let localNetwork :=
    Local.mk (Network.Info.ipv4 info) (Network.Info.ipv6 info)
      (Network.Info.dnsServers info) (Some publicIps) in
  let (reports, diagnosis) :=
    targets (Tool.mtrDuration tool) worlds 0 (Tool.targetDomains tool)
      (Results.diagnosis (Tool.results tool)) in
  let results :=
    Results.mk (Results.timestamp (Tool.results tool)) localNetwork
      diagnosis in
  ([LocalInfoStarting; PublicIpFetching; PublicIpCompleted publicIps;
    LocalInfoCompleted localNetwork]
   ++ reports ++ [Finished results],
   Tool.mk (Tool.targetDomains tool) (Tool.mtrDuration tool) results).

(** The progress reports among the reports, in order. *)
Fixpoint progressOf (reports : list report) : list Mtr.Progress.t :=
  match reports with
  | [] => []
  | PingProgress _ p :: rest => p :: progressOf rest
  | _ :: rest => progressOf rest
  end.

(** An entry of the report is coherent: the statistics were gathered
    exactly when no error is recorded for them, and only for a name that
    was resolved; without them there are no rows. *)
Definition coherent (r : Target.t) : Prop :=
  (Stats.executed (Target.mtr r) = true <->
   Stats.error (Target.mtr r) = None) /\
  (Stats.executed (Target.mtr r) = false -> Stats.hops (Target.mtr r) = []) /\
  (Dns.resolved (Target.dns r) = true <-> Dns.error (Target.dns r) = None) /\
  (Dns.resolved (Target.dns r) = false ->
   Dns.addresses (Target.dns r) = [] /\
   Stats.error (Target.mtr r) = Some (str "Skipped due to DNS failure")) /\
  (Stats.executed (Target.mtr r) = true ->
   Dns.resolved (Target.dns r) = true /\
   exists targetIP rows lastRow,
     nth_error (Dns.addresses (Target.dns r)) 0 = Some targetIP /\
     targetIP <> [] /\
     Stats.hops (Target.mtr r) = rows ++ [lastRow] /\
     (length rows <= 30)%nat /\
     Mtr.Final.ip lastRow = Some targetIP /\
     Forall (fun row => Mtr.Final.ip row <> Some targetIP) rows).

End Facade.

(** ** A concrete target *)

Module FacadeScenario.

(** The name resolves to 8.8.8.8, which is one router away; no [ping] of
    the statistics phase can be started. *)
Definition resolved : Facade.World.t :=
  Facade.World.mk (Network.LookupOk [(str "8.8.8.8", 4%Z)])
    Scenario.shortPath (str "spawn ping ENOENT") Scenario.noPing.

(** A loopback interface and an Ethernet interface with two addresses. *)
Definition interfaces : list (jsstring * list Network.Iface.t) :=
  [(str "lo", [Network.Iface.mk (str "127.0.0.1") (str "IPv4") true;
               Network.Iface.mk (str "::1") (str "IPv6") true]);
   (str "eth0", [Network.Iface.mk (str "192.168.1.7") (str "IPv4") false;
                 Network.Iface.mk (str "fe80::1") (str "IPv6") false])].

End FacadeScenario.

(** * Properties *)

(** ** The matcher against the declarative meaning *)

Module RegexFacts.
Import Regex.

Lemma firstn_consumed (m rest : jsstring) :
  firstn (length (m ++ rest) - length rest) (m ++ rest) = m.
Proof.
  rewrite length_app, Nat.add_sub.
  rewrite firstn_app, Nat.sub_diag, firstn_all. simpl. apply app_nil_r.
Qed.

Section Exec.
Variable A : Type.
Implicit Types (k : jsstring -> caps -> option A).

Lemma exec_rep_0 lo a s c k :
  exec (Rep lo 0 a) s c k = if Nat.eqb lo 0 then k s c else None.
Proof. reflexivity. Qed.

Lemma exec_rep_S lo hi a s c k :
  exec (Rep lo (S hi) a) s c k =
  match exec a s c (fun s' c' => exec (Rep (pred lo) hi a) s' c' k) with
  | Some x => Some x
  | None => if Nat.eqb lo 0 then k s c else None
  end.
Proof. reflexivity. Qed.

Lemma many_sound p : forall s lo c k x,
  many p lo s c k = Some x ->
  exists m rest, s = m ++ rest /\ forallb p m = true /\
                 lo <= length m /\ k rest c = Some x.
Proof.
  induction s as [|y s IH]; intros lo c k x H; simpl in H.
  - destruct (Nat.eqb_spec lo 0); [|discriminate].
    exists [], []. subst. repeat split; auto.
  - destruct (p y) eqn:Hp.
    + destruct (many p (pred lo) s c k) eqn:Hm.
      * inversion H; subst.
        apply IH in Hm. destruct Hm as (m & rest & -> & Hall & Hlen & Hk).
        exists (y :: m), rest. simpl. rewrite Hp, Hall.
        repeat split; auto. lia.
      * destruct (Nat.eqb_spec lo 0); [|discriminate].
        exists [], (y :: s). subst. repeat split; auto.
    + destruct (Nat.eqb_spec lo 0); [|discriminate].
      exists [], (y :: s). subst. repeat split; auto.
Qed.

Lemma many_complete p : forall m lo rest c k,
  forallb p m = true -> lo <= length m ->
  (exists y, k rest c = Some y) ->
  exists x, many p lo (m ++ rest) c k = Some x.
Proof.
  induction m as [|y m IH]; intros lo rest c k Hall Hlen [z Hk]; simpl in *.
  - assert (lo = 0) by lia. subst lo.
    destruct rest as [|e rest]; simpl; [eauto|].
    destruct (p e); [|eauto].
    destruct (many p 0 rest c k); eauto.
  - apply andb_true_iff in Hall. destruct Hall as [Hp Hall]. rewrite Hp.
    destruct (IH (pred lo) rest c k Hall) as [x Hx]; [lia|eauto|].
    rewrite Hx. eauto.
Qed.

Theorem exec_sound : forall r s c k x,
  exec r s c k = Some x ->
  exists m rest c', s = m ++ rest /\ matches r m c c' /\
                    k rest c' = Some x.
Proof.
  induction r as [|p|a IHa b IHb|a IHa b IHb|lo hi a IHa|lo p|i a IHa];
    intros s c k x H.
  - exists [], s, c. repeat split; auto. constructor.
  - simpl in H. destruct s as [|y s]; [discriminate|].
    destruct (p y) eqn:Hp; [|discriminate].
    exists [y], s, c. repeat split; auto. now constructor.
  - simpl in H. apply IHa in H.
    destruct H as (m1 & r1 & c1 & -> & Ha & H).
    apply IHb in H. destruct H as (m2 & r2 & c2 & -> & Hb & H).
    exists (m1 ++ m2), r2, c2. rewrite app_assoc.
    repeat split; auto. econstructor; eauto.
  - simpl in H. destruct (exec a s c k) eqn:Ea.
    + inversion H; subst. apply IHa in Ea.
      destruct Ea as (m & rest & c' & -> & Ha & Hk).
      exists m, rest, c'. repeat split; auto. now apply MAltL.
    + apply IHb in H. destruct H as (m & rest & c' & -> & Hb & Hk).
      exists m, rest, c'. repeat split; auto. now apply MAltR.
  - revert lo s c H. induction hi as [|hi IHhi]; intros lo s c H.
    + rewrite exec_rep_0 in H.
      destruct (Nat.eqb_spec lo 0); [|discriminate]. subst.
      exists [], s, c. repeat split; auto. constructor.
    + rewrite exec_rep_S in H.
      destruct (exec a s c _) eqn:Ea.
      * inversion H; subst. apply IHa in Ea.
        destruct Ea as (m1 & r1 & c1 & -> & Ha & Hr).
        apply IHhi in Hr. destruct Hr as (m2 & r2 & c2 & -> & Hb & Hk).
        exists (m1 ++ m2), r2, c2. rewrite app_assoc.
        repeat split; auto. econstructor; eauto.
      * destruct (Nat.eqb_spec lo 0); [|discriminate]. subst.
        exists [], s, c. repeat split; auto. constructor.
  - simpl in H. apply many_sound in H.
    destruct H as (m & rest & -> & Hall & Hlen & Hk).
    exists m, rest, c. repeat split; auto. now constructor.
  - simpl in H. apply IHa in H.
    destruct H as (m & rest & c' & -> & Ha & Hk).
    rewrite firstn_consumed in Hk.
    exists m, rest, ((i, m) :: c'). repeat split; auto. now constructor.
Qed.

Theorem exec_complete r m c c' :
  matches r m c c' ->
  forall rest k, (exists y, k rest c' = Some y) ->
                 exists x, exec r (m ++ rest) c k = Some x.
Proof.
  induction 1 as [c|p y c Hp|a b m1 m2 c c1 c2 Ha IHa Hb IHb
                 |a b m c c' Ha IHa|a b m c c' Hb IHb
                 |hi a c|lo hi a m1 m2 c c1 c2 Ha IHa Hr IHr
                 |lo p m c Hall Hlen|i a m c c' Ha IHa];
    intros rest k Hk.
  - exact Hk.
  - simpl. now rewrite Hp.
  - simpl. rewrite <- app_assoc. apply IHa. now apply IHb.
  - simpl. destruct (IHa rest k Hk) as [x ->]. eauto.
  - simpl. destruct (exec a (m ++ rest) c k); eauto.
  - destruct hi; [exact Hk|]. rewrite exec_rep_S.
    destruct (exec a _ c _); eauto.
  - rewrite exec_rep_S, <- app_assoc.
    destruct (IHa (m2 ++ rest)
                (fun s' c' => exec (Rep (pred lo) hi a) s' c' k)) as [x ->];
      eauto.
  - simpl. now apply many_complete.
  - simpl. apply IHa. now rewrite firstn_consumed.
Qed.
End Exec.

(** A match of [r] starts right at the beginning of [s]. *)
Definition matchesAtStart (r : re) (s : jsstring) : Prop :=
  exists m rest c, s = m ++ rest /\ matches r m [] c.

(** [r] matches somewhere in [s]. *)
Definition occursIn (r : re) (s : jsstring) : Prop :=
  exists u v, s = u ++ v /\ matchesAtStart r v.

Lemma matchHere_sound r pre s f :
  matchHere r pre s = Some f ->
  s = matched f ++ after f /\ before f = rev pre /\
  matches r (matched f) [] (groups f).
Proof.
  unfold matchHere. intros H. apply exec_sound in H.
  destruct H as (m & rest & c & -> & Hm & Hk).
  rewrite firstn_consumed in Hk. inversion Hk; subst. simpl. auto.
Qed.

Lemma matchHere_complete r pre s :
  matchesAtStart r s -> exists f, matchHere r pre s = Some f.
Proof.
  intros (m & rest & c & -> & Hm). unfold matchHere.
  eapply exec_complete; eauto.
Qed.

Lemma matchHere_none r pre s :
  matchHere r pre s = None -> ~ matchesAtStart r s.
Proof.
  intros H Hs. apply (matchHere_complete r pre) in Hs.
  destruct Hs as [f Hf]. congruence.
Qed.

(** What [search] returns is a match, and no match starts further left. *)
Theorem searchFrom_sound r : forall s pre f,
  searchFrom r pre s = Some f ->
  exists skipped,
    s = skipped ++ matched f ++ after f /\
    before f = rev pre ++ skipped /\
    matches r (matched f) [] (groups f) /\
    forall u v, skipped = u ++ v -> v <> [] ->
                ~ matchesAtStart r (v ++ matched f ++ after f).
Proof.
  induction s as [|y s IH]; intros pre f H; simpl in H.
  - destruct (matchHere r pre []) eqn:E; [|discriminate].
    inversion H; subst. apply matchHere_sound in E.
    destruct E as (E1 & E2 & E3). exists []. simpl.
    rewrite app_nil_r. repeat split; auto.
    intros u v Huv Hv. destruct u; destruct v; try discriminate.
    congruence.
  - destruct (matchHere r pre (y :: s)) eqn:E.
    + inversion H; subst. apply matchHere_sound in E.
      destruct E as (E1 & E2 & E3). exists []. simpl.
      rewrite app_nil_r. repeat split; auto.
      intros u v Huv Hv. destruct u; destruct v; try discriminate.
      congruence.
    + apply IH in H. destruct H as (sk & Hs & Hb & Hm & Hleft).
      exists (y :: sk). simpl. rewrite Hs at 1.
      repeat split; auto.
      * rewrite Hb. simpl. now rewrite <- app_assoc.
      * intros u v Huv Hv. destruct u as [|e u]; simpl in Huv.
        -- subst v. simpl. rewrite <- Hs. now apply matchHere_none in E.
        -- inversion Huv; subst. now apply (Hleft u v).
Qed.

Theorem searchFrom_complete r : forall s pre,
  occursIn r s -> exists f, searchFrom r pre s = Some f.
Proof.
  induction s as [|y s IH]; intros pre (u & v & Hs & Hv); simpl.
  - destruct u; [|discriminate]. simpl in Hs. subst v.
    destruct (matchHere_complete r pre _ Hv) as [f ->]. eauto.
  - destruct (matchHere r pre (y :: s)) eqn:E; [eauto|].
    destruct u as [|e u]; simpl in Hs.
    + subst v. now apply matchHere_none in E.
    + inversion Hs; subst. apply IH. exists u, v. auto.
Qed.

Corollary search_some_iff r s :
  (exists f, search r s = Some f) <-> occursIn r s.
Proof.
  split.
  - intros [f H]. apply searchFrom_sound in H.
    destruct H as (sk & Hs & _ & Hm & _).
    exists sk, (matched f ++ after f). split; auto.
    exists (matched f), (after f), (groups f). auto.
  - apply searchFrom_complete.
Qed.

Corollary test_true_iff r s : test r s = true <-> occursIn r s.
Proof.
  rewrite <- search_some_iff. unfold test.
  destruct (search r s); split; eauto; try discriminate.
  intros [f H]. discriminate.
Qed.

End RegexFacts.

(** ** [executePing]: the direct probe *)

Module PingFacts.
Import Regex RegexFacts.

Ltac inv_matches :=
  repeat match goal with
         | H : matches (Cat _ _) _ _ _ |- _ => inversion H; subst; clear H
         | H : matches (Alt _ _) _ _ _ |- _ => inversion H; subst; clear H
         | H : matches (Group _ _) _ _ _ |- _ => inversion H; subst; clear H
         | H : matches (Char _) _ _ _ |- _ => inversion H; subst; clear H
         | H : matches (Many _ _) _ _ _ |- _ => inversion H; subst; clear H
         | H : matches (Rep _ _ _) _ _ _ |- _ => inversion H; subst; clear H
         | H : matches Empty _ _ _ |- _ => inversion H; subst; clear H
         end.

Lemma ci_m c : ci 109%N c = true <-> c = 109%N \/ c = 77%N.
Proof.
  unfold ci, upper. simpl.
  destruct (97 <=? c)%N eqn:E1; destruct (c <=? 122)%N eqn:E2; simpl;
    rewrite N.eqb_eq;
    try apply N.leb_le in E1; try apply N.leb_le in E2;
    try apply N.leb_gt in E1; try apply N.leb_gt in E2; lia.
Qed.

Lemma ci_s c : ci 115%N c = true <-> c = 115%N \/ c = 83%N.
Proof.
  unfold ci, upper. simpl.
  destruct (97 <=? c)%N eqn:E1; destruct (c <=? 122)%N eqn:E2; simpl;
    rewrite N.eqb_eq;
    try apply N.leb_le in E1; try apply N.leb_le in E2;
    try apply N.leb_gt in E1; try apply N.leb_gt in E2; lia.
Qed.

Lemma nonempty_length (A : Type) (l : list A) : (1 <= length l)%nat -> l <> [].
Proof. destruct l; simpl; [lia|discriminate]. Qed.

Lemma length_nonempty (A : Type) (l : list A) : l <> [] -> (1 <= length l)%nat.
Proof. destruct l; simpl; [congruence|lia]. Qed.

(** A match of [rttRe] is a millisecond value with its delimiter, and the
    groups hold the delimiter and the numeral. *)
Lemma rttRe_matches m c :
  matches Ping.rttRe m [] c <->
  exists d num unit,
    m = d :: num ++ unit /\ c = [(2%nat, num); (1%nat, [d])] /\
    Spec.msValue d num unit.
Proof.
  split.
  - intros H. unfold Ping.rttRe, Opt in H. simpl in H. inv_matches.
    + (* [<>=], integer *)
      eexists _, _, _. split; [|split]; [|reflexivity|].
      * simpl. rewrite <- ?app_assoc. reflexivity.
      * rewrite ?app_nil_r. split; [|split].
        -- unfold Spec.delimiter. now rewrite H0.
        -- apply Spec.NumInt; auto using nonempty_length.
        -- eexists _, _, _. split; [reflexivity|].
           split; auto. split; [now apply ci_m|now apply ci_s].
    + (* [<>=], fraction *)
      eexists _, _, _. split; [|split]; [|reflexivity|].
      * simpl. rewrite <- ?app_assoc. reflexivity.
      * rewrite ?app_nil_r. split; [|split].
        -- unfold Spec.delimiter. now rewrite H0.
        -- apply N.eqb_eq in H1. subst. simpl.
           apply Spec.NumFrac; auto using nonempty_length.
        -- eexists _, _, _. split; [reflexivity|].
           split; auto. split; [now apply ci_m|now apply ci_s].
    + eexists _, _, _. split; [|split]; [|reflexivity|].
      * simpl. rewrite <- ?app_assoc. reflexivity.
      * rewrite ?app_nil_r. split; [|split].
        -- unfold Spec.delimiter. rewrite H0. apply orb_true_r.
        -- apply Spec.NumInt; auto using nonempty_length.
        -- eexists _, _, _. split; [reflexivity|].
           split; auto. split; [now apply ci_m|now apply ci_s].
    + eexists _, _, _. split; [|split]; [|reflexivity|].
      * simpl. rewrite <- ?app_assoc. reflexivity.
      * rewrite ?app_nil_r. split; [|split].
        -- unfold Spec.delimiter. rewrite H0. apply orb_true_r.
        -- apply N.eqb_eq in H1. subst. simpl.
           apply Spec.NumFrac; auto using nonempty_length.
        -- eexists _, _, _. split; [reflexivity|].
           split; auto. split; [now apply ci_m|now apply ci_s].
  - intros (d & num & unit & -> & -> & Hd & Hnum & ws & m' & s' & -> & Hws
            & Hm & Hs).
    unfold Ping.rttRe.
    change (d :: num ++ ws ++ [m'; s']) with ([d] ++ num ++ ws ++ [m'; s']).
    apply MCat with (c1 := [(1%nat, [d])]).
    { apply MGroup. unfold Spec.delimiter in Hd.
      apply orb_true_iff in Hd. destruct Hd as [Hd|Hd].
      - apply MAltL. now constructor.
      - apply MAltR. now constructor. }
    apply MCat with (c1 := [(2%nat, num); (1%nat, [d])]).
    { apply MGroup. destruct Hnum as [int Hne Hint|int frac Hne Hint Hnf Hfrac].
      - rewrite <- (app_nil_r int).
        apply MCat with (c1 := [(1%nat, [d])]).
        + constructor; auto using length_nonempty.
        + apply MRepStop.
      - apply MCat with (c1 := [(1%nat, [d])]).
        + constructor; auto using length_nonempty.
        + unfold Opt. rewrite <- (app_nil_r (46%N :: frac)).
          apply MRepStep with (c1 := [(1%nat, [d])]); [|apply MRepStop].
          change (46%N :: frac) with ([46%N] ++ frac).
          apply MCat with (c1 := [(1%nat, [d])]).
          * now constructor.
          * constructor; auto using length_nonempty. }
    apply MCat with (c1 := [(2%nat, num); (1%nat, [d])]).
    { constructor; auto. lia. }
    simpl. change [m'; s'] with ([m'] ++ [s'] ++ []).
    apply MCat with (c1 := [(2%nat, num); (1%nat, [d])]).
    { constructor. now apply ci_m. }
    apply MCat with (c1 := [(2%nat, num); (1%nat, [d])]).
    { constructor. now apply ci_s. }
    constructor.
Qed.


Lemma span_all p : forall a rest,
  forallb p a = true ->
  match rest with [] => True | x :: _ => p x = false end ->
  span p (a ++ rest) = (a, rest).
Proof.
  induction a as [|y a IH]; intros rest Ha Hr; simpl in *.
  - destruct rest as [|x rest]; simpl; [reflexivity|]. now rewrite Hr.
  - apply andb_true_iff in Ha. destruct Ha as [Hy Ha].
    rewrite Hy, (IH rest Ha Hr). reflexivity.
Qed.

(** [parseFloat] reads every numeral. *)
Lemma parseFloat_numeral num :
  Spec.numeral num -> exists r, parseFloat num = Some r.
Proof.
  intros [int Hne Hint|int frac Hne Hint Hnf Hfrac]; unfold parseFloat.
  - rewrite <- (app_nil_r int), (span_all digit int [] Hint I).
    destruct int; [congruence|eauto].
  - rewrite (span_all digit int (46%N :: frac) Hint eq_refl).
    destruct int; [congruence|].
    destruct (span digit frac). eauto.
Qed.


(** What a successful search for [rttRe] has found. *)
Lemma search_rttRe output f :
  search Ping.rttRe output = Some f ->
  exists num,
    capture 2 (groups f) = Some num /\
    Spec.msValueAt (before f) num output /\
    Spec.leftmost (before f) output.
Proof.
  intros H. apply searchFrom_sound in H.
  destruct H as (sk & Hs & Hb & Hm & Hleft). simpl in Hb. subst sk.
  apply rttRe_matches in Hm.
  destruct Hm as (d & num & unit & Hmt & Hg & Hv).
  exists num. rewrite Hg. split; [reflexivity|]. split.
  - exists d, unit, (after f). split; [|assumption].
    rewrite Hs at 1. rewrite Hmt. simpl. now rewrite <- app_assoc.
  - intros pre' num' (d' & unit' & post' & Hs' & Hv').
    destruct (le_lt_dec (length (before f)) (length pre')) as [|Hlt];
      [assumption|exfalso].
    rewrite Hs in Hs' at 1.
    apply app_eq_app in Hs'.
    destruct Hs' as [v [[Hbv Hrest]|[Hbv Hrest]]].
    + destruct v as [|e v].
      * rewrite app_nil_r in Hbv. rewrite Hbv in Hlt. lia.
      * apply (Hleft pre' (e :: v) Hbv); [discriminate|].
        exists (d' :: num' ++ unit'), post', [(2%nat, num'); (1%nat, [d'])].
        split.
        -- rewrite <- Hrest. simpl. now rewrite <- app_assoc.
        -- apply rttRe_matches. exists d', num', unit'. auto.
    + rewrite Hbv, length_app in Hlt. lia.
Qed.








End PingFacts.

Lemma executePing_closed output code :
  executePing (Closed output code) =
  match Regex.search Ping.rttRe output with
  | Some timeMatch => Fulfilled (Ping.mk true (Ping.group2 timeMatch))
  | None => Fulfilled (Ping.mk false None)
  end.
Proof. reflexivity. Qed.

(** An answered probe always carries a time. *)
Lemma executePing_alive_time o res :
  executePing o = Fulfilled res -> Ping.alive res = true ->
  exists t, Ping.time res = Some t.
Proof.
  destruct o as [output code| |]; simpl; try discriminate.
  - destruct (Regex.search Ping.rttRe output) as [f|] eqn:E;
      intros H; inversion H; subst; simpl; [intros _|discriminate].
    apply PingFacts.search_rttRe in E. destruct E as (num & Hc & Hv & _).
    unfold Ping.group2. rewrite Hc.
    destruct Hv as (d & unit & post & _ & _ & Hnum & _).
    now apply PingFacts.parseFloat_numeral.
  - intros H; inversion H; subst. discriminate.
Qed.

Lemma executePing_dead_time o res :
  executePing o = Fulfilled res -> Ping.alive res = false ->
  Ping.time res = None.
Proof.
  destruct o as [output code| |]; simpl; try discriminate.
  - destruct (Regex.search Ping.rttRe output);
      intros H; inversion H; subst; simpl; [discriminate|reflexivity].
  - intros H; inversion H; subst. reflexivity.
Qed.






(** Evaluates the integers under [IZR]. *)
Ltac izr_compute :=
  repeat match goal with
         | |- context [IZR ?z] =>
             progress (let z' := eval vm_compute in z in
                       change (IZR z) with (IZR z'))
         end.

(** Replies as Linux and Windows print them, and a Linux run without a
    reply, whose statistics line still ends in a millisecond value. *)
Example executePing_linux_reply :
  executePing (Scenario.answered "10.0.0.1" "23.5")
  = Fulfilled (Ping.mk true (Some (235 / 10)%R)).
Proof.
  unfold Scenario.answered. rewrite executePing_closed.
  replace (Regex.search Ping.rttRe (Scenario.line "10.0.0.1" "23.5"))
    with (Some (Regex.mkFound
                  (str "64 bytes from 10.0.0.1: icmp_seq=1 ttl=64 time")
                  (str "=23.5 ms") [(2%nat, str "23.5"); (1%nat, str "=")]
                  [10%N]))
    by (vm_compute; reflexivity).
  unfold Ping.group2, parseFloat. simpl. izr_compute. do 3 f_equal. lra.
Qed.

Example executePing_windows_reply :
  executePing
    (Closed (str "Reply from 10.0.0.1: bytes=32 time<1ms TTL=64") 0)
  = Fulfilled (Ping.mk true (Some 1%R)).
Proof.
  rewrite executePing_closed.
  replace (Regex.search Ping.rttRe
             (str "Reply from 10.0.0.1: bytes=32 time<1ms TTL=64"))
    with (Some (Regex.mkFound (str "Reply from 10.0.0.1: bytes=32 time")
                  (str "<1ms") [(2%nat, str "1"); (1%nat, str "<")]
                  (str " TTL=64")))
    by (vm_compute; reflexivity).
  reflexivity.
Qed.

Example executePing_linux_statistics :
  executePing
    (Closed (str "1 packets transmitted, 0 received, 100% packet loss, time 0ms")
            1)
  = Fulfilled (Ping.mk true (Some 0%R)).
Proof.
  rewrite executePing_closed.
  replace (Regex.search Ping.rttRe
             (str "1 packets transmitted, 0 received, 100% packet loss, time 0ms"))
    with (Some (Regex.mkFound
                  (str "1 packets transmitted, 0 received, 100% packet loss, time")
                  (str " 0ms") [(2%nat, str "0"); (1%nat, str " ")] []))
    by (vm_compute; reflexivity).
  reflexivity.
Qed.

(** ** Rounding to one decimal *)

Module RoundFacts.
Local Open Scope R_scope.

Lemma Int_part_half (z : Z) : Int_part (IZR z + / 2) = z.
Proof. symmetry. apply Int_part_spec. lra. Qed.

Lemma roundTenth_tenths (z : Z) : roundTenth (IZR z / 10) = IZR z / 10.
Proof.
  unfold roundTenth.
  replace (IZR z / 10 * 10) with (IZR z) by lra.
  now rewrite Int_part_half.
Qed.


(** A non-negative number of tenths below 10^21 is printed as it is. *)
Lemma toFixed1_tenths (z : Z) :
  (0 <= z < 10 ^ 22)%Z -> toFixed1 (IZR z / 10) = IZR z / 10.
Proof.
  intros [H0 H1]. unfold toFixed1.
  assert (0 <= IZR z) by now apply IZR_le.
  assert (IZR z < IZR (10 ^ 22)) by now apply IZR_lt.
  replace (IZR (10 ^ 22)) with (IZR (10 ^ 21) * 10) in *
    by (rewrite <- mult_IZR; reflexivity).
  destruct (Rle_dec _ _) as [Hbig|_]; [reflexivity|].
  destruct (Rlt_dec _ _) as [Hneg|_]; [lra|].
  apply roundTenth_tenths.
Qed.

Lemma toFixed1_int (z : Z) :
  (0 <= z < 10 ^ 21)%Z -> toFixed1 (IZR z) = IZR z.
Proof.
  intros H. replace (IZR z) with (IZR (z * 10) / 10)
    by (rewrite mult_IZR; lra).
  apply toFixed1_tenths. lia.
Qed.

Lemma toFixed1_0 : toFixed1 0 = 0.
Proof. apply (@toFixed1_int 0%Z). lia. Qed.

Lemma toFixed1_100 : toFixed1 100 = 100.
Proof. apply (@toFixed1_int 100%Z). lia. Qed.

Lemma roundTenth_range (x : R) :
  0 <= x <= 100 -> 0 <= roundTenth x <= 100.
Proof.
  intros [H0 H1]. unfold roundTenth.
  destruct (base_Int_part (x * 10 + / 2)) as [Hlo Hhi].
  set (n := Int_part (x * 10 + / 2)) in *.
  assert (Hn0 : (0 <= n)%Z).
  { apply Z.lt_succ_r. apply lt_IZR. rewrite succ_IZR. lra. }
  assert (Hn1 : (n <= 1000)%Z).
  { apply Z.lt_succ_r. apply lt_IZR. simpl. lra. }
  apply IZR_le in Hn0, Hn1. lra.
Qed.

(** Rounding keeps a percentage a percentage. *)
Lemma toFixed1_range (x : R) :
  0 <= x <= 100 -> 0 <= toFixed1 x <= 100.
Proof.
  intros H. unfold toFixed1.
  destruct (Rle_dec _ _); [assumption|].
  destruct (Rlt_dec _ _); [lra|].
  now apply roundTenth_range.
Qed.



End RoundFacts.

(** ** The shape of a run of [runMtrCycles] *)

Module MtrFacts.
Import Mtr.
Local Open Scope R_scope.

Lemma if_true (A : Type) (b : bool) (x y : A) :
  b = true -> (if b then x else y) = x.
Proof. now intros ->. Qed.

Lemma if_false (A : Type) (b : bool) (x y : A) :
  b = false -> (if b then x else y) = y.
Proof. now intros ->. Qed.

Lemma snapshots_app evs1 evs2 :
  Run.snapshots (evs1 ++ evs2) = Run.snapshots evs1 ++ Run.snapshots evs2.
Proof.
  induction evs1 as [|[c i a|p|ms] evs1 IH]; simpl; auto. now rewrite IH.
Qed.

Lemma probes_app evs1 evs2 :
  Run.probes (evs1 ++ evs2) = Run.probes evs1 ++ Run.probes evs2.
Proof.
  induction evs1 as [|[c i a|p|ms] evs1 IH]; simpl; auto. now rewrite IH.
Qed.

Lemma derive_fields stat :
  Stat.isDead (derive stat) = Stat.isDead stat /\
  Stat.src (derive stat) = Stat.src stat /\
  Stat.sent (derive stat) = Stat.sent stat /\
  Stat.received (derive stat) = Stat.received stat /\
  Stat.rtts (derive stat) = Stat.rtts stat /\
  Stat.sum (derive stat) = Stat.sum stat /\
  Stat.best (derive stat) = Stat.best stat /\
  Stat.worst (derive stat) = Stat.worst stat.
Proof.
  unfold derive. destruct (0 <? Stat.received stat)%nat; simpl; tauto.
Qed.

Lemma record_fields res stat :
  Stat.isDead (record res stat) = Stat.isDead stat /\
  Stat.src (record res stat) = Stat.src stat /\
  Stat.sent (record res stat) = Stat.sent stat.
Proof.
  unfold record. destruct (Ping.alive res); [destruct (Ping.time res)|];
    simpl; tauto.
Qed.

Ltac task_cases o stat :=
  unfold hopTask; destruct (Stat.isDead stat) eqn:?; simpl; auto;
  destruct (executePing o) as [?res|]; simpl.

Lemma hopTask_isDead cycle slot o stat :
  Stat.isDead (snd (hopTask cycle slot o stat)) = Stat.isDead stat.
Proof.
  task_cases o stat.
  - destruct (derive_fields (record res (incSent stat))) as (-> & _).
    now destruct (record_fields res (incSent stat)) as (-> & _).
  - now destruct (derive_fields (incSent stat)) as (-> & _).
Qed.

Lemma hopTask_src cycle slot o stat :
  Stat.src (snd (hopTask cycle slot o stat)) = Stat.src stat.
Proof.
  task_cases o stat.
  - destruct (derive_fields (record res (incSent stat))) as (_ & -> & _).
    now destruct (record_fields res (incSent stat)) as (_ & -> & _).
  - now destruct (derive_fields (incSent stat)) as (_ & -> & _).
Qed.

Lemma hopTask_sent cycle slot o stat :
  Stat.sent (snd (hopTask cycle slot o stat)) = S (Stat.sent stat).
Proof.
  task_cases o stat.
  - destruct (derive_fields (record res (incSent stat))) as (_ & _ & -> & _).
    now destruct (record_fields res (incSent stat)) as (_ & _ & ->).
  - now destruct (derive_fields (incSent stat)) as (_ & _ & -> & _).
Qed.

(** A task probes exactly when its slot is live. *)
Lemma hopTask_events cycle slot o stat :
  fst (hopTask cycle slot o stat) =
  if Stat.isDead stat then []
  else [EvPing cycle slot (Hop.ip (Stat.src stat))].
Proof.
  unfold hopTask. destruct (Stat.isDead stat); reflexivity.
Qed.

Lemma total_snoc rs t : Spec.total (rs ++ [t]) = Spec.total rs + t.
Proof.
  unfold Spec.total. induction rs as [|r rs IH]; simpl; [lra|].
  rewrite IH. lra.
Qed.


Lemma init_consistent h : Run.consistent (init h).
Proof.
  unfold Run.consistent, init; simpl. repeat split; auto; lia.
Qed.

Lemma derive_consistent stat :
  Stat.received stat = length (Stat.rtts stat) ->
  Stat.sum stat = Spec.total (Stat.rtts stat) ->
  (Stat.received stat <= Stat.sent stat)%nat ->
  (0 < Stat.sent stat)%nat ->
  (Stat.received stat = 0%nat -> Stat.avg stat = 0 /\ Stat.stdev stat = 0) ->
  Run.consistent (derive stat).
Proof.
  intros Hr Hs Hle Hsent H0. unfold Run.consistent, derive.
  destruct (Nat.ltb_spec 0 (Stat.received stat)) as [Hpos|Hz]; simpl.
  - repeat split; auto; try lia.
    unfold Spec.mean. now rewrite Hs, Hr.
  - assert (Hrz : Stat.received stat = 0%nat) by lia.
    destruct (H0 Hrz) as [Ha Hd].
    repeat split; auto; try lia.
    destruct (Nat.eqb_spec (Stat.sent stat) 0); [lia|reflexivity].
Qed.

Lemma init_dead h : dead h = true -> Run.deadRecord (init h).
Proof. intros H. unfold Run.deadRecord, init; simpl. tauto. Qed.

Section Cycles.
Variable world : Z -> nat -> ProcOutcome.
Variable cycles : Z.
Variable progressCallback : bool.
Variable interval : Z.

Abbreviation taskAt := (Run.taskAt world).
Abbreviation slotAfter := (Run.slotAfter world).
Abbreviation runTasks := (Mtr.runTasks world).
Abbreviation cycleLoop := (Mtr.cycleLoop world cycles progressCallback interval).
Abbreviation statsAfter := (Run.statsAfter world cycles progressCallback interval).

Lemma runTasks_cons cycle slot stat rest :
  runTasks cycle slot (stat :: rest) =
  (fst (hopTask cycle slot (world cycle slot) stat)
     ++ fst (runTasks cycle (S slot) rest),
   taskAt slot stat cycle :: snd (runTasks cycle (S slot) rest)).
Proof.
  simpl. unfold Run.taskAt.
  destruct (hopTask cycle slot (world cycle slot) stat).
  destruct (Mtr.runTasks world cycle (S slot) rest). reflexivity.
Qed.

Lemma runTasks_nth cycle : forall hopStats slot i,
  nth_error (snd (runTasks cycle slot hopStats)) i =
  option_map (fun stat => taskAt (slot + i) stat cycle)
             (nth_error hopStats i).
Proof.
  induction hopStats as [|stat rest IH]; intros slot i.
  - destruct i; reflexivity.
  - rewrite runTasks_cons. destruct i as [|i]; simpl.
    + now rewrite Nat.add_0_r.
    + rewrite IH. now rewrite Nat.add_succ_r.
Qed.

Lemma runTasks_length cycle : forall hopStats slot,
  length (snd (runTasks cycle slot hopStats)) = length hopStats.
Proof.
  induction hopStats as [|stat rest IH]; intros slot; [reflexivity|].
  rewrite runTasks_cons. simpl. now rewrite IH.
Qed.

Lemma runTasks_snapshots cycle : forall hopStats slot,
  Run.snapshots (fst (runTasks cycle slot hopStats)) = [].
Proof.
  induction hopStats as [|stat rest IH]; intros slot; [reflexivity|].
  rewrite runTasks_cons. simpl. rewrite snapshots_app, IH, hopTask_events.
  destruct (Stat.isDead stat); reflexivity.
Qed.

(** The probes of one cycle: the live slots, in slot order. *)
Lemma runTasks_probes cycle : forall hopStats slot c i,
  In (c, i) (Run.probes (fst (runTasks cycle slot hopStats))) ->
  c = cycle /\ (slot <= i)%nat /\
  exists stat, nth_error hopStats (i - slot) = Some stat /\
               Stat.isDead stat = false.
Proof.
  induction hopStats as [|stat rest IH]; intros slot c i H.
  - destruct H.
  - rewrite runTasks_cons in H. simpl in H.
    rewrite probes_app, hopTask_events in H. apply in_app_or in H.
    destruct H as [H|H].
    + destruct (Stat.isDead stat) eqn:E; simpl in H; [destruct H|].
      destruct H as [H|[]]. inversion H; subst.
      rewrite Nat.sub_diag. simpl. eauto.
    + apply IH in H. destruct H as (-> & Hle & s & Hn & Hd).
      split; [reflexivity|]. split; [lia|]. exists s. split; [|assumption].
      replace (i - slot)%nat with (S (i - S slot)) by lia. exact Hn.
Qed.

Lemma cycleLoop_cons cycle cs hopStats :
  cycleLoop (cycle :: cs) hopStats =
  let hopStats' := snd (runTasks cycle 0 hopStats) in
  (fst (runTasks cycle 0 hopStats)
     ++ (if progressCallback
         then [EvProgress
                 (Progress.mk cycle cycles (map snapshotRow hopStats'))]
         else [])
     ++ (if (cycle <? cycles)%Z then [EvDelay interval] else [])
     ++ fst (cycleLoop cs hopStats'),
   snd (cycleLoop cs hopStats')).
Proof.
  simpl. destruct (Mtr.runTasks world cycle 0 hopStats) as [ev st]. simpl.
  destruct (Mtr.cycleLoop world cycles progressCallback interval cs st).
  reflexivity.
Qed.

(** The records evolve slot by slot. *)
Lemma cycleLoop_nth : forall cs hopStats i,
  nth_error (snd (cycleLoop cs hopStats)) i =
  option_map (slotAfter i cs) (nth_error hopStats i).
Proof.
  induction cs as [|c cs IH]; intros hopStats i.
  - simpl. now destruct (nth_error hopStats i).
  - rewrite cycleLoop_cons. simpl. rewrite IH, runTasks_nth.
    now destruct (nth_error hopStats i).
Qed.

Lemma cycleLoop_length : forall cs hopStats,
  length (snd (cycleLoop cs hopStats)) = length hopStats.
Proof.
  induction cs as [|c cs IH]; intros hopStats; [reflexivity|].
  rewrite cycleLoop_cons. simpl. now rewrite IH, runTasks_length.
Qed.

Lemma statsAfter_nth hops n i :
  nth_error (statsAfter hops n) i =
  option_map (fun h => slotAfter i (firstn n (cycleIndices cycles)) (init h))
             (nth_error hops i).
Proof.
  unfold Run.statsAfter. rewrite cycleLoop_nth, nth_error_map.
  now destruct (nth_error hops i).
Qed.

Lemma statsAfter_length hops n : length (statsAfter hops n) = length hops.
Proof.
  unfold Run.statsAfter. now rewrite cycleLoop_length, length_map.
Qed.

Lemma slotAfter_isDead i : forall cs stat,
  Stat.isDead (slotAfter i cs stat) = Stat.isDead stat.
Proof.
  induction cs as [|c cs IH]; intros stat; simpl; [reflexivity|].
  fold (slotAfter i cs). rewrite IH. apply hopTask_isDead.
Qed.

Lemma slotAfter_src i : forall cs stat,
  Stat.src (slotAfter i cs stat) = Stat.src stat.
Proof.
  induction cs as [|c cs IH]; intros stat; simpl; [reflexivity|].
  fold (slotAfter i cs). rewrite IH. apply hopTask_src.
Qed.

Lemma slotAfter_sent i : forall cs stat,
  Stat.sent (slotAfter i cs stat) = (Stat.sent stat + length cs)%nat.
Proof.
  induction cs as [|c cs IH]; intros stat; simpl; [lia|].
  fold (slotAfter i cs). rewrite IH.
  unfold Run.taskAt. rewrite hopTask_sent. lia.
Qed.

Lemma slotAfter_snoc i cs c stat :
  slotAfter i (cs ++ [c]) stat = taskAt i (slotAfter i cs stat) c.
Proof. unfold Run.slotAfter. now rewrite fold_left_app. Qed.

(** *** A live slot *)

(** One cycle of a live slot keeps the record consistent and appends the
    sample of the probe, if any. *)
Lemma taskAt_live i stat c :
  Stat.isDead stat = false -> Run.consistent stat ->
  Run.consistent (taskAt i stat c) /\
  Stat.rtts (taskAt i stat c) = Stat.rtts stat ++ Spec.sample (world c i).
Proof.
  intros Hlive (Hr & Hs & Hle & H0 & Hpos).
  unfold Run.taskAt, hopTask, Spec.sample. rewrite Hlive. simpl.
  destruct (executePing (world c i)) as [res|] eqn:E.
  - unfold record. destruct (Ping.alive res) eqn:Ha.
    + destruct (executePing_alive_time _ _ E Ha) as [t Ht]. rewrite Ht.
      split.
      * apply derive_consistent; simpl; try lia.
        -- rewrite length_app. simpl. lia.
        -- rewrite total_snoc. now rewrite Hs.
      * destruct (derive_fields
                    (Stat.mk (Stat.src (incSent stat))
                       (Stat.sent (incSent stat))
                       (S (Stat.received (incSent stat)))
                       (Stat.rtts (incSent stat) ++ [t])
                       (if below t (Stat.best (incSent stat))
                        then Finite t else Stat.best (incSent stat))
                       (if Rlt_dec (Stat.worst (incSent stat)) t
                        then t else Stat.worst (incSent stat))
                       (Stat.sum (incSent stat) + t)
                       (Stat.avg (incSent stat)) (Stat.loss (incSent stat))
                       (Stat.stdev (incSent stat))
                       (Stat.isDead (incSent stat))))
          as (_ & _ & _ & _ & -> & _). reflexivity.
    + split.
      * apply derive_consistent; simpl; auto; try lia. tauto.
      * destruct (derive_fields (incSent stat)) as (_ & _ & _ & _ & -> & _).
        simpl. now rewrite app_nil_r.
  - split.
    + apply derive_consistent; simpl; auto; try lia. tauto.
    + destruct (derive_fields (incSent stat)) as (_ & _ & _ & _ & -> & _).
      simpl. now rewrite app_nil_r.
Qed.

(** After any cycles a live slot holds the samples it collected. *)
Lemma slotAfter_live i h : forall cs,
  dead h = false ->
  Run.consistent (slotAfter i cs (init h)) /\
  Stat.rtts (slotAfter i cs (init h)) = Spec.collected world i cs.
Proof.
  intros cs Hlive. induction cs as [|c cs IH] using rev_ind.
  - split; [apply init_consistent|reflexivity].
  - destruct IH as [Hc Hrtts]. rewrite slotAfter_snoc.
    assert (Hd : Stat.isDead (slotAfter i cs (init h)) = false)
      by now rewrite slotAfter_isDead.
    destruct (taskAt_live i _ c Hd Hc) as [Hc' Hrtts'].
    split; [assumption|].
    rewrite Hrtts', Hrtts. unfold Spec.collected.
    rewrite flat_map_app. simpl. now rewrite app_nil_r.
Qed.

(** *** A dead slot *)

Lemma taskAt_dead i stat c :
  Stat.isDead stat = true ->
  taskAt i stat c = setLoss 100 (incSent stat).
Proof. intros H. unfold Run.taskAt, hopTask. now rewrite H. Qed.

Lemma slotAfter_dead i : forall cs stat,
  Run.deadRecord stat ->
  Run.deadRecord (slotAfter i cs stat) /\
  (cs <> [] -> Stat.loss (slotAfter i cs stat) = 100).
Proof.
  intros cs stat Hd. induction cs as [|c cs IH] using rev_ind.
  - split; [assumption|congruence].
  - destruct IH as [IH _]. rewrite slotAfter_snoc.
    destruct IH as (H1 & H2 & H3 & H4 & H5 & H6 & H7 & H8).
    rewrite taskAt_dead by assumption.
    split; [|reflexivity].
    unfold Run.deadRecord. simpl. tauto.
Qed.

(** *** Events and result of a whole run *)

Lemma runMtrCycles_unfold hops :
  Mtr.runMtrCycles world cycles progressCallback interval hops =
  (fst (cycleLoop (cycleIndices cycles) (map init hops)),
   map finalRow (snd (cycleLoop (cycleIndices cycles) (map init hops)))).
Proof.
  unfold Mtr.runMtrCycles.
  now destruct (Mtr.cycleLoop world cycles progressCallback interval
                  (cycleIndices cycles) (map init hops)).
Qed.

Lemma cycleIndices_length : length (cycleIndices cycles) = Z.to_nat cycles.
Proof. unfold cycleIndices. now rewrite length_map, length_seq. Qed.

Lemma cycleIndices_nth k :
  (1 <= k <= Z.to_nat cycles)%nat ->
  nth (k - 1) (cycleIndices cycles) 0%Z = Z.of_nat k.
Proof.
  intros Hk. unfold cycleIndices.
  change 0%Z with (Z.of_nat 0). rewrite map_nth, seq_nth by lia.
  f_equal. lia.
Qed.

Lemma cycleLoop_snapshots : forall cs hopStats,
  progressCallback = true ->
  Run.snapshots (fst (cycleLoop cs hopStats)) =
  map (fun k => Progress.mk (nth (k - 1) cs 0%Z) cycles
                  (map snapshotRow (snd (cycleLoop (firstn k cs) hopStats))))
      (seq 1 (length cs)).
Proof.
  intros cs hopStats Hcb.
  revert hopStats. induction cs as [|c cs IH]; intros hopStats.
  - reflexivity.
  - rewrite cycleLoop_cons. cbv zeta. simpl fst.
    rewrite !snapshots_app, runTasks_snapshots, (if_true _ _ _ _ Hcb), IH.
    replace (Run.snapshots
               (if (c <? cycles)%Z then [EvDelay interval] else []))
      with (@nil Progress.t) by now destruct (c <? cycles)%Z.
    change (length (c :: cs)) with (S (length cs)).
    change (seq 1 (S (length cs))) with (1%nat :: seq 2 (length cs)).
    rewrite <- (seq_shift (length cs) 1), map_cons, map_map.
    simpl app. apply (f_equal2 cons).
    + change (firstn 1 (c :: cs)) with [c]. now rewrite cycleLoop_cons.
    + apply map_ext_in. intros k Hk. apply in_seq in Hk.
      destruct k as [|k]; [lia|].
      change (firstn (S (S k)) (c :: cs)) with (c :: firstn (S k) cs).
      rewrite cycleLoop_cons. simpl. now rewrite Nat.sub_0_r.
Qed.

Lemma cycleLoop_no_callback : forall cs hopStats,
  progressCallback = false ->
  Run.snapshots (fst (cycleLoop cs hopStats)) = [].
Proof.
  intros cs hopStats Hcb.
  revert hopStats. induction cs as [|c cs IH]; intros hopStats.
  - reflexivity.
  - rewrite cycleLoop_cons. cbv zeta. simpl fst.
    rewrite !snapshots_app, runTasks_snapshots, (if_false _ _ _ _ Hcb), IH.
    now destruct (c <? cycles)%Z.
Qed.

Lemma cycleLoop_probes : forall cs hopStats c i,
  In (c, i) (Run.probes (fst (cycleLoop cs hopStats))) ->
  exists stat, nth_error hopStats i = Some stat /\
               Stat.isDead stat = false.
Proof.
  induction cs as [|c0 cs IH]; intros hopStats c i H.
  - destruct H.
  - rewrite cycleLoop_cons in H. cbv zeta in H. simpl fst in H.
    rewrite !probes_app in H. apply in_app_or in H. destruct H as [H|H].
    + apply runTasks_probes in H. destruct H as (_ & _ & stat & Hn & Hd).
      rewrite Nat.sub_0_r in Hn. eauto.
    + apply in_app_or in H. destruct H as [H|H].
      { destruct progressCallback; destruct H. }
      apply in_app_or in H. destruct H as [H|H].
      { destruct (c0 <? cycles)%Z; destruct H. }
      apply IH in H. destruct H as (stat & Hn & Hd).
      rewrite runTasks_nth in Hn.
      destruct (nth_error hopStats i) as [stat0|]; [|discriminate].
      simpl in Hn. injection Hn as <-.
      exists stat0. split; [reflexivity|].
      unfold Run.taskAt in Hd. now rewrite hopTask_isDead in Hd.
Qed.

(** The snapshots of a run are the rounded records after each cycle. *)
Theorem snapshots_run hops :
  progressCallback = true ->
  Run.snapshots (Run.events world cycles progressCallback interval hops) =
  map (fun k => Progress.mk (Z.of_nat k) cycles
                  (map snapshotRow (statsAfter hops k)))
      (seq 1 (Z.to_nat cycles)).
Proof.
  intros Hcb. unfold Run.events. rewrite runMtrCycles_unfold. simpl fst.
  rewrite cycleLoop_snapshots by assumption.
  rewrite cycleIndices_length. apply map_ext_in. intros k Hk.
  apply in_seq in Hk. rewrite cycleIndices_nth by lia. reflexivity.
Qed.

(** The result of a run is the rounded records after the last cycle. *)
Theorem result_run hops :
  Run.result world cycles progressCallback interval hops =
  map finalRow (statsAfter hops (Z.to_nat cycles)).
Proof.
  unfold Run.result, Run.statsAfter. rewrite runMtrCycles_unfold. simpl snd.
  now rewrite <- cycleIndices_length, firstn_all.
Qed.

(** Only live slots are probed. *)
Theorem probes_run hops c i :
  In (c, i)
     (Run.probes (Run.events world cycles progressCallback interval hops)) ->
  exists h, nth_error hops i = Some h /\ dead h = false.
Proof.
  unfold Run.events. rewrite runMtrCycles_unfold. simpl fst. intros H.
  apply cycleLoop_probes in H. destruct H as (stat & Hn & Hd).
  rewrite nth_error_map in Hn.
  destruct (nth_error hops i) as [h|]; [|discriminate].
  injection Hn as <-. eauto.
Qed.

Lemma firstn_cycleIndices_length n :
  (n <= Z.to_nat cycles)%nat ->
  length (firstn n (cycleIndices cycles)) = n.
Proof. intros H. rewrite length_firstn, cycleIndices_length. lia. Qed.

End Cycles.

End MtrFacts.

(** ** The statistics of a run *)

Section Statistics.
Import Mtr MtrFacts.
Local Open Scope R_scope.

Variable world : Z -> nat -> ProcOutcome.
Variable cycles : Z.
Variable progressCallback : bool.
Variable interval : Z.

Abbreviation statsAfter :=
  (Run.statsAfter world cycles progressCallback interval).




Lemma dead_record hops i h n :
  nth_error hops i = Some h -> dead h = true ->
  (n <= Z.to_nat cycles)%nat ->
  exists stat,
    nth_error (statsAfter hops n) i = Some stat /\
    Run.deadRecord stat /\
    Stat.sent stat = n /\
    ((1 <= n)%nat -> Stat.loss stat = 100) /\
    (n = 0%nat -> Stat.loss stat = 0).
Proof.
  intros Hi Hdead Hn.
  exists (Run.slotAfter world i (firstn n (cycleIndices cycles)) (init h)).
  rewrite statsAfter_nth, Hi. split; [reflexivity|].
  destruct (slotAfter_dead world i (firstn n (cycleIndices cycles))
              (init h) (init_dead h Hdead)) as [Hd Hl].
  pose proof (firstn_cycleIndices_length cycles n Hn) as Hlen.
  split; [exact Hd|]. split; [|split].
  - rewrite slotAfter_sent. simpl. exact Hlen.
  - intros H1. apply Hl. intros E. rewrite E in Hlen. simpl in Hlen. lia.
  - intros ->. reflexivity.
Qed.


Lemma statsAfter_sent hops n stat :
  (n <= Z.to_nat cycles)%nat ->
  In stat (statsAfter hops n) -> Stat.sent stat = n.
Proof.
  intros Hn Hin. apply In_nth_error in Hin. destruct Hin as [i Hi].
  rewrite statsAfter_nth in Hi.
  destruct (nth_error hops i) as [h|]; [|discriminate].
  injection Hi as <-. rewrite slotAfter_sent. simpl.
  now apply firstn_cycleIndices_length.
Qed.

Abbreviation result :=
  (Run.result world cycles progressCallback interval).

Lemma result_nth hops i :
  nth_error (result hops) i =
  option_map finalRow (nth_error (statsAfter hops (Z.to_nat cycles)) i).
Proof. rewrite result_run. apply nth_error_map. Qed.

Lemma lossPercent_range (sent received : nat) :
  (1 <= sent)%nat -> (received <= sent)%nat ->
  0 <= Spec.lossPercent sent received <= 100.
Proof.
  intros Hs Hr. unfold Spec.lossPercent.
  assert (H1 : 1 <= INR sent) by (change 1 with (INR 1); now apply le_INR).
  assert (H2 : INR received <= INR sent) by now apply le_INR.
  pose proof (pos_INR received) as H3.
  assert (Hq : 0 < / INR sent) by (apply Rinv_0_lt_compat; lra).
  assert (Hi : INR sent * / INR sent = 1) by (apply Rinv_r; lra).
  unfold Rdiv. split; nra.
Qed.




End Statistics.


(** ** Runs without cycles, dead slots, loss *)

Lemma snapshots_without_callback (world : Z -> nat -> ProcOutcome)
      (cycles interval : Z) (hops : list Hop.t) :
  Run.snapshots (Run.events world cycles false interval hops) = [].
Proof.
  unfold Run.events. rewrite MtrFacts.runMtrCycles_unfold. simpl fst.
  now apply MtrFacts.cycleLoop_no_callback.
Qed.


Lemma snapshot_in (world : Z -> nat -> ProcOutcome) (cycles interval : Z)
      (hops : list Hop.t) (p : Mtr.Progress.t) :
  In p (Run.snapshots (Run.events world cycles true interval hops)) ->
  exists n, (1 <= n <= Z.to_nat cycles)%nat /\
            p = Mtr.Progress.mk (Z.of_nat n) cycles
                  (map Mtr.snapshotRow
                     (Run.statsAfter world cycles true interval hops n)).
Proof.
  rewrite MtrFacts.snapshots_run by reflexivity. intros H.
  apply in_map_iff in H. destruct H as (n & <- & Hn).
  apply in_seq in Hn. exists n. split; [lia|reflexivity].
Qed.

(** C10.  With a cycle count of zero or less the aggregator probes
    nothing, never calls the progress callback and resolves with one row
    per hop, in the order of the hops, whose loss, average, best, worst and
    standard deviation are all 0, for dead hops too. *)
Theorem zero_cycles_result (world : Z -> nat -> ProcOutcome) (cycles : Z)
        (progressCallback : bool) (interval : Z) (hops : list Hop.t) :
  (cycles <= 0)%Z ->
  Run.events world cycles progressCallback interval hops = [] /\
  Run.result world cycles progressCallback interval hops
  = map (fun h => Mtr.Final.mk (Mtr.hostOrIp h) (Hop.ip h) 0 0 0 0 0) hops.
Proof.
  intros Hc. unfold Run.events, Run.result.
  rewrite MtrFacts.runMtrCycles_unfold.
  assert (E : Mtr.cycleIndices cycles = []).
  { unfold Mtr.cycleIndices. now replace (Z.to_nat cycles) with 0%nat by lia. }
  rewrite E. simpl. split; [reflexivity|].
  rewrite map_map. apply map_ext. intros h.
  unfold Mtr.finalRow, Mtr.init. simpl.
  now rewrite RoundFacts.toFixed1_0.
Qed.

Lemma zero_cycles_result_witness :
  Run.events Scenario.noPing 0 true 1000
    [Scenario.hopAt 1 "10.0.0.1"; Scenario.noAddress 2] = [] /\
  Run.result Scenario.noPing 0 true 1000
    [Scenario.hopAt 1 "10.0.0.1"; Scenario.noAddress 2]
  = map (fun h => Mtr.Final.mk (Mtr.hostOrIp h) (Hop.ip h) 0 0 0 0 0)
      [Scenario.hopAt 1 "10.0.0.1"; Scenario.noAddress 2].
Proof. apply zero_cycles_result. lia. Defined.

(** C5.  With a callback and a cycle count C of at least 1 the aggregator
    calls the callback exactly C times; the calls carry the cycle indices
    1, 2, ..., C in this order, and every row of the N-th snapshot, one per
    hop, reports sent = N. *)
Theorem progress_snapshots (world : Z -> nat -> ProcOutcome) (cycles : Z)
        (interval : Z) (hops : list Hop.t) :
  (1 <= cycles)%Z ->
  let snaps := Run.snapshots (Run.events world cycles true interval hops) in
  Z.of_nat (length snaps) = cycles /\
  map Mtr.Progress.cycle snaps = map Z.of_nat (seq 1 (Z.to_nat cycles)) /\
  forall N p,
    nth_error snaps N = Some p ->
    Mtr.Progress.cycle p = Z.of_nat (S N) /\
    Mtr.Progress.totalCycles p = cycles /\
    length (Mtr.Progress.hops p) = length hops /\
    forall row, In row (Mtr.Progress.hops p) -> Mtr.Row.sent row = S N.
Proof.
  intros Hc snaps. subst snaps.
  rewrite MtrFacts.snapshots_run by reflexivity.
  split; [rewrite length_map, length_seq; lia|].
  split; [now rewrite map_map|].
  intros N p Hp. rewrite nth_error_map in Hp.
  destruct (nth_error (seq 1 (Z.to_nat cycles)) N) as [k|] eqn:Ek;
    [|discriminate].
  injection Hp as <-. simpl.
  assert (HN : (N < Z.to_nat cycles)%nat).
  { assert (H : nth_error (seq 1 (Z.to_nat cycles)) N <> None)
      by now rewrite Ek.
    apply nth_error_Some in H. now rewrite length_seq in H. }
  assert (Hk : k = S N).
  { apply (nth_error_nth _ _ 0%nat) in Ek. rewrite seq_nth in Ek by lia.
    lia. }
  subst k. repeat split.
  - now rewrite length_map, MtrFacts.statsAfter_length.
  - intros row Hrow. apply in_map_iff in Hrow.
    destruct Hrow as (stat & <- & Hin). simpl.
    apply (statsAfter_sent world cycles true interval hops (S N) stat);
      [lia|exact Hin].
Qed.

Lemma progress_snapshots_witness :
  let snaps :=
    Run.snapshots (Run.events Scenario.twoCycles 2 true 1000
                     Scenario.twoHops) in
  Z.of_nat (length snaps) = 2%Z /\
  map Mtr.Progress.cycle snaps = map Z.of_nat (seq 1 (Z.to_nat 2)) /\
  forall N p,
    nth_error snaps N = Some p ->
    Mtr.Progress.cycle p = Z.of_nat (S N) /\
    Mtr.Progress.totalCycles p = 2%Z /\
    length (Mtr.Progress.hops p) = length Scenario.twoHops /\
    forall row, In row (Mtr.Progress.hops p) -> Mtr.Row.sent row = S N.
Proof. apply progress_snapshots. lia. Defined.

(** The rows a dead record is reported as. *)
Lemma dead_rows (stat : Mtr.Stat.t) :
  Run.deadRecord stat -> Mtr.Stat.loss stat = 100%R ->
  Mtr.snapshotRow stat
  = Mtr.Row.mk (Hop.hop (Mtr.Stat.src stat)) (Hop.ip (Mtr.Stat.src stat))
      100 0 0 0 0 (Mtr.Stat.sent stat) /\
  Mtr.finalRow stat
  = Mtr.Final.mk (Mtr.hostOrIp (Mtr.Stat.src stat))
      (Hop.ip (Mtr.Stat.src stat)) 100 0 0 0 0.
Proof.
  intros (_ & _ & _ & Hb & Hw & _ & Ha & Hd) Hl.
  unfold Mtr.snapshotRow, Mtr.finalRow.
  rewrite Hb, Hw, Ha, Hd, Hl.
  now rewrite RoundFacts.toFixed1_0, RoundFacts.toFixed1_100.
Qed.

(** C3, as the code has it.  A dead slot is never probed; each cycle
    nevertheless increments its [sent] counter, so that its row in the
    snapshot of cycle N reports sent = N; in every snapshot the row shows
    loss 100 and average, best, worst and standard deviation 0, and so
    does the final result when at least one cycle ran. *)
Theorem dead_slot_rows (world : Z -> nat -> ProcOutcome) (cycles : Z)
        (progressCallback : bool) (interval : Z) (hops : list Hop.t)
        (i : nat) (h : Hop.t) :
  nth_error hops i = Some h -> Mtr.dead h = true ->
  (forall c,
      ~ In (c, i)
          (Run.probes
             (Run.events world cycles progressCallback interval hops))) /\
  (forall p row,
      In p (Run.snapshots
              (Run.events world cycles progressCallback interval hops)) ->
      nth_error (Mtr.Progress.hops p) i = Some row ->
      Mtr.Row.loss row = 100%R /\ Mtr.Row.avg row = 0%R /\
      Mtr.Row.best row = 0%R /\ Mtr.Row.worst row = 0%R /\
      Mtr.Row.stdev row = 0%R /\
      Z.of_nat (Mtr.Row.sent row) = Mtr.Progress.cycle p) /\
  ((1 <= cycles)%Z ->
   exists row,
     nth_error (Run.result world cycles progressCallback interval hops) i
     = Some row /\
     Mtr.Final.loss row = 100%R /\ Mtr.Final.avg row = 0%R /\
     Mtr.Final.best row = 0%R /\ Mtr.Final.worst row = 0%R /\
     Mtr.Final.stdev row = 0%R).
Proof.
  intros Hi Hdead. split; [|split].
  - intros c Hin. apply MtrFacts.probes_run in Hin.
    destruct Hin as (h' & Hi' & Hlive). congruence.
  - intros p row Hp Hrow. destruct progressCallback.
    + apply snapshot_in in Hp. destruct Hp as (n & Hn & ->).
      simpl in Hrow. rewrite nth_error_map in Hrow.
      destruct (dead_record world cycles true interval hops i h n Hi Hdead)
        as (stat & Hs & Hd & Hsent & Hl & _); [lia|].
      rewrite Hs in Hrow. injection Hrow as <-.
      destruct (dead_rows stat Hd (Hl (proj1 Hn))) as [-> _]. simpl.
      rewrite Hsent. tauto.
    + rewrite snapshots_without_callback in Hp. destruct Hp.
  - intros Hc.
    destruct (dead_record world cycles progressCallback interval hops i h
                (Z.to_nat cycles) Hi Hdead)
      as (stat & Hs & Hd & Hsent & Hl & _); [lia|].
    exists (Mtr.finalRow stat). rewrite result_nth, Hs.
    split; [reflexivity|].
    assert (H1 : (1 <= Z.to_nat cycles)%nat) by lia.
    destruct (dead_rows stat Hd (Hl H1)) as [_ ->]. simpl. tauto.
Qed.

Lemma dead_slot_rows_witness :
  (forall c,
      ~ In (c, 1%nat)
          (Run.probes
             (Run.events Scenario.noPing 3 true 1000
                [Scenario.hopAt 1 "10.0.0.1"; Scenario.noAddress 2]))) /\
  (forall p row,
      In p (Run.snapshots
              (Run.events Scenario.noPing 3 true 1000
                 [Scenario.hopAt 1 "10.0.0.1"; Scenario.noAddress 2])) ->
      nth_error (Mtr.Progress.hops p) 1 = Some row ->
      Mtr.Row.loss row = 100%R /\ Mtr.Row.avg row = 0%R /\
      Mtr.Row.best row = 0%R /\ Mtr.Row.worst row = 0%R /\
      Mtr.Row.stdev row = 0%R /\
      Z.of_nat (Mtr.Row.sent row) = Mtr.Progress.cycle p) /\
  ((1 <= 3)%Z ->
   exists row,
     nth_error (Run.result Scenario.noPing 3 true 1000
                  [Scenario.hopAt 1 "10.0.0.1"; Scenario.noAddress 2]) 1
     = Some row /\
     Mtr.Final.loss row = 100%R /\ Mtr.Final.avg row = 0%R /\
     Mtr.Final.best row = 0%R /\ Mtr.Final.worst row = 0%R /\
     Mtr.Final.stdev row = 0%R).
Proof.
  apply (dead_slot_rows Scenario.noPing 3 true 1000
           [Scenario.hopAt 1 "10.0.0.1"; Scenario.noAddress 2] 1
           (Scenario.noAddress 2)); reflexivity.
Defined.

(** C3 as the specification words it fails twice on a single address-less
    hop: after one cycle the snapshot reports sent = 1, so the attempt
    counter was consumed, and with no cycle at all the final row shows
    loss 0, not 100. *)
Lemma dead_slot_counter_is_consumed :
  map (fun p => map Mtr.Row.sent (Mtr.Progress.hops p))
      (Run.snapshots
         (Run.events Scenario.noPing 1 true 1000 [Scenario.noAddress 1]))
  = [[1%nat]] /\
  map Mtr.Final.loss
      (Run.result Scenario.noPing 0 true 1000 [Scenario.noAddress 1])
  = [0%R] /\
  Mtr.dead (Scenario.noAddress 1) = true.
Proof.
  split; [reflexivity|]. split; [|reflexivity].
  unfold Run.result. rewrite MtrFacts.runMtrCycles_unfold.
  simpl. now rewrite RoundFacts.toFixed1_0.
Qed.



(** ** Averages and standard deviations *)



Lemma sample_timedOut : Spec.sample Scenario.timedOut = [].
Proof. reflexivity. Qed.










(** ** Further properties of the aggregator *)

Module MtrMore.
Import Mtr MtrFacts.
Local Open Scope R_scope.

(** *** Samples are never negative *)

Lemma span_fst_all (p : cu -> bool) : forall s,
  forallb p (fst (span p s)) = true.
Proof.
  induction s as [|x s IH]; simpl; [reflexivity|].
  destruct (p x) eqn:E; [|reflexivity].
  destruct (span p s) as [a b]. simpl in *. now rewrite E, IH.
Qed.

Lemma digitsValue_nonneg (ds : jsstring) :
  forallb Regex.digit ds = true -> (0 <= digitsValue ds)%Z.
Proof.
  unfold digitsValue.
  assert (H : forall ds acc, (0 <= acc)%Z ->
            forallb Regex.digit ds = true ->
            (0 <= fold_left (fun a d => 10 * a + (Z.of_N d - 48)) ds acc)%Z).
  { clear ds. induction ds as [|d ds IH]; intros acc Ha Hd;
      cbn [fold_left forallb] in *; [assumption|].
    apply andb_true_iff in Hd. destruct Hd as [Hd Hds].
    apply IH; [|assumption]. unfold Regex.digit in Hd.
    apply andb_true_iff in Hd. destruct Hd as [H1 _].
    apply N.leb_le in H1. unfold cu in *. lia. }
  intros Hd. apply (H ds 0%Z); [lia|assumption].
Qed.

Lemma parseFloat_nonneg (s : jsstring) (r : R) :
  parseFloat s = Some r -> 0 <= r.
Proof.
  unfold parseFloat.
  pose proof (span_fst_all Regex.digit s) as Hint.
  destruct (span Regex.digit s) as [int rest]. simpl in Hint.
  destruct int as [|d int]; [discriminate|].
  pose proof (digitsValue_nonneg (d :: int) Hint) as H0.
  apply IZR_le in H0.
  destruct rest as [|c rest']; [intros [= <-]; exact H0|].
  destruct (N.eq_dec c 46) as [->|Hc].
  - pose proof (span_fst_all Regex.digit rest') as Hfrac.
    destruct (span Regex.digit rest') as [frac rest'']. simpl in Hfrac.
    intros [= <-].
    pose proof (digitsValue_nonneg frac Hfrac) as H1. apply IZR_le in H1.
    assert (H2 : 0 < IZR (10 ^ Z.of_nat (length frac))).
    { apply IZR_lt. apply Z.pow_pos_nonneg; lia. }
    assert (0 <= IZR (digitsValue frac)
                 / IZR (10 ^ Z.of_nat (length frac))).
    { apply Rmult_le_pos; [assumption|].
      apply Rlt_le. now apply Rinv_0_lt_compat. }
    lra.
  - destruct c as [|p]; [intros [= <-]; exact H0|].
    repeat (destruct p as [p|p|]; try (intros [= <-]; exact H0)).
    congruence.
Qed.

(** An answered probe never reports a negative time. *)
Lemma sample_nonneg (o : ProcOutcome) (r : R) :
  In r (Spec.sample o) -> 0 <= r.
Proof.
  unfold Spec.sample.
  destruct o as [output code| |]; simpl; try tauto.
  destruct (Regex.search Ping.rttRe output) as [f|]; simpl; [|tauto].
  unfold Ping.group2.
  destruct (Regex.capture 2 (Regex.groups f)) as [t|]; [|simpl; tauto].
  destruct (parseFloat t) as [x|] eqn:E; simpl; [|tauto].
  intros [<-|[]]. now apply parseFloat_nonneg with (s := t).
Qed.

Lemma collected_nonneg (world : Z -> nat -> ProcOutcome) (slot : nat)
      (cs : list Z) :
  Forall (fun r => 0 <= r) (Spec.collected world slot cs).
Proof.
  apply Forall_forall. intros r Hr. unfold Spec.collected in Hr.
  apply in_flat_map in Hr. destruct Hr as (c & _ & Hr).
  now apply sample_nonneg in Hr.
Qed.

(** *** Rounding keeps the order *)

Lemma Int_part_le (x y : R) : x <= y -> (Int_part x <= Int_part y)%Z.
Proof.
  intros Hxy.
  destruct (base_Int_part x) as [Hx1 Hx2].
  destruct (base_Int_part y) as [Hy1 Hy2].
  apply Z.lt_succ_r. apply lt_IZR. rewrite succ_IZR. lra.
Qed.

Lemma roundTenth_le (x y : R) : x <= y -> roundTenth x <= roundTenth y.
Proof.
  intros Hxy. unfold roundTenth.
  assert (H : (Int_part (x * 10 + / 2) <= Int_part (y * 10 + / 2))%Z)
    by (apply Int_part_le; lra).
  apply IZR_le in H. lra.
Qed.

Lemma roundTenth_nonneg (x : R) : 0 <= x -> 0 <= roundTenth x.
Proof.
  intros Hx. replace 0 with (roundTenth (IZR 0 / 10)).
  - apply roundTenth_le. lra.
  - rewrite RoundFacts.roundTenth_tenths. lra.
Qed.

Lemma roundTenth_below_threshold (x : R) :
  x < IZR (10 ^ 21) -> roundTenth x <= IZR (10 ^ 21).
Proof.
  intros Hx. unfold roundTenth.
  destruct (base_Int_part (x * 10 + / 2)) as [H1 _].
  assert (H : (Int_part (x * 10 + / 2) < 10 ^ 22 + 1)%Z).
  { apply lt_IZR. rewrite plus_IZR.
    replace (IZR (10 ^ 22)) with (IZR (10 ^ 21) * 10)
      by (rewrite <- mult_IZR; reflexivity).
    lra. }
  assert (H' : (Int_part (x * 10 + / 2) <= 10 ^ 21 * 10)%Z) by lia.
  apply IZR_le in H'. rewrite mult_IZR in H'. lra.
Qed.

(** On numbers that are not negative, [parseFloat(x.toFixed(1))] is
    monotone and never negative. *)
Lemma toFixed1_le (x y : R) :
  0 <= x -> x <= y -> toFixed1 x <= toFixed1 y.
Proof.
  intros Hx Hxy. unfold toFixed1.
  rewrite (Rabs_pos_eq x Hx), (Rabs_pos_eq y) by lra.
  destruct (Rle_dec (IZR (10 ^ 21)) x) as [Hbx|Hbx];
    destruct (Rle_dec (IZR (10 ^ 21)) y) as [Hby|Hby]; try lra.
  - destruct (Rlt_dec x 0); [lra|].
    pose proof (roundTenth_below_threshold x). lra.
  - destruct (Rlt_dec x 0); [lra|]. destruct (Rlt_dec y 0); [lra|].
    now apply roundTenth_le.
Qed.

Lemma toFixed1_nonneg (x : R) : 0 <= x -> 0 <= toFixed1 x.
Proof.
  intros Hx. rewrite <- RoundFacts.toFixed1_0. apply toFixed1_le; lra.
Qed.

(** *** Best and worst *)

Lemma init_extremes (h : Hop.t) : Trace.extremes (init h).
Proof.
  unfold Trace.extremes, init. simpl.
  split; [reflexivity|]. split; [constructor|now left].
Qed.

Lemma record_extremes (res : Ping.result) (stat : Stat.t) :
  Trace.extremes stat -> Trace.extremes (record res stat).
Proof.
  intros (Hb & Hw & Hw'). unfold record.
  destruct (Ping.alive res); [|now repeat split].
  destruct (Ping.time res) as [t|]; [|now repeat split].
  unfold Trace.extremes. simpl. split; [|split].
  - destruct (Stat.best stat) as [b|]; simpl.
    + destruct Hb as [Hin Hall].
      destruct (Rlt_dec t b) as [Hlt|Hge].
      * split; [apply in_or_app; right; now left|].
        apply Forall_app. split; [|constructor; [lra|constructor]].
        rewrite Forall_forall in *. intros r Hr. apply Hall in Hr. lra.
      * split; [apply in_or_app; now left|].
        apply Forall_app. split; [assumption|].
        constructor; [lra|constructor].
    + rewrite Hb. simpl. split; [now left|].
      constructor; [lra|constructor].
  - apply Forall_app.
    destruct (Rlt_dec (Stat.worst stat) t) as [Hlt|Hge].
    + split; [|constructor; [lra|constructor]].
      rewrite Forall_forall in *. intros r Hr. apply Hw in Hr. lra.
    + split; [assumption|]. constructor; [lra|constructor].
  - destruct (Rlt_dec (Stat.worst stat) t) as [Hlt|Hge].
    + right. apply in_or_app. right. now left.
    + destruct Hw' as [H0|Hin]; [now left|].
      right. apply in_or_app. now left.
Qed.

Lemma derive_extremes (stat : Stat.t) :
  Trace.extremes stat -> Trace.extremes (derive stat).
Proof.
  unfold Trace.extremes.
  destruct (derive_fields stat) as (_ & _ & _ & _ & -> & _ & -> & ->).
  tauto.
Qed.

Lemma hopTask_extremes (cycle : Z) (slot : nat) (o : ProcOutcome)
      (stat : Stat.t) :
  Trace.extremes stat -> Trace.extremes (snd (hopTask cycle slot o stat)).
Proof.
  intros H. unfold hopTask.
  destruct (Stat.isDead stat); simpl; [exact H|].
  apply derive_extremes.
  destruct (executePing o) as [res|]; [|exact H].
  now apply record_extremes.
Qed.

Lemma slotAfter_extremes (world : Z -> nat -> ProcOutcome) (i : nat) :
  forall cs stat,
    Trace.extremes stat -> Trace.extremes (Run.slotAfter world i cs stat).
Proof.
  induction cs as [|c cs IH]; intros stat H; simpl; [exact H|].
  apply IH. now apply hopTask_extremes.
Qed.

(** The mean of numbers between two bounds lies between them. *)
Lemma mean_between (rs : list R) (b w : R) :
  rs <> [] -> Forall (fun r => b <= r <= w) rs ->
  b <= Spec.mean rs <= w.
Proof.
  intros Hne Hall.
  assert (H : INR (length rs) * b <= Spec.total rs <= INR (length rs) * w).
  { clear Hne. induction Hall as [|r rs Hr _ IH].
    - simpl. lra.
    - change (length (r :: rs)) with (S (length rs)). rewrite S_INR.
      unfold Spec.total in *. simpl. lra. }
  assert (Hlen : 0 < INR (length rs)).
  { apply lt_0_INR. destruct rs; [congruence|simpl; lia]. }
  unfold Spec.mean.
  assert (Hq : 0 < / INR (length rs)) by now apply Rinv_0_lt_compat.
  assert (Hi : INR (length rs) * / INR (length rs) = 1)
    by (apply Rinv_r; lra).
  destruct H as [H1 H2].
  apply (Rmult_le_compat_r (/ INR (length rs))) in H1; [|lra].
  apply (Rmult_le_compat_r (/ INR (length rs))) in H2; [|lra].
  replace (INR (length rs) * b * / INR (length rs)) with b in H1
    by (field; lra).
  replace (INR (length rs) * w * / INR (length rs)) with w in H2
    by (field; lra).
  unfold Rdiv. split; assumption.
Qed.

End MtrMore.

(** The record of a live slot, with everything known about it. *)
Lemma live_slot (world : Z -> nat -> ProcOutcome) (cycles : Z)
      (progressCallback : bool) (interval : Z) (hops : list Hop.t)
      (i : nat) (h : Hop.t) (n : nat) :
  nth_error hops i = Some h -> Mtr.dead h = false ->
  (n <= Z.to_nat cycles)%nat ->
  exists stat,
    nth_error (Run.statsAfter world cycles progressCallback interval hops n) i
    = Some stat /\
    Mtr.Stat.src stat = h /\
    Mtr.Stat.sent stat = n /\
    Mtr.Stat.rtts stat
    = Spec.collected world i (firstn n (Mtr.cycleIndices cycles)) /\
    Run.consistent stat /\ Trace.extremes stat.
Proof.
  intros Hi Hlive Hn.
  exists (Run.slotAfter world i (firstn n (Mtr.cycleIndices cycles))
            (Mtr.init h)).
  rewrite MtrFacts.statsAfter_nth, Hi. split; [reflexivity|].
  destruct (MtrFacts.slotAfter_live world i h
              (firstn n (Mtr.cycleIndices cycles)) Hlive) as [Hc Hr].
  split; [now rewrite MtrFacts.slotAfter_src|].
  split.
  { rewrite MtrFacts.slotAfter_sent. simpl.
    now apply MtrFacts.firstn_cycleIndices_length. }
  split; [exact Hr|]. split; [exact Hc|].
  apply MtrMore.slotAfter_extremes. apply MtrMore.init_extremes.
Qed.





(** *** The events of a run *)

Module TraceFacts.
Import Mtr MtrFacts.

Lemma delays_app evs1 evs2 :
  Trace.delays (evs1 ++ evs2) = Trace.delays evs1 ++ Trace.delays evs2.
Proof.
  induction evs1 as [|[c i a|p|ms] evs1 IH]; simpl; auto. now rewrite IH.
Qed.

Lemma pingsFrom_delays cycle : forall hops slot,
  Trace.delays (Trace.pingsFrom cycle slot hops) = [].
Proof.
  induction hops as [|h hops IH]; intros slot; simpl; [reflexivity|].
  rewrite delays_app, IH. now destruct (dead h).
Qed.

Lemma pingsFrom_snapshots cycle : forall hops slot,
  Run.snapshots (Trace.pingsFrom cycle slot hops) = [].
Proof.
  induction hops as [|h hops IH]; intros slot; simpl; [reflexivity|].
  rewrite snapshots_app, IH. now destruct (dead h).
Qed.

Lemma flat_map_ext_in (A B : Type) (f g : A -> list B) (l : list A) :
  (forall a, In a l -> f a = g a) -> flat_map f l = flat_map g l.
Proof.
  induction l as [|a l IH]; intros H; simpl; [reflexivity|].
  rewrite (H a (or_introl eq_refl)). f_equal. apply IH.
  intros b Hb. apply H. now right.
Qed.

(** The liveness flag of a record is the one of its hop. *)
Definition flagged (stat : Stat.t) : Prop :=
  Stat.isDead stat = dead (Stat.src stat).

Section Cycles.
Variable world : Z -> nat -> ProcOutcome.
Variable cycles : Z.
Variable progressCallback : bool.
Variable interval : Z.

Abbreviation runTasks := (Mtr.runTasks world).
Abbreviation cycleLoop :=
  (Mtr.cycleLoop world cycles progressCallback interval).

Lemma runTasks_src cycle : forall hopStats slot,
  map Stat.src (snd (runTasks cycle slot hopStats)) = map Stat.src hopStats.
Proof.
  induction hopStats as [|stat rest IH]; intros slot; [reflexivity|].
  rewrite runTasks_cons. simpl. rewrite IH. unfold Run.taskAt.
  now rewrite hopTask_src.
Qed.

Lemma runTasks_flagged cycle : forall hopStats slot,
  Forall flagged hopStats ->
  Forall flagged (snd (runTasks cycle slot hopStats)).
Proof.
  induction hopStats as [|stat rest IH]; intros slot H; [constructor|].
  inversion H as [|? ? Hs Hrest]; subst.
  rewrite runTasks_cons. simpl. constructor; [|now apply IH].
  unfold flagged, Run.taskAt in *. now rewrite hopTask_isDead, hopTask_src.
Qed.

Lemma runTasks_events cycle : forall hopStats slot,
  Forall flagged hopStats ->
  fst (runTasks cycle slot hopStats)
  = Trace.pingsFrom cycle slot (map Stat.src hopStats).
Proof.
  induction hopStats as [|stat rest IH]; intros slot H; [reflexivity|].
  inversion H as [|? ? Hs Hrest]; subst.
  rewrite runTasks_cons. simpl. rewrite (IH _ Hrest), hopTask_events.
  unfold flagged in Hs. rewrite Hs.
  now destruct (dead (Stat.src stat)).
Qed.

Lemma cycleLoop_src : forall cs hopStats,
  map Stat.src (snd (cycleLoop cs hopStats)) = map Stat.src hopStats.
Proof.
  induction cs as [|c cs IH]; intros hopStats; [reflexivity|].
  rewrite cycleLoop_cons. simpl. now rewrite IH, runTasks_src.
Qed.

(** The events of the loop, cycle by cycle. *)
Lemma cycleLoop_events : forall cs hopStats,
  Forall flagged hopStats ->
  fst (cycleLoop cs hopStats) =
  flat_map
    (fun k =>
       Trace.pingsFrom (nth (k - 1) cs 0%Z) 0 (map Stat.src hopStats)
       ++ (if progressCallback
           then [EvProgress
                   (Progress.mk (nth (k - 1) cs 0%Z) cycles
                      (map snapshotRow
                         (snd (cycleLoop (firstn k cs) hopStats))))]
           else [])
       ++ (if (nth (k - 1) cs 0 <? cycles)%Z then [EvDelay interval]
           else []))
    (seq 1 (length cs)).
Proof.
  induction cs as [|c cs IH]; intros hopStats Hf; [reflexivity|].
  rewrite cycleLoop_cons. cbv zeta. simpl fst.
  change (length (c :: cs)) with (S (length cs)).
  change (seq 1 (S (length cs))) with (1%nat :: seq 2 (length cs)).
  rewrite <- (seq_shift (length cs) 1).
  cbn [flat_map]. rewrite flat_map_concat_map, map_map,
    <- flat_map_concat_map.
  rewrite (runTasks_events c hopStats 0 Hf).
  rewrite (IH _ (runTasks_flagged c hopStats 0 Hf)), runTasks_src.
  change (firstn 1 (c :: cs)) with [c].
  rewrite <- !app_assoc. f_equal. f_equal.
  { now rewrite cycleLoop_cons. }
  f_equal. apply flat_map_ext_in. intros k Hk. apply in_seq in Hk.
  destruct k as [|k]; [lia|].
  change (firstn (S (S k)) (c :: cs)) with (c :: firstn (S k) cs).
  rewrite cycleLoop_cons. simpl. now rewrite Nat.sub_0_r.
Qed.

End Cycles.

Lemma init_flagged (hops : list Hop.t) : Forall flagged (map init hops).
Proof.
  apply Forall_forall. intros s Hs. apply in_map_iff in Hs.
  destruct Hs as (h & <- & _). reflexivity.
Qed.

Lemma init_src (hops : list Hop.t) : map Stat.src (map init hops) = hops.
Proof. rewrite map_map. simpl. apply map_id. Qed.

Lemma flat_map_singleton (A B : Type) (b : B) (l : list A) :
  flat_map (fun _ => [b]) l = repeat b (length l).
Proof. induction l as [|a l IH]; simpl; [reflexivity|now rewrite IH]. Qed.

Lemma delays_flat_map (A : Type) (f : A -> list event) : forall l,
  Trace.delays (flat_map f l) = flat_map (fun a => Trace.delays (f a)) l.
Proof.
  induction l as [|a l IH]; simpl; [reflexivity|].
  now rewrite delays_app, IH.
Qed.

Lemma probes_flat_map (A : Type) (f : A -> list event) : forall l,
  Run.probes (flat_map f l) = flat_map (fun a => Run.probes (f a)) l.
Proof.
  induction l as [|a l IH]; simpl; [reflexivity|].
  now rewrite probes_app, IH.
Qed.

Lemma cycleEvents_delays cycles cb interval hops after k :
  Trace.delays (Trace.cycleEvents cycles cb interval hops after k)
  = if (Z.of_nat k <? cycles)%Z then [interval] else [].
Proof.
  unfold Trace.cycleEvents. rewrite !delays_app, pingsFrom_delays.
  destruct cb; destruct (Z.of_nat k <? cycles)%Z; reflexivity.
Qed.

Lemma cycleEvents_probes cycles cb interval hops after k :
  Run.probes (Trace.cycleEvents cycles cb interval hops after k)
  = Run.probes (Trace.pingsFrom (Z.of_nat k) 0 hops).
Proof.
  unfold Trace.cycleEvents. rewrite !probes_app.
  destruct cb; destruct (Z.of_nat k <? cycles)%Z; simpl;
    now rewrite app_nil_r.
Qed.

End TraceFacts.

(** The events of a run, cycle by cycle. *)
Lemma events_cycles (world : Z -> nat -> ProcOutcome) (cycles : Z)
      (progressCallback : bool) (interval : Z) (hops : list Hop.t) :
  Run.events world cycles progressCallback interval hops
  = flat_map
      (Trace.cycleEvents cycles progressCallback interval hops
         (Run.statsAfter world cycles progressCallback interval hops))
      (seq 1 (Z.to_nat cycles)).
Proof.
  unfold Run.events. rewrite MtrFacts.runMtrCycles_unfold. simpl fst.
  rewrite TraceFacts.cycleLoop_events by apply TraceFacts.init_flagged.
  rewrite TraceFacts.init_src, MtrFacts.cycleIndices_length.
  apply TraceFacts.flat_map_ext_in. intros k Hk. apply in_seq in Hk.
  rewrite MtrFacts.cycleIndices_nth by lia. reflexivity.
Qed.

(** The records after a cycle do not depend on the callback or on the
    waiting time. *)
Lemma statsAfter_indep (world : Z -> nat -> ProcOutcome) (cycles : Z)
      (cb cb' : bool) (interval interval' : Z) (hops : list Hop.t)
      (n : nat) :
  Run.statsAfter world cycles cb interval hops n
  = Run.statsAfter world cycles cb' interval' hops n.
Proof.
  apply nth_error_ext. intros i. now rewrite !MtrFacts.statsAfter_nth.
Qed.

Lemma statsAfter_src (world : Z -> nat -> ProcOutcome) (cycles : Z)
      (progressCallback : bool) (interval : Z) (hops : list Hop.t)
      (n : nat) :
  map Mtr.Stat.src
    (Run.statsAfter world cycles progressCallback interval hops n) = hops.
Proof.
  unfold Run.statsAfter.
  now rewrite TraceFacts.cycleLoop_src, TraceFacts.init_src.
Qed.

(** Every message handed to the callback is the snapshot of a cycle. *)
Lemma snapshot_of_cycle (world : Z -> nat -> ProcOutcome) (cycles : Z)
      (progressCallback : bool) (interval : Z) (hops : list Hop.t)
      (p : Mtr.Progress.t) :
  In p (Run.snapshots
          (Run.events world cycles progressCallback interval hops)) ->
  exists n, (1 <= n <= Z.to_nat cycles)%nat /\
            p = Mtr.Progress.mk (Z.of_nat n) cycles
                  (map Mtr.snapshotRow
                     (Run.statsAfter world cycles progressCallback interval
                        hops n)).
Proof.
  destruct progressCallback.
  - apply snapshot_in.
  - rewrite snapshots_without_callback. intros [].
Qed.

(** X3.  A run is its cycles in order; cycle [k] first starts one probe for
    every hop with a usable address, in the order of the hops, then calls
    the callback, if there is one, with the records that cycle left, then
    waits [interval], unless it was the last cycle.  So a run of [C >= 1]
    cycles waits exactly [C - 1] times. *)
Theorem run_events (world : Z -> nat -> ProcOutcome) (cycles : Z)
        (progressCallback : bool) (interval : Z) (hops : list Hop.t) :
  Run.events world cycles progressCallback interval hops
  = flat_map
      (Trace.cycleEvents cycles progressCallback interval hops
         (Run.statsAfter world cycles progressCallback interval hops))
      (seq 1 (Z.to_nat cycles)) /\
  Trace.delays (Run.events world cycles progressCallback interval hops)
  = repeat interval (Z.to_nat cycles - 1).
Proof.
  pose proof (events_cycles world cycles progressCallback interval hops)
    as E.
  split; [exact E|]. rewrite E, TraceFacts.delays_flat_map.
  rewrite (TraceFacts.flat_map_ext_in _ _ _ _ _
             (fun k _ => TraceFacts.cycleEvents_delays cycles
                           progressCallback interval hops _ k)).
  destruct (Z.to_nat cycles) as [|n] eqn:En; [reflexivity|].
  rewrite seq_S, flat_map_app. cbn [flat_map].
  replace (Z.of_nat (1 + n) <? cycles)%Z with false
    by (symmetry; apply Z.ltb_ge; lia).
  rewrite app_nil_r. replace (S n - 1)%nat with n by lia.
  rewrite (TraceFacts.flat_map_ext_in _ _ _ (fun _ => [interval])).
  - now rewrite TraceFacts.flat_map_singleton, length_seq.
  - intros k Hk. apply in_seq in Hk.
    replace (Z.of_nat k <? cycles)%Z with true; [reflexivity|].
    symmetry. apply Z.ltb_lt. lia.
Qed.

(** The rows carry the addresses of the hops, in order. *)
Lemma result_ips (world : Z -> nat -> ProcOutcome) (cycles : Z)
      (progressCallback : bool) (interval : Z) (hops : list Hop.t) :
  map Mtr.Final.ip (Run.result world cycles progressCallback interval hops)
  = map Hop.ip hops.
Proof.
  rewrite MtrFacts.result_run.
  rewrite <- (statsAfter_src world cycles progressCallback interval hops
                (Z.to_nat cycles)) at 2.
  rewrite !map_map. apply map_ext. reflexivity.
Qed.

(** [stat.host || stat.ip]: the host name when there is one that is not
    empty, the address otherwise. *)
Lemma hostOrIp_cases (h : Hop.t) :
  (forall c s, Hop.host h = Some (c :: s) ->
               Mtr.hostOrIp h = Some (c :: s)) /\
  (Hop.host h = None \/ Hop.host h = Some [] ->
   Mtr.hostOrIp h = Hop.ip h).
Proof.
  unfold Mtr.hostOrIp. split.
  - intros c s ->. reflexivity.
  - intros [-> | ->]; reflexivity.
Qed.

(** X4.  The rows follow the hops: the final result and every snapshot
    hold one row for each hop passed in, in the same order, with the hop's
    address, and as [host] the hop's host name or, when it has none or an
    empty one, its address; a snapshot's rows carry the hops' numbers. *)
Theorem rows_follow_hops (world : Z -> nat -> ProcOutcome) (cycles : Z)
        (progressCallback : bool) (interval : Z) (hops : list Hop.t) :
  map Mtr.Final.ip (Run.result world cycles progressCallback interval hops)
  = map Hop.ip hops /\
  map Mtr.Final.host (Run.result world cycles progressCallback interval hops)
  = map Mtr.hostOrIp hops /\
  (forall h,
      (forall c s, Hop.host h = Some (c :: s) ->
                   Mtr.hostOrIp h = Some (c :: s)) /\
      (Hop.host h = None \/ Hop.host h = Some [] ->
       Mtr.hostOrIp h = Hop.ip h)) /\
  forall p,
    In p (Run.snapshots
            (Run.events world cycles progressCallback interval hops)) ->
    Mtr.Progress.totalCycles p = cycles /\
    map Mtr.Row.hop (Mtr.Progress.hops p) = map Hop.hop hops /\
    map Mtr.Row.ip (Mtr.Progress.hops p) = map Hop.ip hops.
Proof.
  rewrite MtrFacts.result_run.
  pose proof (statsAfter_src world cycles progressCallback interval hops)
    as Hsrc.
  split; [|split; [|split]].
  - rewrite <- (Hsrc (Z.to_nat cycles)) at 2. rewrite !map_map.
    apply map_ext. reflexivity.
  - rewrite <- (Hsrc (Z.to_nat cycles)) at 2. rewrite !map_map.
    apply map_ext. reflexivity.
  - exact hostOrIp_cases.
  - intros p Hp. apply snapshot_of_cycle in Hp.
    destruct Hp as (n & _ & ->). simpl. split; [reflexivity|].
    split.
    + rewrite <- (Hsrc n) at 2. rewrite !map_map.
      apply map_ext. reflexivity.
    + rewrite <- (Hsrc n) at 2. rewrite !map_map.
      apply map_ext. reflexivity.
Qed.

(** X5.  Neither the callback nor the waiting time changes what is
    measured: the final result, the probes started and the snapshots are
    the same for every choice of them. *)
Theorem callback_and_interval_do_not_matter
        (world : Z -> nat -> ProcOutcome) (cycles : Z)
        (cb cb' : bool) (interval interval' : Z) (hops : list Hop.t) :
  Run.result world cycles cb interval hops
  = Run.result world cycles cb' interval' hops /\
  Run.probes (Run.events world cycles cb interval hops)
  = Run.probes (Run.events world cycles cb' interval' hops) /\
  Run.snapshots (Run.events world cycles true interval hops)
  = Run.snapshots (Run.events world cycles true interval' hops).
Proof.
  split; [|split].
  - rewrite !MtrFacts.result_run.
    now rewrite (statsAfter_indep world cycles cb cb' interval interval').
  - rewrite !events_cycles, !TraceFacts.probes_flat_map.
    apply flat_map_ext. intros k.
    now rewrite !TraceFacts.cycleEvents_probes.
  - rewrite !MtrFacts.snapshots_run by reflexivity.
    apply map_ext. intros k.
    now rewrite (statsAfter_indep world cycles true true interval interval').
Qed.

(** The numbers of a record after any number of cycles. *)
Lemma stat_in_range (world : Z -> nat -> ProcOutcome) (cycles : Z)
      (progressCallback : bool) (interval : Z) (hops : list Hop.t)
      (n i : nat) (stat : Mtr.Stat.t) :
  (n <= Z.to_nat cycles)%nat ->
  nth_error (Run.statsAfter world cycles progressCallback interval hops n) i
  = Some stat ->
  (0 <= Mtr.Stat.loss stat <= 100)%R /\
  (0 <= Mtr.Stat.avg stat)%R /\
  (0 <= Mtr.Stat.worst stat)%R /\
  (0 <= Mtr.Stat.stdev stat)%R /\
  match Mtr.Stat.best stat with
  | Mtr.Finite b => (0 <= b)%R
  | Mtr.Infinity => True
  end.
Proof.
  intros Hn Hs.
  destruct (nth_error hops i) as [h|] eqn:Hi.
  2:{ rewrite MtrFacts.statsAfter_nth, Hi in Hs. discriminate. }
  destruct (Mtr.dead h) eqn:Hd.
  - destruct (dead_record world cycles progressCallback interval hops i h n
                Hi Hd Hn)
      as (stat' & Hs' & (_ & _ & _ & Hb & Hw & _ & Ha & Hsd) & _ & H1 & H0).
    rewrite Hs in Hs'. injection Hs' as <-.
    rewrite Hb, Hw, Ha, Hsd.
    assert (Hl : Mtr.Stat.loss stat = 0%R \/ Mtr.Stat.loss stat = 100%R).
    { destruct n as [|n']; [left; now apply H0|right; apply H1; lia]. }
    repeat split; try lra; destruct Hl as [-> | ->]; lra.
  - destruct (live_slot world cycles progressCallback interval hops i h n
                Hi Hd Hn)
      as (stat' & Hs' & _ & Hsent & Hr & (Hrec & _ & Hle & H0 & Hpos) & Hext).
    rewrite Hs in Hs'. injection Hs' as <-.
    pose proof (MtrMore.collected_nonneg world i
                  (firstn n (Mtr.cycleIndices cycles))) as Hnn.
    rewrite <- Hr in Hnn. clear Hr.
    destruct Hext as (Hb & Hw & Hw').
    rewrite Forall_forall in Hnn.
    assert (Hworst : (0 <= Mtr.Stat.worst stat)%R).
    { destruct Hw' as [-> | Hin]; [lra|now apply Hnn]. }
    assert (Hbest : match Mtr.Stat.best stat with
                    | Mtr.Finite b => (0 <= b)%R
                    | Mtr.Infinity => True
                    end).
    { destruct (Mtr.Stat.best stat) as [b|]; [|exact I].
      apply Hnn. apply Hb. }
    destruct (Mtr.Stat.received stat) as [|r] eqn:Er.
    + destruct (H0 eq_refl) as (-> & -> & ->).
      repeat split; try lra; try assumption;
        destruct (Mtr.Stat.sent stat =? 0)%nat; lra.
    + destruct (Hpos (Nat.lt_0_succ r)) as (Ha & Hsd & Hl).
      assert (Hne : Mtr.Stat.rtts stat <> []).
      { intros E. rewrite E in Hrec. discriminate. }
      assert (Hm : (0 <= Spec.mean (Mtr.Stat.rtts stat)
                    <= Mtr.Stat.worst stat)%R).
      { apply MtrMore.mean_between; [assumption|].
        rewrite Forall_forall in *. intros x Hx. split; auto. }
      split.
      { rewrite Hl.
        replace ((INR (Mtr.Stat.sent stat) - INR (S r))
                 / INR (Mtr.Stat.sent stat) * 100)%R
          with (Spec.lossPercent (Mtr.Stat.sent stat) (S r)).
        - apply lossPercent_range; lia.
        - unfold Spec.lossPercent.
          assert (1 <= INR (Mtr.Stat.sent stat))%R
            by (change 1%R with (INR 1); apply le_INR; lia).
          field. lra. }
      split; [rewrite Ha; lra|]. split; [assumption|].
      split; [|assumption].
      rewrite Hsd. unfold Mtr.calculateStDev.
      destruct (length (Mtr.Stat.rtts stat) <? 2)%nat; [lra|apply sqrt_pos].
Qed.

Lemma rows_in_range (stat : Mtr.Stat.t) :
  (0 <= Mtr.Stat.loss stat <= 100)%R /\
  (0 <= Mtr.Stat.avg stat)%R /\
  (0 <= Mtr.Stat.worst stat)%R /\
  (0 <= Mtr.Stat.stdev stat)%R /\
  match Mtr.Stat.best stat with
  | Mtr.Finite b => (0 <= b)%R
  | Mtr.Infinity => True
  end ->
  Trace.inRange (Mtr.Row.loss (Mtr.snapshotRow stat))
    (Mtr.Row.avg (Mtr.snapshotRow stat))
    (Mtr.Row.best (Mtr.snapshotRow stat))
    (Mtr.Row.worst (Mtr.snapshotRow stat))
    (Mtr.Row.stdev (Mtr.snapshotRow stat)) /\
  Trace.inRange (Mtr.Final.loss (Mtr.finalRow stat))
    (Mtr.Final.avg (Mtr.finalRow stat))
    (Mtr.Final.best (Mtr.finalRow stat))
    (Mtr.Final.worst (Mtr.finalRow stat))
    (Mtr.Final.stdev (Mtr.finalRow stat)).
Proof.
  intros (Hl & Ha & Hw & Hsd & Hb). unfold Trace.inRange. simpl.
  assert (Hbest : (0 <= match Mtr.Stat.best stat with
                        | Mtr.Finite b => toFixed1 b
                        | Mtr.Infinity => 0
                        end)%R).
  { destruct (Mtr.Stat.best stat);
      [now apply MtrMore.toFixed1_nonneg|lra]. }
  pose proof (RoundFacts.toFixed1_range _ Hl).
  pose proof (MtrMore.toFixed1_nonneg _ Ha).
  pose proof (MtrMore.toFixed1_nonneg _ Hw).
  pose proof (MtrMore.toFixed1_nonneg _ Hsd).
  tauto.
Qed.

(** X6.  Every number reported is in range, for live and dead hops alike:
    in every row of the final result and of every snapshot the loss lies
    between 0 and 100 and the average, best, worst and standard deviation
    are not negative. *)
Theorem reported_numbers_in_range (world : Z -> nat -> ProcOutcome)
        (cycles : Z) (progressCallback : bool) (interval : Z)
        (hops : list Hop.t) :
  Forall (fun r => Trace.inRange (Mtr.Final.loss r) (Mtr.Final.avg r)
                     (Mtr.Final.best r) (Mtr.Final.worst r)
                     (Mtr.Final.stdev r))
         (Run.result world cycles progressCallback interval hops) /\
  forall p,
    In p (Run.snapshots
            (Run.events world cycles progressCallback interval hops)) ->
    Forall (fun r => Trace.inRange (Mtr.Row.loss r) (Mtr.Row.avg r)
                       (Mtr.Row.best r) (Mtr.Row.worst r) (Mtr.Row.stdev r))
           (Mtr.Progress.hops p).
Proof.
  split.
  - rewrite MtrFacts.result_run. apply Forall_forall. intros r Hr.
    apply in_map_iff in Hr. destruct Hr as (stat & <- & Hin).
    apply In_nth_error in Hin. destruct Hin as [i Hi].
    apply rows_in_range.
    apply (stat_in_range world cycles progressCallback interval hops
             (Z.to_nat cycles) i stat); [lia|exact Hi].
  - intros p Hp. apply snapshot_of_cycle in Hp.
    destruct Hp as (n & Hn & ->). simpl.
    apply Forall_forall. intros r Hr.
    apply in_map_iff in Hr. destruct Hr as (stat & <- & Hin).
    apply In_nth_error in Hin. destruct Hin as [i Hi].
    apply rows_in_range.
    apply (stat_in_range world cycles progressCallback interval hops
             n i stat); [lia|exact Hi].
Qed.

Lemma firstn_S_cycleIndices (cycles : Z) (n : nat) :
  (S n <= Z.to_nat cycles)%nat ->
  firstn (S n) (Mtr.cycleIndices cycles)
  = firstn n (Mtr.cycleIndices cycles) ++ [Z.of_nat (S n)].
Proof.
  intros Hn. unfold Mtr.cycleIndices.
  replace (Z.to_nat cycles) with (S n + (Z.to_nat cycles - S n))%nat by lia.
  rewrite seq_app, map_app.
  rewrite firstn_app, firstn_all2 by (rewrite length_map, length_seq; lia).
  rewrite length_map, length_seq.
  replace (S n - S n)%nat with 0%nat by lia. rewrite firstn_0, app_nil_r.
  rewrite firstn_app, length_map, length_seq.
  replace (n - S n)%nat with 0%nat by lia. rewrite firstn_0, app_nil_r.
  rewrite seq_S, map_app, firstn_app, length_map, length_seq.
  replace (n - n)%nat with 0%nat by lia. rewrite firstn_0, app_nil_r.
  rewrite firstn_all2 by (rewrite length_map, length_seq; lia).
  reflexivity.
Qed.

Lemma sample_length (o : ProcOutcome) : (length (Spec.sample o) <= 1)%nat.
Proof.
  unfold Spec.sample. destruct (executePing o) as [res|]; simpl; [|lia].
  destruct (Ping.alive res); simpl; [|lia].
  destruct (Ping.time res); simpl; lia.
Qed.

(** X7.  From one cycle to the next the record of a live hop only grows:
    [sent] goes up by one, the samples gain at most one, the one of the
    new probe; [worst] does not fall, and [best], once set, does not rise.
    The snapshots show it: [sent] one higher, [worst] not lower. *)
Theorem records_grow (world : Z -> nat -> ProcOutcome) (cycles : Z)
        (progressCallback : bool) (interval : Z) (hops : list Hop.t)
        (i : nat) (h : Hop.t) (n : nat) :
  nth_error hops i = Some h -> Mtr.dead h = false ->
  (S n <= Z.to_nat cycles)%nat ->
  exists s1 s2,
    nth_error (Run.statsAfter world cycles progressCallback interval hops n) i
    = Some s1 /\
    nth_error
      (Run.statsAfter world cycles progressCallback interval hops (S n)) i
    = Some s2 /\
    Mtr.Stat.sent s2 = S (Mtr.Stat.sent s1) /\
    Mtr.Stat.rtts s2
    = Mtr.Stat.rtts s1 ++ Spec.sample (world (Z.of_nat (S n)) i) /\
    (Mtr.Stat.received s1 <= Mtr.Stat.received s2
     <= S (Mtr.Stat.received s1))%nat /\
    (Mtr.Stat.worst s1 <= Mtr.Stat.worst s2)%R /\
    (forall b, Mtr.Stat.best s1 = Mtr.Finite b ->
               exists b', Mtr.Stat.best s2 = Mtr.Finite b' /\ (b' <= b)%R) /\
    Mtr.Row.sent (Mtr.snapshotRow s2) = S (Mtr.Row.sent (Mtr.snapshotRow s1)) /\
    (Mtr.Row.worst (Mtr.snapshotRow s1)
     <= Mtr.Row.worst (Mtr.snapshotRow s2))%R.
Proof.
  intros Hi Hlive Hn.
  destruct (live_slot world cycles progressCallback interval hops i h n
              Hi Hlive)
    as (s1 & Hs1 & _ & Hsent1 & Hr1 & (Hrec1 & _) & (Hb1 & Hw1 & Hw1'));
    [lia|].
  destruct (live_slot world cycles progressCallback interval hops i h (S n)
              Hi Hlive Hn)
    as (s2 & Hs2 & _ & Hsent2 & Hr2 & (Hrec2 & _) & (Hb2 & Hw2 & Hw2')).
  pose proof (MtrMore.collected_nonneg world i
                (firstn (S n) (Mtr.cycleIndices cycles))) as Hnn.
  rewrite <- Hr2 in Hnn.
  rewrite (firstn_S_cycleIndices cycles n Hn) in Hr2.
  unfold Spec.collected in Hr2. rewrite flat_map_app in Hr2.
  fold (Spec.collected world i (firstn n (Mtr.cycleIndices cycles))) in Hr2.
  rewrite <- Hr1 in Hr2. cbn [flat_map] in Hr2.
  rewrite app_nil_r in Hr2.
  pose proof (sample_length (world (Z.of_nat (S n)) i)) as Hlen.
  rewrite Forall_forall in Hnn, Hw2.
  assert (Hworst : (Mtr.Stat.worst s1 <= Mtr.Stat.worst s2)%R).
  { destruct Hw1' as [E|Hin].
    - rewrite E. destruct Hw2' as [-> | Hin2]; [lra|now apply Hnn].
    - apply Hw2. rewrite Hr2. apply in_or_app. now left. }
  assert (Hw0 : (0 <= Mtr.Stat.worst s1)%R).
  { destruct Hw1' as [-> | Hin]; [lra|].
    apply Hnn. rewrite Hr2. apply in_or_app. now left. }
  exists s1, s2. split; [exact Hs1|]. split; [exact Hs2|].
  split; [lia|]. split; [exact Hr2|].
  split.
  { rewrite Hrec1, Hrec2, Hr2, length_app. lia. }
  split; [exact Hworst|].
  split.
  { intros b Eb. rewrite Eb in Hb1. destruct Hb1 as [Hin _].
    assert (Hin2 : In b (Mtr.Stat.rtts s2))
      by (rewrite Hr2; apply in_or_app; now left).
    destruct (Mtr.Stat.best s2) as [b'|].
    - exists b'. split; [reflexivity|]. destruct Hb2 as [_ Hall].
      rewrite Forall_forall in Hall. now apply Hall.
    - rewrite Hb2 in Hin2. destruct Hin2. }
  split; [simpl; lia|].
  simpl. now apply MtrMore.toFixed1_le.
Qed.

Lemma records_grow_witness :
  exists s1 s2,
    nth_error (Run.statsAfter Scenario.twoCycles 2 true 1000
                 Scenario.twoHops 1) 1
    = Some s1 /\
    nth_error (Run.statsAfter Scenario.twoCycles 2 true 1000
                 Scenario.twoHops 2) 1
    = Some s2 /\
    Mtr.Stat.sent s2 = S (Mtr.Stat.sent s1) /\
    Mtr.Stat.rtts s2
    = Mtr.Stat.rtts s1 ++ Spec.sample (Scenario.twoCycles (Z.of_nat 2) 1) /\
    (Mtr.Stat.received s1 <= Mtr.Stat.received s2
     <= S (Mtr.Stat.received s1))%nat /\
    (Mtr.Stat.worst s1 <= Mtr.Stat.worst s2)%R /\
    (forall b, Mtr.Stat.best s1 = Mtr.Finite b ->
               exists b', Mtr.Stat.best s2 = Mtr.Finite b' /\ (b' <= b)%R) /\
    Mtr.Row.sent (Mtr.snapshotRow s2) = S (Mtr.Row.sent (Mtr.snapshotRow s1)) /\
    (Mtr.Row.worst (Mtr.snapshotRow s1)
     <= Mtr.Row.worst (Mtr.snapshotRow s2))%R.
Proof.
  apply (records_grow Scenario.twoCycles 2 true 1000 Scenario.twoHops 1
           (Scenario.hopAt 2 "10.0.0.2") 1).
  - reflexivity.
  - reflexivity.
  - simpl. lia.
Defined.

(** The task of a hop, by the sample its probe contributes. *)
Lemma task_by_sample (cycle : Z) (slot : nat) (o : ProcOutcome)
      (stat : Mtr.Stat.t) :
  snd (Mtr.hopTask cycle slot o stat)
  = if Mtr.Stat.isDead stat then Mtr.setLoss 100 (Mtr.incSent stat)
    else Mtr.derive
           match Spec.sample o with
           | t :: _ => Mtr.record (Ping.mk true (Some t)) (Mtr.incSent stat)
           | [] => Mtr.incSent stat
           end.
Proof.
  unfold Mtr.hopTask, Spec.sample.
  destruct (Mtr.Stat.isDead stat); [reflexivity|]. simpl. f_equal.
  destruct (executePing o) as [res|] eqn:E; [|reflexivity].
  destruct (Ping.alive res) eqn:Ea.
  - destruct (executePing_alive_time o res E Ea) as [t Ht].
    rewrite Ht. destruct res as [alive time]. simpl in *. now subst.
  - unfold Mtr.record. now rewrite Ea.
Qed.

(** X13.  The statistics are a function of the RTT samples alone: two runs
    whose probes contribute the same samples, cycle by cycle and hop by
    hop, give the same final result and the same snapshots.  A probe that
    throws, one whose process cannot be started and one whose output holds
    no millisecond value are the same lost packet. *)
Theorem statistics_depend_on_samples (world world' : Z -> nat -> ProcOutcome)
        (cycles : Z) (progressCallback : bool) (interval : Z)
        (hops : list Hop.t) :
  (forall cycle slot,
      Spec.sample (world cycle slot) = Spec.sample (world' cycle slot)) ->
  Run.result world cycles progressCallback interval hops
  = Run.result world' cycles progressCallback interval hops /\
  Run.snapshots (Run.events world cycles progressCallback interval hops)
  = Run.snapshots (Run.events world' cycles progressCallback interval hops).
Proof.
  intros Hsame.
  assert (Hslot : forall i cs stat,
             Run.slotAfter world i cs stat = Run.slotAfter world' i cs stat).
  { intros i. induction cs as [|c cs IH]; intros stat; [reflexivity|].
    simpl. fold (Run.slotAfter world i cs) (Run.slotAfter world' i cs).
    rewrite IH. f_equal. unfold Run.taskAt.
    now rewrite !task_by_sample, Hsame. }
  assert (Hstats : forall n,
             Run.statsAfter world cycles progressCallback interval hops n
             = Run.statsAfter world' cycles progressCallback interval hops n).
  { intros n. apply nth_error_ext. intros i.
    rewrite !MtrFacts.statsAfter_nth.
    destruct (nth_error hops i); [simpl; now rewrite Hslot|reflexivity]. }
  split.
  - now rewrite !MtrFacts.result_run, Hstats.
  - destruct progressCallback.
    + rewrite !MtrFacts.snapshots_run by reflexivity.
      apply map_ext. intros k. now rewrite Hstats.
    + now rewrite !snapshots_without_callback.
Qed.

Lemma statistics_depend_on_samples_witness :
  Run.result Scenario.noPing 2 true 1000 Scenario.twoHops
  = Run.result (fun _ _ => Thrown) 2 true 1000 Scenario.twoHops /\
  Run.snapshots (Run.events Scenario.noPing 2 true 1000 Scenario.twoHops)
  = Run.snapshots
      (Run.events (fun _ _ => Thrown) 2 true 1000 Scenario.twoHops).
Proof.
  apply (statistics_depend_on_samples Scenario.noPing (fun _ _ => Thrown)).
  intros cycle slot. reflexivity.
Defined.

(** ** Discovery *)

Module TracerouteFacts.
Import Traceroute Discovery.

Lemma jseqb_eq (a b : jsstring) : jseqb a b = true <-> a = b.
Proof.
  revert b. induction a as [|x a IH]; intros [|y b]; simpl;
    try (split; [discriminate|discriminate]); [tauto|].
  unfold cu_eqb. rewrite andb_true_iff, N.eqb_eq, IH.
  split; [intros [-> ->]; reflexivity|intros [= -> ->]; auto].
Qed.

Lemma jseqb_refl (a : jsstring) : jseqb a a = true.
Proof. now apply jseqb_eq. Qed.

Lemma ipIs_eq (h : Hop.t) (a : jsstring) :
  ipIs h a = true <-> Hop.ip h = Some a.
Proof.
  unfold ipIs. destruct (Hop.ip h) as [b|].
  - rewrite jseqb_eq. split; [now intros ->|now intros [= ->]].
  - split; discriminate.
Qed.

Lemma ascending_NoDup (l : list Hop.t) :
  ascending l -> NoDup (map Hop.hop l).
Proof.
  unfold ascending. induction (map Hop.hop l) as [|x xs IH]; intros H.
  - constructor.
  - inversion H as [|? ? Hs Hall]; subst. constructor; auto.
    intros Hin. rewrite Forall_forall in Hall. apply Hall in Hin. lia.
Qed.

Lemma StronglySorted_prefix (xs ys : list Z) :
  StronglySorted Z.lt (xs ++ ys) -> StronglySorted Z.lt xs.
Proof.
  induction xs as [|x xs IH]; simpl; intros H; [constructor|].
  inversion H as [|? ? Hs Hall]; subst. constructor; auto.
  apply Forall_app in Hall. tauto.
Qed.

Lemma StronglySorted_snoc_app (xs ys : list Z) (bound : Z) :
  StronglySorted Z.lt xs -> Forall (fun x => x < bound)%Z xs ->
  StronglySorted Z.lt ys -> Forall (fun y => bound <= y)%Z ys ->
  StronglySorted Z.lt (xs ++ ys).
Proof.
  intros Hx Hlt Hy Hge. induction xs as [|x xs IH]; simpl; [assumption|].
  inversion Hx as [|? ? Hs Hall]; subst.
  inversion Hlt as [|? ? Hxb Hlt']; subst.
  constructor; [now apply IH|].
  apply Forall_app. split; [assumption|].
  rewrite Forall_forall in *. intros y Hyin. apply Hge in Hyin. lia.
Qed.

(** Group 1 of [ipRe] encloses the whole pattern: a match always fills
    it, with the matched text. *)
Lemma ipRe_group1 (line : jsstring) (ipMatch : Regex.found) :
  Regex.search ipRe line = Some ipMatch ->
  Regex.capture 1 (Regex.groups ipMatch) = Some (Regex.matched ipMatch).
Proof.
  intros H. apply RegexFacts.searchFrom_sound in H.
  destruct H as (_ & _ & _ & Hm & _). unfold ipRe in Hm.
  inversion Hm; subst. reflexivity.
Qed.

Section Run.
Variable world : Z -> ProcOutcome.
Variable targetIP : jsstring.

Lemma probeHop_hop ttl res :
  probeHop world targetIP ttl = Fulfilled res -> Hop.hop res = ttl.
Proof.
  unfold probeHop. destruct (world ttl) as [output code| |].
  - destruct (scanLines targetIP (splitLines [] output)).
    now intros [= <-].
  - now intros [= <-].
  - discriminate.
Qed.

(** A batch answers with one result per TTL, in the order of the TTLs,
    each of them what [probeHop] resolved with. *)
Lemma promiseAll_probeHop : forall ttls results,
  promiseAll (map (probeHop world targetIP) ttls) = Fulfilled results ->
  map Hop.hop results = ttls /\
  Forall (fun res => probeHop world targetIP (Hop.hop res) = Fulfilled res)
         results.
Proof.
  induction ttls as [|ttl ttls IH]; simpl; intros results H.
  - injection H as <-. split; constructor.
  - destruct (probeHop world targetIP ttl) as [res|] eqn:E; [|discriminate].
    destruct (promiseAll (map (probeHop world targetIP) ttls)) as [l|];
      [|discriminate].
    injection H as <-. destruct (IH l eq_refl) as [Hm Hf].
    pose proof (probeHop_hop _ _ E) as Hh.
    split; [simpl; now rewrite Hh, Hm|].
    constructor; [now rewrite Hh|assumption].
Qed.


(** The hops kept from a batch: the results with an address, in order. *)
Lemma collect_fold : forall results hops reached,
  fst (fold_left (collect targetIP) results (hops, reached))
  = hops ++ filter (fun res => negb (ipIs res star)) results.
Proof.
  induction results as [|res results IH]; intros hops reached; simpl.
  - now rewrite app_nil_r.
  - destruct (negb (ipIs res star)) eqn:E; rewrite IH.
    + now rewrite <- app_assoc.
    + reflexivity.
Qed.

Lemma batchTtls_range i ttl :
  In ttl (batchTtls i) -> (i <= ttl < i + BATCH_SIZE)%Z.
Proof.
  unfold batchTtls. intros H. apply in_map_iff in H.
  destruct H as (k & <- & Hk). apply in_seq in Hk.
  unfold BATCH_SIZE, MAX_HOPS in *. lia.
Qed.

Lemma batchTtls_sorted i : StronglySorted Z.lt (batchTtls i).
Proof.
  unfold batchTtls. generalize (Z.to_nat (Z.min (i + BATCH_SIZE - 1) MAX_HOPS - i + 1)).
  intros n. generalize 0%nat.
  induction n as [|n IH]; intros s; simpl; constructor; [apply IH|].
  apply Forall_forall. intros x Hx. apply in_map_iff in Hx.
  destruct Hx as (k & <- & Hk). apply in_seq in Hk. lia.
Qed.

Lemma StronglySorted_filter_map (f : Hop.t -> bool) :
  forall l, StronglySorted Z.lt (map Hop.hop l) ->
            StronglySorted Z.lt (map Hop.hop (filter f l)).
Proof.
  induction l as [|x l IH]; simpl; intros H; [constructor|].
  inversion H as [|? ? Hs Hall]; subst.
  destruct (f x); simpl; [|now apply IH].
  constructor; [now apply IH|].
  rewrite Forall_forall in *. intros y Hy. apply in_map_iff in Hy.
  destruct Hy as (h & <- & Hh). apply filter_In in Hh.
  apply Hall. apply in_map. tauto.
Qed.

Abbreviation sweepInv := (Discovery.sweepInv world targetIP).

Lemma batch_inv i bound hops reached results :
  (bound <= i)%Z -> sweepInv bound hops ->
  promiseAll (map (probeHop world targetIP) (batchTtls i))
  = Fulfilled results ->
  sweepInv (i + BATCH_SIZE)
    (fst (fold_left (collect targetIP) results (hops, reached))).
Proof.
  intros Hb [Hasc Hall] Hres. apply promiseAll_probeHop in Hres.
  destruct Hres as [Hm Hp]. rewrite collect_fold. split.
  - unfold ascending. rewrite map_app.
    apply StronglySorted_snoc_app with (bound := i).
    + exact Hasc.
    + rewrite Forall_forall in *. intros x Hx. apply in_map_iff in Hx.
      destruct Hx as (h & <- & Hh). apply Hall in Hh. lia.
    + apply StronglySorted_filter_map. rewrite Hm. apply batchTtls_sorted.
    + rewrite Forall_forall. intros y Hy. apply in_map_iff in Hy.
      destruct Hy as (h & <- & Hh). apply filter_In in Hh.
      destruct Hh as [Hh _]. apply (in_map Hop.hop) in Hh.
      rewrite Hm in Hh. apply batchTtls_range in Hh. lia.
  - apply Forall_app. split.
    + rewrite Forall_forall in *. intros h Hh. apply Hall in Hh.
      unfold BATCH_SIZE. split; [lia|tauto].
    + rewrite Forall_forall in *. intros h Hh. apply filter_In in Hh.
      destruct Hh as [Hh Hs]. split; [|split].
      * apply (in_map Hop.hop) in Hh. rewrite Hm in Hh.
        apply batchTtls_range in Hh. lia.
      * now apply Hp.
      * now apply negb_true_iff in Hs.
Qed.

Lemma sweep_inv : forall starts bound hops reached out,
  chain bound starts -> sweepInv bound hops ->
  sweep world targetIP starts hops reached = Fulfilled out ->
  exists bound', sweepInv bound' out.
Proof.
  induction starts as [|i starts IH]; intros bound hops reached out Hc Hi H;
    simpl in H.
  - injection H as <-. eauto.
  - destruct reached; [injection H as <-; eauto|].
    destruct (promiseAll (map (probeHop world targetIP) (batchTtls i)))
      as [results|] eqn:E; [|discriminate].
    destruct Hc as [Hb Hc].
    pose proof (batch_inv i bound hops false results Hb Hi E) as Hi'.
    destruct (fold_left (collect targetIP) results (hops, false))
      as [hops' reached'].
    eapply IH; eauto.
Qed.


(** Sorting an ascending list leaves it as it is. *)
Lemma sort_ascending : forall l, ascending l -> sort l = l.
Proof.
  unfold ascending. induction l as [|x l IH]; simpl; intros H;
    [reflexivity|].
  inversion H as [|? ? Hs Hall]; subst. rewrite (IH Hs).
  destruct l as [|y l]; [reflexivity|]. simpl.
  inversion Hall as [|? ? Hxy _]; subst.
  destruct (Z.leb_spec (Hop.hop x) (Hop.hop y)); [reflexivity|lia].
Qed.

Lemma truncate_prefix : forall hops,
  exists rest, hops = truncate targetIP hops ++ rest.
Proof.
  induction hops as [|h hops [rest IH]]; simpl; [now exists []|].
  destruct (ipIs h targetIP).
  - now exists hops.
  - exists rest. simpl. now rewrite <- IH.
Qed.

(** Past the first hop with the target address nothing is left. *)
Lemma truncate_target : forall hops before h rest,
  truncate targetIP hops = before ++ h :: rest ->
  ipIs h targetIP = true ->
  rest = [] /\ Forall (fun h' => ipIs h' targetIP = false) before.
Proof.
  induction hops as [|x hops IH]; intros before h rest H Ht; simpl in H.
  - destruct before; discriminate.
  - destruct (ipIs x targetIP) eqn:Ex.
    + destruct before as [|b before]; simpl in H.
      * injection H as <- <-. split; [reflexivity|constructor].
      * injection H as <- H. destruct before; discriminate.
    + destruct before as [|b before]; simpl in H.
      * injection H as <- _. congruence.
      * injection H as <- H. destruct (IH _ _ _ H Ht) as [Hr Hb].
        split; [assumption|]. constructor; assumption.
Qed.

Lemma chain_batchStarts : chain 1 batchStarts.
Proof. unfold batchStarts, BATCH_SIZE. simpl. lia. Qed.

(** What discovery resolves with. *)
Lemma runTraceroute_inv hops :
  runTraceroute world targetIP = Fulfilled hops ->
  exists swept rest,
    swept = hops ++ rest /\ hops = truncate targetIP swept /\
    ascending swept /\
    Forall (fun h => probeHop world targetIP (Hop.hop h) = Fulfilled h /\
                     ipIs h star = false) swept.
Proof.
  unfold runTraceroute.
  destruct (sweep world targetIP batchStarts [] false) as [swept|] eqn:E;
    [|discriminate].
  intros [= <-].
  destruct (sweep_inv batchStarts 1 [] false swept chain_batchStarts)
    as [bound [Hasc Hall]]; [split; constructor|exact E|].
  rewrite (sort_ascending swept Hasc).
  destruct (truncate_prefix swept) as [rest Hrest].
  exists swept, rest. repeat split; auto.
  rewrite Forall_forall in *. intros h Hh. apply Hall in Hh. tauto.
Qed.

End Run.

End TracerouteFacts.

(** C4.  A hop list discovery resolves with has strictly ascending hop
    indices, hence no index twice, and a hop with the destination address
    is the last one and the only one with that address. *)
Theorem discovery_hop_list (world : Z -> ProcOutcome) (targetIP : jsstring)
        (hops : list Hop.t) :
  Traceroute.runTraceroute world targetIP = Fulfilled hops ->
  StronglySorted Z.lt (map Hop.hop hops) /\
  NoDup (map Hop.hop hops) /\
  forall before h rest,
    hops = before ++ h :: rest -> Hop.ip h = Some targetIP ->
    rest = [] /\ Forall (fun h' => Hop.ip h' <> Some targetIP) before.
Proof.
  intros H. apply TracerouteFacts.runTraceroute_inv in H.
  destruct H as (swept & rest & Hs & Ht & Hasc & _).
  assert (Ha : Discovery.ascending hops).
  { unfold Discovery.ascending in *. rewrite Hs, map_app in Hasc.
    now apply TracerouteFacts.StronglySorted_prefix in Hasc. }
  split; [exact Ha|]. split; [now apply TracerouteFacts.ascending_NoDup|].
  intros before h rest' Hh Hip. rewrite Hh in Ht. symmetry in Ht.
  apply TracerouteFacts.ipIs_eq in Hip.
  destruct (TracerouteFacts.truncate_target targetIP swept before h rest'
              Ht Hip) as [Hr Hb].
  split; [assumption|].
  rewrite Forall_forall in *. intros h' Hin Hip'.
  apply TracerouteFacts.ipIs_eq in Hip'. apply Hb in Hin. congruence.
Qed.

Lemma shortPath_discovered :
  Traceroute.runTraceroute Scenario.shortPath (str "8.8.8.8")
  = Fulfilled [Traceroute.reply 1 (str "10.0.0.1") false;
               Traceroute.reply 2 (str "8.8.8.8") true].
Proof. vm_compute. reflexivity. Qed.

Lemma discovery_hop_list_witness :
  StronglySorted Z.lt
    (map Hop.hop [Traceroute.reply 1 (str "10.0.0.1") false;
                  Traceroute.reply 2 (str "8.8.8.8") true]) /\
  NoDup (map Hop.hop [Traceroute.reply 1 (str "10.0.0.1") false;
                      Traceroute.reply 2 (str "8.8.8.8") true]) /\
  forall before h rest,
    [Traceroute.reply 1 (str "10.0.0.1") false;
     Traceroute.reply 2 (str "8.8.8.8") true] = before ++ h :: rest ->
    Hop.ip h = Some (str "8.8.8.8") ->
    rest = [] /\ Forall (fun h' => Hop.ip h' <> Some (str "8.8.8.8")) before.
Proof.
  apply (discovery_hop_list Scenario.shortPath (str "8.8.8.8")).
  vm_compute. reflexivity.
Defined.

(** ** The facade *)

Lemma last_snoc (A : Type) (l : list A) (x : A) (d : option A) :
  last (map Some (l ++ [x])) d = Some x.
Proof.
  rewrite map_app. simpl. induction (map Some l) as [|y ys IH]; simpl;
    [reflexivity|].
  destruct (ys ++ [Some x]) eqn:E; [destruct ys; discriminate|exact IH].
Qed.

Lemma forceTargetAppend_cases (hops : list Hop.t) (targetIP : jsstring) :
  (hops = [] /\
   forceTargetAppend hops targetIP
   = [Hop.mk 1 (Some targetIP) None None (Some (str "0 ms"))]) \/
  (exists before lastHop,
      hops = before ++ [lastHop] /\
      ((Hop.ip lastHop <> Some targetIP /\
        forceTargetAppend hops targetIP
        = hops ++ [Hop.mk (Hop.hop lastHop + 1) (Some targetIP) None None
                          (Some (str "0 ms"))]) \/
       (Hop.ip lastHop = Some targetIP /\
        forceTargetAppend hops targetIP = hops))).
Proof.
  destruct hops as [|h hops] using rev_ind; [left; split; reflexivity|].
  right. exists hops, h. split; [reflexivity|].
  unfold forceTargetAppend. rewrite last_snoc.
  destruct (ipIs h targetIP) eqn:E; simpl.
  - right. split; [now apply TracerouteFacts.ipIs_eq|reflexivity].
  - left. split; [|reflexivity]. intros Hip.
    apply TracerouteFacts.ipIs_eq in Hip. congruence.
Qed.

(** C6.  When the discovered list is empty the facade appends the hop
    [{hop: 1, ip: target}]; when its last hop has another address it
    appends [{hop: last index + 1, ip: target}]; in both cases exactly one
    hop is appended.  The list handed to the aggregator always ends with
    a hop that has the target address, and it is built before the
    aggregator runs. *)
Theorem facade_appends_target (hops : list Hop.t) (targetIP : jsstring) :
  (hops = [] ->
   forceTargetAppend hops targetIP
   = [Hop.mk 1 (Some targetIP) None None (Some (str "0 ms"))]) /\
  (forall before lastHop,
      hops = before ++ [lastHop] -> Hop.ip lastHop <> Some targetIP ->
      forceTargetAppend hops targetIP
      = hops ++ [Hop.mk (Hop.hop lastHop + 1) (Some targetIP) None None
                        (Some (str "0 ms"))]) /\
  (forall before lastHop,
      hops = before ++ [lastHop] -> Hop.ip lastHop = Some targetIP ->
      forceTargetAppend hops targetIP = hops) /\
  (exists before lastHop,
      forceTargetAppend hops targetIP = before ++ [lastHop] /\
      Hop.ip lastHop = Some targetIP) /\
  (forall trace pings mtrDuration,
      Traceroute.runTraceroute trace targetIP = Fulfilled hops ->
      diagnose trace pings targetIP mtrDuration
      = Some (Mtr.runMtrCycles pings mtrDuration true 1000
                (forceTargetAppend hops targetIP))).
Proof.
  pose proof (forceTargetAppend_cases hops targetIP) as H.
  split; [|split; [|split; [|split]]].
  - intros ->. reflexivity.
  - intros before lastHop -> Hne.
    destruct H as [[He _]|(b & l & Hb & [[_ ->]|[Hip _]])].
    + destruct before; discriminate.
    + apply app_inj_tail in Hb. destruct Hb as [_ <-]. reflexivity.
    + apply app_inj_tail in Hb. destruct Hb as [_ <-]. congruence.
  - intros before lastHop -> Hip.
    destruct H as [[He _]|(b & l & Hb & [[Hne _]|[_ ->]])].
    + destruct before; discriminate.
    + apply app_inj_tail in Hb. destruct Hb as [_ <-]. congruence.
    + reflexivity.
  - destruct H as [[-> ->]|(b & l & -> & [[_ ->]|[Hip ->]])].
    + exists [], (Hop.mk 1 (Some targetIP) None None (Some (str "0 ms"))).
      split; reflexivity.
    + exists (b ++ [l]),
             (Hop.mk (Hop.hop l + 1) (Some targetIP) None None
                     (Some (str "0 ms"))).
      split; reflexivity.
    + exists b, l. split; [reflexivity|assumption].
  - intros trace pings mtrDuration Ht. unfold diagnose. now rewrite Ht.
Qed.

Lemma facade_appends_target_witness :
  forceTargetAppend [Scenario.hopAt 1 "10.0.0.1"; Scenario.hopAt 4 "10.0.0.9"]
    (str "8.8.8.8")
  = [Scenario.hopAt 1 "10.0.0.1"; Scenario.hopAt 4 "10.0.0.9"]
    ++ [Hop.mk (4 + 1) (Some (str "8.8.8.8")) None None (Some (str "0 ms"))].
Proof.
  apply (proj1 (proj2
           (facade_appends_target
              [Scenario.hopAt 1 "10.0.0.1"; Scenario.hopAt 4 "10.0.0.9"]
              (str "8.8.8.8")))
           [Scenario.hopAt 1 "10.0.0.1"] (Scenario.hopAt 4 "10.0.0.9")).
  - reflexivity.
  - discriminate.
Defined.

(** ** Probes that cannot be started *)





(** ** The classifier of TTL probes *)

Lemma scanLines_cons (targetIP : jsstring) (line : jsstring)
      (rest : list jsstring) :
  Traceroute.scanLines targetIP (line :: rest) =
  match Spec.firstAddress line with
  | None => Traceroute.scanLines targetIP rest
  | Some foundIp =>
      if negb (jseqb foundIp targetIP) then (foundIp, false)
      else if Regex.test Traceroute.timeRe line
              || Regex.test Traceroute.bytesRe line
           then (targetIP, true)
           else Traceroute.scanLines targetIP rest
  end.
Proof.
  unfold Spec.firstAddress. simpl.
  destruct (Regex.search Traceroute.ipRe line) as [ipMatch|]; [|reflexivity].
  destruct (Regex.capture 1 (Regex.groups ipMatch)) as [foundIp|];
    [|reflexivity].
  now destruct (length foundIp <? 2)%nat.
Qed.

(** A line that holds [time=23ms] passes the test for a time. *)
Lemma hasTime_23 (line : jsstring) :
  Spec.holds (str "time=23ms") line ->
  Regex.test Traceroute.timeRe line = true.
Proof.
  intros (u & v & ->). apply RegexFacts.test_true_iff.
  exists u, (str "time=23ms" ++ v). split; [reflexivity|].
  destruct (RegexFacts.matchHere_sound Traceroute.timeRe [] (str "time=23")
              (Regex.mkFound [] (str "time=23") [] []) eq_refl)
    as (_ & _ & Hm).
  exists (str "time=23"), (str "ms" ++ v), []. split; [reflexivity|exact Hm].
Qed.

(** Lines whose address token is absent or the target without evidence do
    not end the scan; lines in front of a reply of the target whose token
    is absent or the target do not change its outcome. *)
Lemma scanLines_reply (targetIP : jsstring) (line : jsstring)
      (after : list jsstring) : forall before,
  Forall (fun l => Spec.firstAddress l = None \/
                   Spec.firstAddress l = Some targetIP) before ->
  Spec.firstAddress line = Some targetIP ->
  Regex.test Traceroute.timeRe line = true ->
  Traceroute.scanLines targetIP (before ++ line :: after) = (targetIP, true).
Proof.
  intros before Hb Hl Ht. induction Hb as [|l before Hf _ IH].
  - simpl app. rewrite scanLines_cons, Hl, TracerouteFacts.jseqb_refl, Ht.
    reflexivity.
  - simpl app. rewrite scanLines_cons.
    destruct Hf as [-> | ->]; [exact IH|].
    rewrite TracerouteFacts.jseqb_refl. simpl.
    now destruct (Regex.test Traceroute.timeRe l
                  || Regex.test Traceroute.bytesRe l).
Qed.

(** C8, as the code has it.  When some line of the output of a TTL probe
    has the destination as its address token and holds [time=23ms], and no
    line before it has another address as its address token, the probe
    resolves with the destination address and [reached = true]; the result
    has the fields [hop], [ip] and [reached] and carries no RTT. *)
Theorem destination_reply (world : Z -> ProcOutcome) (targetIP : jsstring)
        (ttl : Z) (output : jsstring) (code : Z)
        (before : list jsstring) (line : jsstring) (after : list jsstring) :
  world ttl = Closed output code ->
  Traceroute.splitLines [] output = before ++ line :: after ->
  Spec.firstAddress line = Some targetIP ->
  Spec.holds (str "time=23ms") line ->
  Forall (fun l => Spec.firstAddress l = None \/
                   Spec.firstAddress l = Some targetIP) before ->
  Traceroute.probeHop world targetIP ttl
  = Fulfilled (Hop.mk ttl (Some targetIP) None (Some true) None).
Proof.
  intros Hw Hs Hl Ht Hb. unfold Traceroute.probeHop. rewrite Hw, Hs.
  rewrite (scanLines_reply targetIP line after before Hb Hl
             (hasTime_23 line Ht)).
  reflexivity.
Qed.

Lemma destination_reply_witness :
  Traceroute.probeHop Scenario.shortPath (str "8.8.8.8") 2
  = Fulfilled (Hop.mk 2 (Some (str "8.8.8.8")) None (Some true) None).
Proof.
  apply (destination_reply Scenario.shortPath (str "8.8.8.8") 2
           (Scenario.banner "8.8.8.8"
            ++ str "64 bytes from 8.8.8.8: icmp_seq=1 ttl=117 time=23ms"
            ++ [10%N]) 0
           [str "PING 8.8.8.8 (8.8.8.8) 56(84) bytes of data."]
           (str "64 bytes from 8.8.8.8: icmp_seq=1 ttl=117 time=23ms")
           [[]]).
  - reflexivity.
  - vm_compute. reflexivity.
  - vm_compute. reflexivity.
  - exists (str "64 bytes from 8.8.8.8: icmp_seq=1 ttl=117 "), []. reflexivity.
  - constructor; [|constructor]. right. vm_compute. reflexivity.
Defined.

(** C8 as the specification words it fails in two ways.  The result of a
    TTL probe that the destination answers with [time=23ms] has no RTT: it
    is the object [{hop, ip, reached}] and nothing else.  And a line that
    holds the destination address and [time=23ms] behind the address of a
    router is classified as a reply of the router. *)
Lemma destination_reply_has_no_rtt :
  (exists res,
      Traceroute.probeHop Scenario.shortPath (str "8.8.8.8") 2
      = Fulfilled res /\
      res = Hop.mk 2 (Some (str "8.8.8.8")) None (Some true) None /\
      Hop.rtt1 res = None) /\
  Spec.holds (str "8.8.8.8") Scenario.viaLine /\
  Spec.holds (str "time=23ms") Scenario.viaLine /\
  Traceroute.scanLines (str "8.8.8.8") [Scenario.viaLine]
  = (str "10.0.0.1", false).
Proof.
  split; [|split; [|split]].
  - eexists. split; [vm_compute; reflexivity|]. split; reflexivity.
  - exists (str "From 10.0.0.1 via "), (str " time=23ms"). reflexivity.
  - exists (str "From 10.0.0.1 via 8.8.8.8 "), []. reflexivity.
  - vm_compute. reflexivity.
Qed.

(** * More about discovery *)

Module SweepFacts.
Import Traceroute TracerouteFacts.

Lemma stripColon_nonempty (s : jsstring) :
  (2 <= length s)%nat -> stripColon s <> [].
Proof.
  intros Hlen. unfold stripColon.
  destruct (rev s) as [|x r] eqn:E.
  - intros ->. simpl in Hlen. lia.
  - assert (Hr : (1 <= length r)%nat).
    { apply (f_equal (@length _)) in E. rewrite length_rev in E.
      simpl in E. lia. }
    assert (Hne : rev r <> []).
    { intros H. apply (f_equal (@length _)) in H.
      rewrite length_rev in H. simpl in H. lia. }
    assert (Hs : s <> []) by (intros ->; simpl in Hlen; lia).
    destruct x as [|p]; [exact Hs|].
    repeat (destruct p as [p|p|]; try exact Hs). exact Hne.
Qed.

Lemma firstAddress_nonempty (line a : jsstring) :
  Spec.firstAddress line = Some a -> a <> [].
Proof.
  unfold Spec.firstAddress.
  destruct (Regex.search ipRe line) as [m|]; [|discriminate].
  destruct (Regex.capture 1 (Regex.groups m)) as [f|]; [|discriminate].
  destruct (Nat.ltb_spec (length f) 2); [discriminate|].
  intros [= <-]. now apply stripColon_nonempty.
Qed.

(** The three outcomes of the scan of the lines. *)
Lemma scanLines_cases (targetIP : jsstring) : forall lines,
  scanLines targetIP lines = (star, false) \/
  (exists a, scanLines targetIP lines = (a, false) /\ a <> targetIP /\
             a <> [] /\
             exists line, In line lines /\ Spec.firstAddress line = Some a) \/
  (scanLines targetIP lines = (targetIP, true) /\ targetIP <> [] /\
   exists line, In line lines /\ Spec.firstAddress line = Some targetIP /\
                (Regex.test timeRe line || Regex.test bytesRe line) = true).
Proof.
  induction lines as [|line rest IH]; [now left|].
  assert (Hrest :
    scanLines targetIP rest = scanLines targetIP (line :: rest) ->
    scanLines targetIP (line :: rest) = (star, false) \/
    (exists a, scanLines targetIP (line :: rest) = (a, false) /\
               a <> targetIP /\ a <> [] /\
               exists l, In l (line :: rest) /\
                         Spec.firstAddress l = Some a) \/
    (scanLines targetIP (line :: rest) = (targetIP, true) /\
     targetIP <> [] /\
     exists l, In l (line :: rest) /\ Spec.firstAddress l = Some targetIP /\
               (Regex.test timeRe l || Regex.test bytesRe l) = true)).
  { intros <-. destruct IH as [H|[(a & H & Hne & Hn & l & Hl & Hf)
                                 |(H & Hn & l & Hl & Hf)]].
    - now left.
    - right; left. exists a. repeat split; auto. exists l. split; auto.
      now right.
    - right; right. repeat split; auto. exists l. split; auto. now right. }
  rewrite scanLines_cons in *.
  destruct (Spec.firstAddress line) as [foundIp|] eqn:Ef;
    [|now apply Hrest].
  destruct (jseqb foundIp targetIP) eqn:Eq; simpl in *.
  - apply jseqb_eq in Eq. subst foundIp.
    destruct (Regex.test timeRe line || Regex.test bytesRe line) eqn:Et;
      [|now apply Hrest].
    right; right. split; [reflexivity|].
    split; [now apply (firstAddress_nonempty line)|].
    exists line. split; [now left|]. split; assumption.
  - right; left. exists foundIp. split; [reflexivity|].
    split; [intros ->; now rewrite jseqb_refl in Eq|].
    split; [now apply (firstAddress_nonempty line)|].
    exists line. split; [now left|assumption].
Qed.

Lemma star_not_empty : star <> [].
Proof. discriminate. Qed.

Section Run.
Variable world : Z -> ProcOutcome.
Variable targetIP : jsstring.

(** What a probe can resolve with. *)
Lemma probeHop_cases (ttl : Z) (res : Hop.t) :
  probeHop world targetIP ttl = Fulfilled res ->
  res = reply ttl star false \/
  (exists a, res = reply ttl a false /\ a <> targetIP /\ a <> []) \/
  (res = reply ttl targetIP true /\ targetIP <> []).
Proof.
  unfold probeHop. destruct (world ttl) as [output code| |];
    [|intros [= <-]; now left|discriminate].
  destruct (scanLines_cases targetIP (splitLines [] output))
    as [H|[(a & H & Hne & Hn & _)|(H & Hn & _)]]; rewrite H; intros [= <-].
  - now left.
  - right; left. now exists a.
  - right; right. now split.
Qed.

(** A result that sets [targetReached] has the address of the target. *)
Lemma probeHop_hit (ttl : Z) (res : Hop.t) :
  probeHop world targetIP ttl = Fulfilled res ->
  Sweep.hit targetIP res = true -> ipIs res targetIP = true.
Proof.
  intros H Hh. unfold Sweep.hit in Hh.
  destruct (ipIs res targetIP) eqn:E; [reflexivity|].
  rewrite orb_false_r in Hh.
  destruct (probeHop_cases ttl res H) as [-> |[(a & -> & _)|[-> _]]];
    try discriminate.
  unfold ipIs in E. simpl in E. now rewrite jseqb_refl in E.
Qed.

Lemma answers_app (l1 l2 : list Z) :
  Sweep.answers world targetIP (l1 ++ l2)
  = Sweep.answers world targetIP l1 ++ Sweep.answers world targetIP l2.
Proof. apply flat_map_app. Qed.

Lemma answers_in (l : list Z) (res : Hop.t) :
  In res (Sweep.answers world targetIP l) ->
  exists ttl, In ttl l /\ probeHop world targetIP ttl = Fulfilled res.
Proof.
  unfold Sweep.answers. rewrite in_flat_map. intros (ttl & Hin & Hres).
  exists ttl. split; [assumption|].
  destruct (probeHop world targetIP ttl) as [r|]; [|destruct Hres].
  destruct Hres as [-> |[]]. reflexivity.
Qed.

(** Without a throw a batch resolves with the answers of its probes. *)
Lemma promiseAll_answers : forall l,
  (forall ttl, In ttl l -> world ttl <> Thrown) ->
  promiseAll (map (probeHop world targetIP) l)
  = Fulfilled (Sweep.answers world targetIP l).
Proof.
  induction l as [|ttl l IH]; intros Hw; [reflexivity|].
  simpl. rewrite IH by (intros t Ht; apply Hw; now right).
  assert (Hp : exists res, probeHop world targetIP ttl = Fulfilled res).
  { unfold probeHop. specialize (Hw ttl (or_introl eq_refl)).
    destruct (world ttl) as [output code| |]; [| |congruence].
    - destruct (scanLines targetIP (splitLines [] output)). eauto.
    - eauto. }
  destruct Hp as [res ->]. reflexivity.
Qed.

(** The flag after a batch. *)
Lemma collect_fold_snd : forall results hops reached,
  snd (fold_left (collect targetIP) results (hops, reached))
  = reached || existsb (Sweep.hit targetIP) results.
Proof.
  induction results as [|res results IH]; intros hops reached; simpl.
  - now rewrite orb_false_r.
  - rewrite IH. unfold Sweep.hit.
    destruct (truthy (Hop.reached res) || ipIs res targetIP);
      [now rewrite orb_true_r|reflexivity].
Qed.

Lemma collect_fold_pair (results : list Hop.t) (hops : list Hop.t)
      (reached : bool) :
  fold_left (collect targetIP) results (hops, reached)
  = (hops ++ filter Sweep.kept results,
     reached || existsb (Sweep.hit targetIP) results).
Proof.
  rewrite (surjective_pairing (fold_left _ _ _)).
  now rewrite collect_fold, collect_fold_snd.
Qed.

Lemma truncate_app_hit : forall (l r : list Hop.t),
  (exists h, In h l /\ ipIs h targetIP = true) ->
  truncate targetIP (l ++ r) = truncate targetIP l.
Proof.
  induction l as [|x l IH]; intros r (h & Hin & Hh); [destruct Hin|].
  simpl. destruct (ipIs x targetIP) eqn:Ex; [reflexivity|].
  destruct Hin as [-> |Hin]; [congruence|].
  f_equal. apply IH. eauto.
Qed.

(** The sweep, up to what the truncation keeps. *)
Lemma sweep_truncate : forall starts hops reached,
  targetIP <> star ->
  (forall i ttl, In i starts -> In ttl (batchTtls i) -> world ttl <> Thrown) ->
  (reached = true -> exists h, In h hops /\ ipIs h targetIP = true) ->
  exists out,
    sweep world targetIP starts hops reached = Fulfilled out /\
    truncate targetIP out
    = truncate targetIP
        (hops ++ filter Sweep.kept
                   (Sweep.answers world targetIP
                      (flat_map batchTtls starts))).
Proof.
  induction starts as [|i starts IH]; intros hops reached Hstar Hw Hr.
  - exists hops. split; [reflexivity|]. simpl. now rewrite app_nil_r.
  - simpl sweep. destruct reached.
    + exists hops. split; [reflexivity|].
      symmetry. apply truncate_app_hit. now apply Hr.
    + rewrite promiseAll_answers
        by (intros t Ht; apply (Hw i t); [now left|assumption]).
      rewrite collect_fold_pair. simpl orb.
      destruct (IH (hops ++ filter Sweep.kept
                             (Sweep.answers world targetIP (batchTtls i)))
                   (existsb (Sweep.hit targetIP)
                      (Sweep.answers world targetIP (batchTtls i)))
                   Hstar)
        as (out & Hout & Ht).
      * intros j t Hj Ht. apply (Hw j t); [now right|assumption].
      * intros He. apply existsb_exists in He.
        destruct He as (res & Hin & Hhit).
        destruct (answers_in _ _ Hin) as (ttl & _ & Hp).
        pose proof (probeHop_hit ttl res Hp Hhit) as Hip.
        exists res. split; [|assumption].
        apply in_or_app. right. apply filter_In. split; [assumption|].
        unfold Sweep.kept. apply negb_true_iff.
        destruct (ipIs res star) eqn:Es; [|reflexivity].
        apply ipIs_eq in Es. apply ipIs_eq in Hip. congruence.
      * exists out. split; [exact Hout|]. rewrite Ht.
        cbn [flat_map]. now rewrite answers_app, filter_app, app_assoc.
Qed.

(** Every hop kept comes from a probe of one of the batches. *)
Lemma sweep_from_batches : forall starts hops reached out,
  sweep world targetIP starts hops reached = Fulfilled out ->
  Forall (fun h => In h hops \/
                   exists i, In i starts /\ In (Hop.hop h) (batchTtls i))
         out.
Proof.
  induction starts as [|i starts IH]; intros hops reached out H;
    simpl in H.
  - injection H as <-. apply Forall_forall. auto.
  - destruct reached; [injection H as <-; apply Forall_forall; auto|].
    destruct (promiseAll (map (probeHop world targetIP) (batchTtls i)))
      as [results|] eqn:E; [|discriminate].
    apply promiseAll_probeHop in E. destruct E as [Hm _].
    rewrite collect_fold_pair in H. apply IH in H.
    rewrite Forall_forall in *. intros h Hh. apply H in Hh.
    destruct Hh as [Hh|(j & Hj & Hh)].
    + apply in_app_or in Hh. destruct Hh as [Hh|Hh]; [now left|].
      apply filter_In in Hh. destruct Hh as [Hh _].
      right. exists i. split; [now left|].
      rewrite <- Hm. now apply in_map.
    + right. exists j. split; [now right|assumption].
Qed.

(** No batch with an answer: the sweep keeps what it has. *)
Lemma sweep_silent : forall starts hops reached,
  (forall i ttl, In i starts -> In ttl (batchTtls i) ->
                 probeHop world targetIP ttl
                 = Fulfilled (reply ttl star false)) ->
  sweep world targetIP starts hops reached = Fulfilled hops.
Proof.
  induction starts as [|i starts IH]; intros hops reached Hw; [reflexivity|].
  simpl. destruct reached; [reflexivity|].
  assert (Hb : forall l,
             (forall ttl, In ttl l ->
                          probeHop world targetIP ttl
                          = Fulfilled (reply ttl star false)) ->
             promiseAll (map (probeHop world targetIP) l)
             = Fulfilled (map (fun ttl => reply ttl star false) l)).
  { induction l as [|t l IHl]; intros Hl; [reflexivity|].
    simpl. rewrite (Hl t (or_introl eq_refl)).
    rewrite IHl by (intros t' Ht'; apply Hl; now right). reflexivity. }
  rewrite Hb by (intros t Ht; apply (Hw i t); [now left|assumption]).
  rewrite collect_fold_pair.
  replace (filter Sweep.kept
             (map (fun ttl => reply ttl star false) (batchTtls i)))
    with (@nil Hop.t).
  - rewrite app_nil_r. apply IH.
    intros j t Hj Ht. apply (Hw j t); [now right|assumption].
  - induction (batchTtls i) as [|t l IHl]; [reflexivity|exact IHl].
Qed.

(** Where two worlds agree up to the batch with a hit, the sweeps agree. *)
Lemma sweep_agree (world' : Z -> ProcOutcome) (i0 t : Z) (h : Hop.t) :
  In t (batchTtls i0) ->
  probeHop world targetIP t = Fulfilled h ->
  Sweep.hit targetIP h = true ->
  (forall ttl, (ttl < i0 + BATCH_SIZE)%Z -> world ttl = world' ttl) ->
  forall starts bound hops reached,
    Discovery.chain bound starts ->
    (reached = false -> In i0 starts) ->
    sweep world targetIP starts hops reached
    = sweep world' targetIP starts hops reached.
Proof.
  intros Ht Hp Hhit Hag.
  induction starts as [|i starts IH]; intros bound hops reached Hc Hr;
    [reflexivity|].
  simpl. destruct reached; [reflexivity|].
  destruct Hc as [Hb Hc].
  assert (Hchain : forall starts' b j,
             Discovery.chain b starts' -> In j starts' -> (b <= j)%Z).
  { induction starts' as [|k starts' IHs]; intros b j Hcs Hj;
      [destruct Hj|].
    destruct Hcs as [Hbk Hcs]. destruct Hj as [-> |Hj]; [assumption|].
    apply (IHs _ _ Hcs) in Hj. unfold BATCH_SIZE in *. lia. }
  assert (Hle : (i <= i0)%Z).
  { destruct (Hr eq_refl) as [-> |Hin]; [lia|].
    apply (Hchain _ _ _ Hc) in Hin. unfold BATCH_SIZE in *. lia. }
  assert (Hsame : map (probeHop world targetIP) (batchTtls i)
                  = map (probeHop world' targetIP) (batchTtls i)).
  { apply map_ext_in. intros ttl Hin. apply batchTtls_range in Hin.
    unfold probeHop. rewrite Hag by lia. reflexivity. }
  rewrite <- Hsame.
  destruct (promiseAll (map (probeHop world targetIP) (batchTtls i)))
    as [results|] eqn:E; [|reflexivity].
  rewrite collect_fold_pair. simpl orb.
  apply (IH (i + BATCH_SIZE)%Z); [assumption|].
  intros He. destruct (Hr eq_refl) as [-> |Hin]; [|assumption].
  exfalso.
  assert (Hin : In h results).
  { clear - E Ht Hp. revert results E.
    induction (batchTtls i0) as [|x l IHl]; intros results E;
      [destruct Ht|].
    simpl in E.
    destruct (probeHop world targetIP x) as [r|] eqn:Ex; [|discriminate].
    destruct (promiseAll (map (probeHop world targetIP) l)) as [rs|];
      [|discriminate].
    injection E as <-. destruct Ht as [-> |Ht].
    - left. congruence.
    - right. now apply IHl. }
  assert (Hex : existsb (Sweep.hit targetIP) results = true).
  { apply existsb_exists. eauto. }
  congruence.
Qed.

End Run.

Lemma batches_ttls :
  flat_map (batchTtls) batchStarts = Sweep.ttls.
Proof. reflexivity. Qed.

Lemma batch_ttl_range (i ttl : Z) :
  In i batchStarts -> In ttl (batchTtls i) -> (1 <= ttl <= 30)%Z.
Proof.
  intros Hi Ht. apply batchTtls_range in Ht. unfold BATCH_SIZE in Ht.
  simpl in Hi. lia.
Qed.

(** What the sweep resolves with is what discovery is truncated from. *)
Lemma runTraceroute_sweep (world : Z -> ProcOutcome) (targetIP : jsstring) :
  runTraceroute world targetIP
  = match sweep world targetIP batchStarts [] false with
    | Fulfilled out => Fulfilled (truncate targetIP out)
    | Rejected => Rejected
    end.
Proof.
  unfold runTraceroute.
  destruct (sweep world targetIP batchStarts [] false) as [out|] eqn:E;
    [|reflexivity].
  destruct (sweep_inv world targetIP batchStarts 1 [] false out
              chain_batchStarts)
    as [bound [Hasc _]]; [split; constructor|exact E|].
  now rewrite (sort_ascending out Hasc).
Qed.

(** A strictly ascending list of integers within bounds is short. *)
Lemma ascending_length (lo : Z) : forall (l : list Z) (hi : Z),
  StronglySorted Z.lt l -> Forall (fun x => lo <= x <= hi)%Z l ->
  (Z.of_nat (length l) <= Z.max 0 (hi - lo + 1))%Z.
Proof.
  induction l as [|x l IH] using rev_ind; intros hi Hs Hf; [simpl; lia|].
  apply Forall_app in Hf. destruct Hf as [Hf Hx].
  inversion Hx as [|? ? Hxr _]; subst.
  assert (Hl : StronglySorted Z.lt l)
    by now apply StronglySorted_prefix in Hs.
  assert (Hlt : Forall (fun y => lo <= y <= x - 1)%Z l).
  { rewrite Forall_forall in *. intros y Hy.
    specialize (Hf y Hy). split; [lia|].
    clear - Hs Hy. induction l as [|z l IHl]; [destruct Hy|].
    simpl in Hs. inversion Hs as [|? ? Hs' Hall]; subst.
    destruct Hy as [-> |Hy].
    - rewrite Forall_forall in Hall.
      assert (y < x)%Z by (apply Hall; apply in_or_app; right; now left).
      lia.
    - now apply IHl. }
  specialize (IH (x - 1)%Z Hl Hlt). rewrite length_app. simpl. lia.
Qed.

End SweepFacts.

(** Discovery resolves with ascending hop numbers from 1 to 30. *)
Lemma discovered_range (world : Z -> ProcOutcome) (targetIP : jsstring)
      (hops : list Hop.t) :
  Traceroute.runTraceroute world targetIP = Fulfilled hops ->
  Discovery.ascending hops /\
  Forall (fun h => (1 <= Hop.hop h <= 30)%Z) hops.
Proof.
  intros H.
  pose proof (TracerouteFacts.runTraceroute_inv world targetIP hops H)
    as (swept & rest & Hs & _ & Hasc & _).
  split.
  { unfold Discovery.ascending in *. rewrite Hs, map_app in Hasc.
    now apply TracerouteFacts.StronglySorted_prefix in Hasc. }
  rewrite SweepFacts.runTraceroute_sweep in H.
  destruct (Traceroute.sweep world targetIP Traceroute.batchStarts [] false)
    as [out|] eqn:E; [|discriminate].
  injection H as H.
  pose proof (SweepFacts.sweep_from_batches world targetIP _ _ _ _ E)
    as Hfrom.
  destruct (TracerouteFacts.truncate_prefix targetIP out) as [r Hr].
  rewrite H in Hr. rewrite Hr in Hfrom. apply Forall_app in Hfrom.
  destruct Hfrom as [Hfrom _]. rewrite Forall_forall in *.
  intros h Hh. destruct (Hfrom h Hh) as [[]|(i & Hi & Ht)].
  now apply (SweepFacts.batch_ttl_range i).
Qed.

(** A result that is kept has a usable address, and [reached] tells
    whether that is the target. *)
Lemma kept_reply (world : Z -> ProcOutcome) (targetIP : jsstring)
      (ttl : Z) (h : Hop.t) :
  Traceroute.probeHop world targetIP ttl = Fulfilled h ->
  ipIs h Traceroute.star = false ->
  Hop.host h = None /\ Hop.rtt1 h = None /\ Mtr.dead h = false /\
  ((Hop.reached h = Some true /\ Hop.ip h = Some targetIP) \/
   (Hop.reached h = Some false /\ Hop.ip h <> Some targetIP)).
Proof.
  intros Hp Hstar.
  destruct (SweepFacts.probeHop_cases world targetIP _ _ Hp)
    as [E1|[(a & E1 & Hne & Hn)|[E1 Hn]]].
  - rewrite E1 in Hstar. discriminate.
  - assert (Ha : jseqb a Traceroute.star = false).
    { rewrite E1 in Hstar. exact Hstar. }
    rewrite E1. simpl. repeat split.
    + unfold Mtr.dead. simpl. destruct a; [congruence|exact Ha].
    + right. split; [reflexivity|congruence].
  - assert (Ha : jseqb targetIP Traceroute.star = false).
    { rewrite E1 in Hstar. exact Hstar. }
    rewrite E1. simpl. repeat split.
    + unfold Mtr.dead. simpl. destruct targetIP; [congruence|exact Ha].
    + now left.
Qed.

Lemma discovered_kept (world : Z -> ProcOutcome) (targetIP : jsstring)
      (hops : list Hop.t) :
  Traceroute.runTraceroute world targetIP = Fulfilled hops ->
  Forall (fun h =>
            Traceroute.probeHop world targetIP (Hop.hop h) = Fulfilled h /\
            ipIs h Traceroute.star = false) hops.
Proof.
  intros H.
  pose proof (TracerouteFacts.runTraceroute_inv world targetIP hops H)
    as (swept & rest & Hs & _ & _ & Hall).
  rewrite Hs in Hall. apply Forall_app in Hall. tauto.
Qed.

Lemma discovered_length (hops : list Hop.t) :
  Discovery.ascending hops ->
  Forall (fun h => (1 <= Hop.hop h <= 30)%Z) hops ->
  (length hops <= 30)%nat.
Proof.
  intros Hasc Hrange.
  pose proof (SweepFacts.ascending_length 1 (map Hop.hop hops) 30 Hasc)
    as Hlen.
  rewrite length_map in Hlen. apply Nat2Z.inj_le. simpl in Hlen.
  apply Hlen. rewrite Forall_forall in *. intros x Hx.
  apply in_map_iff in Hx. destruct Hx as (h & <- & Hh). now apply Hrange.
Qed.

(** X8.  The shape of a discovered hop.  Discovery resolves with at most 30
    hops; each has a hop number from 1 to 30, an address that is neither
    empty nor ['*'] (so the aggregator probes it), no host name and no
    RTT, and [reached] is true exactly when the address is the target. *)
Theorem discovered_hops_shape (world : Z -> ProcOutcome)
        (targetIP : jsstring) (hops : list Hop.t) :
  Traceroute.runTraceroute world targetIP = Fulfilled hops ->
  (length hops <= 30)%nat /\
  Forall (fun h =>
            (1 <= Hop.hop h <= 30)%Z /\
            Hop.host h = None /\ Hop.rtt1 h = None /\
            Mtr.dead h = false /\
            ((Hop.reached h = Some true /\ Hop.ip h = Some targetIP) \/
             (Hop.reached h = Some false /\ Hop.ip h <> Some targetIP)))
         hops.
Proof.
  intros H.
  destruct (discovered_range world targetIP hops H) as [Hasc Hrange].
  pose proof (discovered_kept world targetIP hops H) as Hkept.
  split; [now apply discovered_length|].
  rewrite Forall_forall in *. intros h Hh.
  split; [now apply Hrange|].
  destruct (Hkept h Hh) as [Hp Hstar].
  exact (kept_reply world targetIP (Hop.hop h) h Hp Hstar).
Qed.

Lemma discovered_hops_shape_witness :
  (length [Traceroute.reply 1 (str "10.0.0.1") false;
           Traceroute.reply 2 (str "8.8.8.8") true] <= 30)%nat /\
  Forall (fun h =>
            (1 <= Hop.hop h <= 30)%Z /\
            Hop.host h = None /\ Hop.rtt1 h = None /\
            Mtr.dead h = false /\
            ((Hop.reached h = Some true /\ Hop.ip h = Some (str "8.8.8.8")) \/
             (Hop.reached h = Some false /\
              Hop.ip h <> Some (str "8.8.8.8"))))
         [Traceroute.reply 1 (str "10.0.0.1") false;
          Traceroute.reply 2 (str "8.8.8.8") true].
Proof.
  apply (discovered_hops_shape Scenario.shortPath (str "8.8.8.8")).
  vm_compute. reflexivity.
Defined.

(** X9.  What discovery computes.  When no probe throws and the target is
    not ['*'], discovery resolves with the answers of the probes for the
    TTLs 1 to 30 that carry an address, in the order of the TTLs, cut
    after the first one with the address of the target. *)
Theorem discovery_result (world : Z -> ProcOutcome) (targetIP : jsstring) :
  targetIP <> Traceroute.star ->
  (forall ttl, In ttl Sweep.ttls -> world ttl <> Thrown) ->
  Traceroute.runTraceroute world targetIP
  = Fulfilled
      (Traceroute.truncate targetIP
         (filter Sweep.kept (Sweep.answers world targetIP Sweep.ttls))).
Proof.
  intros Hstar Hw. rewrite SweepFacts.runTraceroute_sweep.
  destruct (SweepFacts.sweep_truncate world targetIP Traceroute.batchStarts
              [] false Hstar)
    as (out & -> & Ht).
  - intros i ttl Hi Hin. apply Hw. rewrite <- SweepFacts.batches_ttls.
    apply in_flat_map. eauto.
  - discriminate.
  - rewrite Ht, SweepFacts.batches_ttls. reflexivity.
Qed.

Lemma discovery_result_witness :
  Traceroute.runTraceroute Scenario.shortPath (str "8.8.8.8")
  = Fulfilled
      (Traceroute.truncate (str "8.8.8.8")
         (filter Sweep.kept
            (Sweep.answers Scenario.shortPath (str "8.8.8.8") Sweep.ttls))).
Proof.
  apply (discovery_result Scenario.shortPath (str "8.8.8.8")).
  - discriminate.
  - intros ttl _. unfold Scenario.shortPath.
    destruct (ttl =? 1)%Z; discriminate.
Defined.

(** X10.  Once a batch holds a probe that found the target, no later batch
    is started: what the probes of later TTLs would do, a throw included,
    does not change what discovery resolves with. *)
Theorem later_batches_not_started (world world' : Z -> ProcOutcome)
        (targetIP : jsstring) (i0 t : Z) (h : Hop.t) :
  In i0 Traceroute.batchStarts -> In t (Traceroute.batchTtls i0) ->
  Traceroute.probeHop world targetIP t = Fulfilled h ->
  Sweep.hit targetIP h = true ->
  (forall ttl, (ttl < i0 + Traceroute.BATCH_SIZE)%Z ->
               world ttl = world' ttl) ->
  Traceroute.runTraceroute world targetIP
  = Traceroute.runTraceroute world' targetIP.
Proof.
  intros Hi Ht Hp Hhit Hag. unfold Traceroute.runTraceroute.
  rewrite (SweepFacts.sweep_agree world targetIP world' i0 t h Ht Hp Hhit
             Hag Traceroute.batchStarts 1 [] false
             TracerouteFacts.chain_batchStarts (fun _ => Hi)).
  reflexivity.
Qed.

Lemma later_batches_not_started_witness :
  Traceroute.runTraceroute Scenario.shortPath (str "8.8.8.8")
  = Traceroute.runTraceroute
      (fun ttl => if (ttl <? 11)%Z then Scenario.shortPath ttl else Thrown)
      (str "8.8.8.8").
Proof.
  apply (later_batches_not_started Scenario.shortPath
           (fun ttl => if (ttl <? 11)%Z then Scenario.shortPath ttl
                       else Thrown)
           (str "8.8.8.8") 1 2
           (Traceroute.reply 2 (str "8.8.8.8") true)).
  - simpl. auto.
  - simpl. auto.
  - vm_compute. reflexivity.
  - reflexivity.
  - intros ttl Hlt. unfold Traceroute.BATCH_SIZE in Hlt.
    destruct (Z.ltb_spec ttl 11); [reflexivity|lia].
Defined.

(** X11.  When no probe of the TTLs 1 to 30 finds an address, discovery
    resolves with the empty list, and the facade hands the aggregator one
    hop: the target, as hop 1. *)
Theorem nothing_answers (world : Z -> ProcOutcome) (targetIP : jsstring) :
  (forall ttl, In ttl Sweep.ttls ->
               Traceroute.probeHop world targetIP ttl
               = Fulfilled (Traceroute.reply ttl Traceroute.star false)) ->
  Traceroute.runTraceroute world targetIP = Fulfilled [] /\
  forall pings mtrDuration,
    diagnose world pings targetIP mtrDuration
    = Some (Mtr.runMtrCycles pings mtrDuration true 1000
              [Hop.mk 1 (Some targetIP) None None (Some (str "0 ms"))]).
Proof.
  intros Hw.
  assert (H : Traceroute.runTraceroute world targetIP = Fulfilled []).
  { rewrite SweepFacts.runTraceroute_sweep.
    rewrite SweepFacts.sweep_silent; [reflexivity|].
    intros i ttl Hi Hin. apply Hw. rewrite <- SweepFacts.batches_ttls.
    apply in_flat_map. eauto. }
  split; [exact H|]. intros pings mtrDuration. unfold diagnose.
  rewrite H. reflexivity.
Qed.

Lemma nothing_answers_witness :
  Traceroute.runTraceroute (fun _ => Scenario.timedOut) (str "8.8.8.8")
  = Fulfilled [] /\
  forall pings mtrDuration,
    diagnose (fun _ => Scenario.timedOut) pings (str "8.8.8.8") mtrDuration
    = Some (Mtr.runMtrCycles pings mtrDuration true 1000
              [Hop.mk 1 (Some (str "8.8.8.8")) None None
                 (Some (str "0 ms"))]).
Proof.
  apply (nothing_answers (fun _ => Scenario.timedOut) (str "8.8.8.8")).
  intros ttl _. reflexivity.
Defined.

(** ** Discovery and the facade together *)

Lemma ascending_below_last : forall (xs : list Z) (x : Z),
  StronglySorted Z.lt (xs ++ [x]) ->
  Forall (fun y => y < x + 1)%Z (xs ++ [x]).
Proof.
  induction xs as [|a xs IH]; intros x H; simpl in *.
  - constructor; [lia|constructor].
  - inversion H as [|? ? Hs Hall]; subst.
    constructor; [|now apply IH].
    rewrite Forall_forall in Hall.
    assert (a < x)%Z by (apply Hall; apply in_or_app; right; now left).
    lia.
Qed.

Lemma forceTargetAppend_fixed (before : list Hop.t) (lastHop : Hop.t)
      (targetIP : jsstring) :
  Hop.ip lastHop = Some targetIP ->
  forceTargetAppend (before ++ [lastHop]) targetIP = before ++ [lastHop].
Proof.
  intros Hip. unfold forceTargetAppend. rewrite last_snoc.
  apply TracerouteFacts.ipIs_eq in Hip. now rewrite Hip.
Qed.

(** The hops in front of the last one do not have the target address. *)
Lemma discovered_before_last (world : Z -> ProcOutcome)
      (targetIP : jsstring) (before : list Hop.t) (lastHop : Hop.t) :
  Traceroute.runTraceroute world targetIP = Fulfilled (before ++ [lastHop]) ->
  Forall (fun h => Hop.ip h <> Some targetIP) before.
Proof.
  intros H.
  pose proof (TracerouteFacts.runTraceroute_inv world targetIP _ H)
    as (swept & rest & _ & Ht & _).
  apply Forall_forall. intros h Hh Hip.
  apply in_split in Hh. destruct Hh as (l1 & l2 & ->).
  apply TracerouteFacts.ipIs_eq in Hip.
  rewrite <- app_assoc in Ht. simpl in Ht. symmetry in Ht.
  destruct (TracerouteFacts.truncate_target targetIP swept l1 h
              (l2 ++ [lastHop]) Ht Hip) as [Hnil _].
  destruct l2; discriminate.
Qed.

(** The list the facade builds ends with the target, which is nowhere
    else in it, behind at most 30 hops with a usable address. *)
Lemma appended_shape (trace : Z -> ProcOutcome) (targetIP : jsstring)
      (hops : list Hop.t) :
  Traceroute.runTraceroute trace targetIP = Fulfilled hops ->
  exists before lastHop,
    forceTargetAppend hops targetIP = before ++ [lastHop] /\
    Hop.ip lastHop = Some targetIP /\
    Forall (fun h => Hop.ip h <> Some targetIP /\ Mtr.dead h = false)
           before /\
    (length before <= 30)%nat.
Proof.
  intros H.
  destruct (discovered_range trace targetIP hops H) as [Hasc Hrange].
  pose proof (discovered_length hops Hasc Hrange) as Hlen.
  assert (Hlive : Forall (fun h => Mtr.dead h = false) hops).
  { pose proof (discovered_kept trace targetIP hops H) as Hkept.
    rewrite Forall_forall in *. intros h Hh.
    destruct (Hkept h Hh) as [Hp Hstar].
    now destruct (kept_reply trace targetIP (Hop.hop h) h Hp Hstar)
      as (_ & _ & Hd & _). }
  destruct (forceTargetAppend_cases hops targetIP)
    as [[-> ->]|(before & lastHop & -> & [[Hip ->]|[Hip ->]])].
  - exists [], (Hop.mk 1 (Some targetIP) None None (Some (str "0 ms"))).
    repeat split; [constructor|simpl; lia].
  - pose proof (discovered_before_last trace targetIP before lastHop H)
      as Hbefore.
    exists (before ++ [lastHop]),
      (Hop.mk (Hop.hop lastHop + 1) (Some targetIP) None None
         (Some (str "0 ms"))).
    split; [reflexivity|]. split; [reflexivity|]. split; [|exact Hlen].
    rewrite Forall_forall in *. intros h Hh. split; [|now apply Hlive].
    apply in_app_or in Hh. destruct Hh as [Hh|[<- |[]]];
      [now apply Hbefore|assumption].
  - pose proof (discovered_before_last trace targetIP before lastHop H)
      as Hbefore.
    exists before, lastHop. split; [reflexivity|]. split; [assumption|].
    split; [|rewrite length_app in Hlen; simpl in Hlen; lia].
    rewrite Forall_forall in *. intros h Hh.
    split; [now apply Hbefore|].
    apply Hlive. apply in_or_app. now left.
Qed.

(** X12.  What the facade hands to the aggregator after a discovery: between
    1 and 31 hops with strictly ascending hop numbers; the last one has
    the target address and no other has; every hop in front of it has a
    usable address, so it is probed in every cycle.  Appending the target
    a second time would change nothing. *)
Theorem aggregator_input (trace : Z -> ProcOutcome) (targetIP : jsstring)
        (hops : list Hop.t) :
  Traceroute.runTraceroute trace targetIP = Fulfilled hops ->
  StronglySorted Z.lt (map Hop.hop (forceTargetAppend hops targetIP)) /\
  (1 <= length (forceTargetAppend hops targetIP) <= 31)%nat /\
  (exists before lastHop,
      forceTargetAppend hops targetIP = before ++ [lastHop] /\
      Hop.ip lastHop = Some targetIP /\
      Forall (fun h => Hop.ip h <> Some targetIP /\ Mtr.dead h = false)
             before) /\
  forceTargetAppend (forceTargetAppend hops targetIP) targetIP
  = forceTargetAppend hops targetIP.
Proof.
  intros H.
  destruct (appended_shape trace targetIP hops H)
    as (before & lastHop & Happ & Hip & Hbefore & Hlen).
  split; [|split; [|split]].
  - destruct (discovered_range trace targetIP hops H) as [Hasc _].
    destruct (forceTargetAppend_cases hops targetIP)
      as [[-> ->]|(b & l & -> & [[Hl ->]|[Hl ->]])].
    + repeat constructor.
    + rewrite map_app. simpl map at 2.
      apply TracerouteFacts.StronglySorted_snoc_app
        with (bound := (Hop.hop l + 1)%Z).
      * exact Hasc.
      * unfold Discovery.ascending in Hasc. rewrite map_app in *.
        now apply ascending_below_last.
      * repeat constructor.
      * constructor; [simpl; lia|constructor].
    + exact Hasc.
  - rewrite Happ, length_app. simpl. lia.
  - exists before, lastHop. auto.
  - rewrite Happ. now apply forceTargetAppend_fixed.
Qed.

Lemma aggregator_input_witness :
  StronglySorted Z.lt
    (map Hop.hop
       (forceTargetAppend
          [Traceroute.reply 1 (str "10.0.0.1") false;
           Traceroute.reply 2 (str "8.8.8.8") true] (str "8.8.8.8"))) /\
  (1 <= length
          (forceTargetAppend
             [Traceroute.reply 1 (str "10.0.0.1") false;
              Traceroute.reply 2 (str "8.8.8.8") true] (str "8.8.8.8"))
   <= 31)%nat /\
  (exists before lastHop,
      forceTargetAppend
        [Traceroute.reply 1 (str "10.0.0.1") false;
         Traceroute.reply 2 (str "8.8.8.8") true] (str "8.8.8.8")
      = before ++ [lastHop] /\
      Hop.ip lastHop = Some (str "8.8.8.8") /\
      Forall (fun h => Hop.ip h <> Some (str "8.8.8.8") /\
                       Mtr.dead h = false)
             before) /\
  forceTargetAppend
    (forceTargetAppend
       [Traceroute.reply 1 (str "10.0.0.1") false;
        Traceroute.reply 2 (str "8.8.8.8") true] (str "8.8.8.8"))
    (str "8.8.8.8")
  = forceTargetAppend
      [Traceroute.reply 1 (str "10.0.0.1") false;
       Traceroute.reply 2 (str "8.8.8.8") true] (str "8.8.8.8").
Proof.
  apply (aggregator_input Scenario.shortPath (str "8.8.8.8")).
  vm_compute. reflexivity.
Defined.

(** ** The classifier, line by line *)

Lemma scanLines_undecided (targetIP : jsstring) (line : jsstring)
      (rest : list jsstring) :
  Sweep.undecided targetIP line ->
  Traceroute.scanLines targetIP (line :: rest)
  = Traceroute.scanLines targetIP rest.
Proof.
  intros Hu. rewrite scanLines_cons.
  destruct Hu as [-> |[-> He]]; [reflexivity|].
  rewrite TracerouteFacts.jseqb_refl. simpl.
  unfold Sweep.evidence in He. now rewrite He.
Qed.

Lemma scanLines_skip (targetIP : jsstring) (rest : list jsstring) :
  forall before,
    Forall (Sweep.undecided targetIP) before ->
    Traceroute.scanLines targetIP (before ++ rest)
    = Traceroute.scanLines targetIP rest.
Proof.
  intros before Hb. induction Hb as [|l before Hl _ IH]; [reflexivity|].
  simpl app. now rewrite scanLines_undecided.
Qed.

(** X14.  The two other verdicts of the classifier of a TTL probe.  The
    first line that carries an address other than the target, with only
    undecided lines in front of it, makes the probe a reply of a router:
    that address, [reached = false].  When every line is undecided the
    probe is a timeout: ['*'], which leaves no hop. *)
Theorem router_reply_and_timeout (world : Z -> ProcOutcome)
        (targetIP : jsstring) (ttl : Z) (output : jsstring) (code : Z) :
  world ttl = Closed output code ->
  (forall before line after a,
      Traceroute.splitLines [] output = before ++ line :: after ->
      Forall (Sweep.undecided targetIP) before ->
      Spec.firstAddress line = Some a -> a <> targetIP ->
      Traceroute.probeHop world targetIP ttl
      = Fulfilled (Traceroute.reply ttl a false)) /\
  (Forall (Sweep.undecided targetIP) (Traceroute.splitLines [] output) ->
   Traceroute.probeHop world targetIP ttl
   = Fulfilled (Traceroute.reply ttl Traceroute.star false)).
Proof.
  intros Hw. unfold Traceroute.probeHop. rewrite Hw. split.
  - intros before line after a Hs Hb Ha Hne.
    rewrite Hs, (scanLines_skip targetIP (line :: after) before Hb).
    rewrite scanLines_cons, Ha.
    destruct (jseqb a targetIP) eqn:E; [|reflexivity].
    apply TracerouteFacts.jseqb_eq in E. contradiction.
  - intros Hall.
    rewrite <- (app_nil_r (Traceroute.splitLines [] output)).
    now rewrite (scanLines_skip targetIP [] _ Hall).
Qed.

Lemma router_reply_and_timeout_witness :
  Traceroute.probeHop Scenario.shortPath (str "8.8.8.8") 1
  = Fulfilled (Traceroute.reply 1 (str "10.0.0.1") false).
Proof.
  apply (proj1 (router_reply_and_timeout Scenario.shortPath (str "8.8.8.8") 1
                  (Scenario.banner "8.8.8.8"
                   ++ str "From 10.0.0.1 icmp_seq=1 Time to live exceeded"
                   ++ [10%N]) 1 eq_refl)
           [str "PING 8.8.8.8 (8.8.8.8) 56(84) bytes of data."]
           (str "From 10.0.0.1 icmp_seq=1 Time to live exceeded")
           [[]]).
  - vm_compute. reflexivity.
  - constructor; [|constructor]. right. split; vm_compute; reflexivity.
  - vm_compute. reflexivity.
  - discriminate.
Defined.

(** * The facade *)

Module FacadeFacts.
Import Facade.

Lemma firstUsable_some (addresses : list jsstring) (targetIP : jsstring) :
  firstUsable addresses = Some targetIP ->
  nth_error addresses 0 = Some targetIP /\ targetIP <> [].
Proof.
  destruct addresses as [|[|c a] rest]; simpl; try discriminate.
  intros [= <-]. split; [reflexivity|discriminate].
Qed.

(** The statistics step when discovery is fulfilled. *)
Lemma mtrStep_executed (mtrDuration : Z) (domain : jsstring) (w : World.t)
      (targetIP : jsstring) (hops : list Hop.t) :
  Traceroute.runTraceroute (World.trace w) targetIP = Fulfilled hops ->
  mtrStep mtrDuration domain w (Some targetIP)
  = ([TraceRunning domain targetIP;
      TraceCompleted domain (length (forceTargetAppend hops targetIP));
      PingRunning domain (length (forceTargetAppend hops targetIP))]
     ++ map (PingProgress domain)
          (Run.snapshots
             (Run.events (World.pings w) mtrDuration true 1000
                (forceTargetAppend hops targetIP)))
     ++ [PingCompleted domain
           (Run.result (World.pings w) mtrDuration true 1000
              (forceTargetAppend hops targetIP))],
     Stats.mk true
       (Run.result (World.pings w) mtrDuration true 1000
          (forceTargetAppend hops targetIP)) None).
Proof.
  intros H. unfold mtrStep, Run.events, Run.result. rewrite H.
  now destruct (Mtr.runMtrCycles (World.pings w) mtrDuration true 1000
                  (forceTargetAppend hops targetIP)).
Qed.

Lemma target_pair (mtrDuration : Z) (domain : jsstring) (w : World.t) :
  target mtrDuration domain w
  = ([TargetStarting domain] ++ fst (fst (dnsStep domain w))
     ++ fst (mtrStep mtrDuration domain w (snd (dnsStep domain w)))
     ++ [TargetCompleted domain],
     Target.mk domain (snd (fst (dnsStep domain w)))
       (snd (mtrStep mtrDuration domain w (snd (dnsStep domain w))))).
Proof.
  unfold target. destruct (dnsStep domain w) as [[dnsReports dns] targetIP].
  simpl. now destruct (mtrStep mtrDuration domain w targetIP).
Qed.

Lemma target_domain (mtrDuration : Z) (domain : jsstring) (w : World.t) :
  Target.domain (snd (target mtrDuration domain w)) = domain.
Proof. now rewrite target_pair. Qed.

(** The rows of an executed entry end with the target. *)
Lemma executed_rows (trace : Z -> ProcOutcome)
      (pings : Z -> nat -> ProcOutcome) (mtrDuration : Z)
      (targetIP : jsstring) (hops : list Hop.t) :
  Traceroute.runTraceroute trace targetIP = Fulfilled hops ->
  exists rows lastRow,
    Run.result pings mtrDuration true 1000 (forceTargetAppend hops targetIP)
    = rows ++ [lastRow] /\
    (length rows <= 30)%nat /\
    Mtr.Final.ip lastRow = Some targetIP /\
    Forall (fun row => Mtr.Final.ip row <> Some targetIP) rows.
Proof.
  intros H.
  destruct (appended_shape trace targetIP hops H)
    as (before & lastHop & Happ & Hip & Hbefore & Hlen).
  pose proof (result_ips pings mtrDuration true 1000
                (forceTargetAppend hops targetIP)) as Hips.
  rewrite Happ, map_app in Hips. apply map_eq_app in Hips.
  destruct Hips as (rows & tl & Hrows & Hb & Hl).
  destruct tl as [|lastRow [|x tl]]; try discriminate.
  injection Hl as Hl.
  exists rows, lastRow. rewrite Happ, Hrows.
  split; [reflexivity|]. split.
  { apply (f_equal (@length _)) in Hb. rewrite !length_map in Hb. lia. }
  split; [congruence|].
  apply Forall_forall. intros row Hrow Hr.
  apply (in_map Mtr.Final.ip) in Hrow. rewrite Hb in Hrow.
  apply in_map_iff in Hrow. destruct Hrow as (h & Hh & Hin).
  rewrite Forall_forall in Hbefore. apply Hbefore in Hin. destruct Hin.
  congruence.
Qed.

Lemma target_coherent (mtrDuration : Z) (domain : jsstring) (w : World.t) :
  coherent (snd (target mtrDuration domain w)).
Proof.
  rewrite target_pair. unfold coherent, dnsStep.
  destruct (Network.resolveDNS (World.lookup w)) as [addresses|message];
    cbn [fst snd].
  2:{ simpl. repeat split; try discriminate; auto. }
  destruct (firstUsable addresses) as [targetIP|] eqn:Ef.
  2:{ simpl. repeat split; try discriminate; auto. }
  destruct (firstUsable_some addresses targetIP Ef) as [Hn Hne].
  destruct (Traceroute.runTraceroute (World.trace w) targetIP) as [hops|]
    eqn:Et.
  - rewrite (mtrStep_executed mtrDuration domain w targetIP hops Et). simpl.
    destruct (executed_rows (World.trace w) (World.pings w) mtrDuration
                targetIP hops Et) as (rows & lastRow & Hr & Hlen & Hip & Hb).
    repeat split; try discriminate; auto.
    exists targetIP, rows, lastRow. repeat split; auto.
  - unfold mtrStep. rewrite Et. simpl.
    repeat split; try discriminate; auto.
Qed.

(** One entry for each target, behind those already held. *)
Lemma targets_entries (mtrDuration : Z) (worlds : nat -> World.t) :
  forall domains k diagnosis,
  exists entries,
    snd (targets mtrDuration worlds k domains diagnosis)
    = diagnosis ++ entries /\
    map Target.domain entries = domains /\
    Forall coherent entries.
Proof.
  induction domains as [|domain rest IH]; intros k diagnosis.
  - exists []. simpl. rewrite app_nil_r. repeat split. constructor.
  - simpl.
    pose proof (target_domain mtrDuration domain (worlds k)) as Hd.
    pose proof (target_coherent mtrDuration domain (worlds k)) as Hc.
    destruct (target mtrDuration domain (worlds k)) as [reports r].
    simpl in Hd, Hc.
    destruct (IH (S k) (diagnosis ++ [r])) as (entries & He & Hm & Hf).
    destruct (targets mtrDuration worlds (S k) rest (diagnosis ++ [r]))
      as [reports' diagnosis'].
    simpl in *. exists (r :: entries).
    split; [now rewrite He, <- app_assoc|].
    split; [simpl; now rewrite Hd, Hm|]. now constructor.
Qed.

Lemma run_snd (tool : Tool.t) (info : Network.Info.t)
      (publicIps : Network.PublicIps.t) (worlds : nat -> World.t) :
  snd (run tool info publicIps worlds)
  = Tool.mk (Tool.targetDomains tool) (Tool.mtrDuration tool)
      (Results.mk (Results.timestamp (Tool.results tool))
         (Local.mk (Network.Info.ipv4 info) (Network.Info.ipv6 info)
            (Network.Info.dnsServers info) (Some publicIps))
         (snd (targets (Tool.mtrDuration tool) worlds 0
                 (Tool.targetDomains tool)
                 (Results.diagnosis (Tool.results tool))))).
Proof.
  unfold run.
  now destruct (targets (Tool.mtrDuration tool) worlds 0
                  (Tool.targetDomains tool)
                  (Results.diagnosis (Tool.results tool))).
Qed.

Lemma progressOf_app (l1 l2 : list report) :
  progressOf (l1 ++ l2) = progressOf l1 ++ progressOf l2.
Proof.
  induction l1 as [|r l1 IH]; [reflexivity|].
  destruct r; simpl; now rewrite ?IH.
Qed.

Lemma progressOf_map (domain : jsstring) (l : list Mtr.Progress.t) :
  progressOf (map (PingProgress domain) l) = l.
Proof. induction l as [|p l IH]; simpl; [reflexivity|now rewrite IH]. Qed.

End FacadeFacts.

(** X15.  The report of a run.  [run] keeps the entries the instance
    already holds and adds one entry for each target domain, in the order
    of the domains.  Every entry is coherent: statistics were gathered
    exactly when no error is recorded for them and only for a resolved
    name; a failed lookup leaves no addresses and the error "Skipped due
    to DNS failure"; the rows of gathered statistics are at most 31, end
    with the first address of the name and hold it nowhere else.  The
    domains, the cycle count and the time stamp of the instance do not
    change. *)
Theorem report_entries (tool : Facade.Tool.t) (info : Network.Info.t)
        (publicIps : Network.PublicIps.t) (worlds : nat -> Facade.World.t) :
  exists entries,
    Facade.Results.diagnosis
      (Facade.Tool.results (snd (Facade.run tool info publicIps worlds)))
    = Facade.Results.diagnosis (Facade.Tool.results tool) ++ entries /\
    map Facade.Target.domain entries = Facade.Tool.targetDomains tool /\
    Forall Facade.coherent entries /\
    Facade.Tool.targetDomains (snd (Facade.run tool info publicIps worlds))
    = Facade.Tool.targetDomains tool /\
    Facade.Tool.mtrDuration (snd (Facade.run tool info publicIps worlds))
    = Facade.Tool.mtrDuration tool /\
    Facade.Results.timestamp
      (Facade.Tool.results (snd (Facade.run tool info publicIps worlds)))
    = Facade.Results.timestamp (Facade.Tool.results tool).
Proof.
  rewrite FacadeFacts.run_snd. simpl.
  destruct (FacadeFacts.targets_entries (Facade.Tool.mtrDuration tool) worlds
              (Facade.Tool.targetDomains tool) 0
              (Facade.Results.diagnosis (Facade.Tool.results tool)))
    as (entries & He & Hm & Hf).
  exists entries. repeat split; assumption.
Qed.

(** X16.  [run] does not start afresh.  On an instance that has run
    before, a second [run] appends its entries to those of the first: the
    report then holds every domain twice, and its time stamp is still the
    one taken when the instance was constructed. *)
Theorem second_run_appends (targetDomains : list jsstring)
        (mtrDuration : option Z) (now : jsstring)
        (info1 info2 : Network.Info.t)
        (publicIps1 publicIps2 : Network.PublicIps.t)
        (worlds1 worlds2 : nat -> Facade.World.t) :
  let tool := Facade.constructor targetDomains mtrDuration now in
  let once := snd (Facade.run tool info1 publicIps1 worlds1) in
  let twice := snd (Facade.run once info2 publicIps2 worlds2) in
  map Facade.Target.domain
    (Facade.Results.diagnosis (Facade.Tool.results once))
  = targetDomains /\
  (exists entries,
      Facade.Results.diagnosis (Facade.Tool.results twice)
      = Facade.Results.diagnosis (Facade.Tool.results once) ++ entries /\
      map Facade.Target.domain entries = targetDomains) /\
  length (Facade.Results.diagnosis (Facade.Tool.results twice))
  = (2 * length targetDomains)%nat /\
  Facade.Results.timestamp (Facade.Tool.results twice) = now.
Proof.
  intros tool once twice. unfold twice, once.
  rewrite !FacadeFacts.run_snd. simpl.
  destruct (FacadeFacts.targets_entries (Facade.orTen mtrDuration) worlds1
              targetDomains 0 [])
    as (e1 & He1 & Hm1 & _).
  rewrite He1. simpl.
  destruct (FacadeFacts.targets_entries (Facade.orTen mtrDuration) worlds2
              targetDomains 0 e1)
    as (e2 & He2 & Hm2 & _).
  rewrite He2.
  split; [exact Hm1|]. split; [exists e2; split; [reflexivity|exact Hm2]|].
  split; [|reflexivity].
  rewrite length_app.
  rewrite <- (length_map Facade.Target.domain e1), Hm1.
  rewrite <- (length_map Facade.Target.domain e2), Hm2. lia.
Qed.

(** X17.  A target whose name resolves and whose discovery is fulfilled.
    The callback gets, in this order: the start of the target, the lookup
    and its addresses, the start of the trace, the number of hops, the
    start of the statistics with the same number, one progress report for
    each cycle, the final rows, and the end of the target.  The number of
    hops announced is the number of rows reported, between 1 and 31, and
    every progress report has that many rows. *)
Theorem executed_target_reports (mtrDuration : Z) (domain : jsstring)
        (w : Facade.World.t) (addresses : list jsstring)
        (targetIP : jsstring) (hops : list Hop.t) :
  Network.resolveDNS (Facade.World.lookup w) = Network.Resolve addresses ->
  Facade.firstUsable addresses = Some targetIP ->
  Traceroute.runTraceroute (Facade.World.trace w) targetIP = Fulfilled hops ->
  exists (n : nat) (snaps : list Mtr.Progress.t) (rows : list Mtr.Final.t),
    Facade.target mtrDuration domain w
    = ([Facade.TargetStarting domain; Facade.DnsResolving domain;
        Facade.DnsResolved domain addresses;
        Facade.TraceRunning domain targetIP;
        Facade.TraceCompleted domain n; Facade.PingRunning domain n]
       ++ map (Facade.PingProgress domain) snaps
       ++ [Facade.PingCompleted domain rows; Facade.TargetCompleted domain],
       Facade.Target.mk domain (Facade.Dns.mk true addresses None)
         (Facade.Stats.mk true rows None)) /\
    (1 <= n <= 31)%nat /\ length rows = n /\
    map Mtr.Progress.cycle snaps
    = map Z.of_nat (seq 1 (Z.to_nat mtrDuration)) /\
    Forall (fun p => Mtr.Progress.totalCycles p = mtrDuration /\
                     length (Mtr.Progress.hops p) = n) snaps.
Proof.
  intros Hdns Hfirst Htrace.
  exists (length (forceTargetAppend hops targetIP)),
    (Run.snapshots
       (Run.events (Facade.World.pings w) mtrDuration true 1000
          (forceTargetAppend hops targetIP))),
    (Run.result (Facade.World.pings w) mtrDuration true 1000
       (forceTargetAppend hops targetIP)).
  split.
  { rewrite FacadeFacts.target_pair. unfold Facade.dnsStep.
    rewrite Hdns. simpl fst. simpl snd. rewrite Hfirst.
    rewrite (FacadeFacts.mtrStep_executed mtrDuration domain w targetIP hops
               Htrace).
    simpl fst. simpl snd. f_equal. simpl. do 6 f_equal.
    now rewrite <- app_assoc. }
  split.
  { destruct (appended_shape (Facade.World.trace w) targetIP hops Htrace)
      as (before & lastHop & -> & _ & _ & Hlen).
    rewrite length_app. simpl. lia. }
  split.
  { now rewrite MtrFacts.result_run, length_map, MtrFacts.statsAfter_length. }
  rewrite MtrFacts.snapshots_run by reflexivity. split.
  - rewrite map_map. reflexivity.
  - apply Forall_forall. intros p Hp. apply in_map_iff in Hp.
    destruct Hp as (k & <- & _). simpl. split; [reflexivity|].
    now rewrite length_map, MtrFacts.statsAfter_length.
Qed.

Lemma executed_target_reports_witness :
  exists (n : nat) (snaps : list Mtr.Progress.t) (rows : list Mtr.Final.t),
    Facade.target 2 (str "dns.google") FacadeScenario.resolved
    = ([Facade.TargetStarting (str "dns.google");
        Facade.DnsResolving (str "dns.google");
        Facade.DnsResolved (str "dns.google") [str "8.8.8.8"];
        Facade.TraceRunning (str "dns.google") (str "8.8.8.8");
        Facade.TraceCompleted (str "dns.google") n;
        Facade.PingRunning (str "dns.google") n]
       ++ map (Facade.PingProgress (str "dns.google")) snaps
       ++ [Facade.PingCompleted (str "dns.google") rows;
           Facade.TargetCompleted (str "dns.google")],
       Facade.Target.mk (str "dns.google")
         (Facade.Dns.mk true [str "8.8.8.8"] None)
         (Facade.Stats.mk true rows None)) /\
    (1 <= n <= 31)%nat /\ length rows = n /\
    map Mtr.Progress.cycle snaps = map Z.of_nat (seq 1 (Z.to_nat 2)) /\
    Forall (fun p => Mtr.Progress.totalCycles p = 2%Z /\
                     length (Mtr.Progress.hops p) = n) snaps.
Proof.
  apply (executed_target_reports 2 (str "dns.google")
           FacadeScenario.resolved [str "8.8.8.8"] (str "8.8.8.8")
           [Traceroute.reply 1 (str "10.0.0.1") false;
            Traceroute.reply 2 (str "8.8.8.8") true]).
  - reflexivity.
  - reflexivity.
  - vm_compute. reflexivity.
Defined.

(** Without a cycle the rows are those of the initial records. *)
Lemma result_no_cycles (world : Z -> nat -> ProcOutcome) (cycles : Z)
      (progressCallback : bool) (interval : Z) (hops : list Hop.t) :
  (cycles <= 0)%Z ->
  Run.result world cycles progressCallback interval hops
  = map (fun h => Mtr.finalRow (Mtr.init h)) hops /\
  Run.snapshots (Run.events world cycles progressCallback interval hops)
  = [].
Proof.
  intros Hc.
  assert (Hn : Z.to_nat cycles = 0%nat) by lia.
  split.
  - rewrite MtrFacts.result_run, Hn. unfold Run.statsAfter. simpl.
    now rewrite map_map.
  - destruct progressCallback.
    + rewrite MtrFacts.snapshots_run by reflexivity. now rewrite Hn.
    + apply snapshots_without_callback.
Qed.

(** X18.  The cycle count at its edges.  An instance constructed without
    a duration, or with the duration 0, runs 10 cycles: an executed target
    gets the progress reports of the cycles 1 to 10.  A negative duration
    is kept: the target still counts as executed, with no probe, no
    progress report, and rows that show loss 0 and no times. *)
Theorem duration_edge_cases (targetDomains : list jsstring) (now : jsstring)
        (mtrDuration : option Z) (domain : jsstring) (w : Facade.World.t)
        (addresses : list jsstring) (targetIP : jsstring)
        (hops : list Hop.t) :
  Network.resolveDNS (Facade.World.lookup w) = Network.Resolve addresses ->
  Facade.firstUsable addresses = Some targetIP ->
  Traceroute.runTraceroute (Facade.World.trace w) targetIP = Fulfilled hops ->
  let tool := Facade.constructor targetDomains mtrDuration now in
  let out := Facade.target (Facade.Tool.mtrDuration tool) domain w in
  (mtrDuration = None \/ mtrDuration = Some 0%Z ->
   map Mtr.Progress.cycle (Facade.progressOf (fst out))
   = map Z.of_nat (seq 1 10)) /\
  (forall d, mtrDuration = Some d -> (d < 0)%Z ->
             Facade.progressOf (fst out) = [] /\
             Facade.Stats.executed (Facade.Target.mtr (snd out)) = true /\
             Forall (fun row =>
                       Mtr.Final.loss row = 0%R /\ Mtr.Final.avg row = 0%R /\
                       Mtr.Final.best row = 0%R /\
                       Mtr.Final.worst row = 0%R /\
                       Mtr.Final.stdev row = 0%R)
                    (Facade.Stats.hops (Facade.Target.mtr (snd out)))).
Proof.
  intros Hdns Hfirst Htrace tool out.
  assert (Hout : forall cycles,
             Facade.progressOf
               (fst (Facade.target cycles domain w))
             = Run.snapshots
                 (Run.events (Facade.World.pings w) cycles true 1000
                    (forceTargetAppend hops targetIP)) /\
             Facade.Target.mtr (snd (Facade.target cycles domain w))
             = Facade.Stats.mk true
                 (Run.result (Facade.World.pings w) cycles true 1000
                    (forceTargetAppend hops targetIP)) None).
  { intros cycles. rewrite FacadeFacts.target_pair.
    unfold Facade.dnsStep. rewrite Hdns. cbn [fst snd]. rewrite Hfirst.
    rewrite (FacadeFacts.mtrStep_executed cycles domain w targetIP hops
               Htrace).
    cbn [fst snd Facade.Target.mtr]. split; [|reflexivity].
    rewrite !FacadeFacts.progressOf_app, FacadeFacts.progressOf_map.
    cbn [Facade.progressOf app]. now rewrite !app_nil_r. }
  unfold out, tool. simpl Facade.Tool.mtrDuration. split.
  - intros Hd.
    assert (E : Facade.orTen mtrDuration = 10%Z)
      by (destruct Hd as [-> | ->]; reflexivity).
    rewrite E. destruct (Hout 10%Z) as [-> _].
    rewrite MtrFacts.snapshots_run by reflexivity.
    rewrite map_map. reflexivity.
  - intros d -> Hneg.
    assert (E : Facade.orTen (Some d) = d) by (destruct d; [lia| |]; easy).
    rewrite E. destruct (Hout d) as [-> ->]. simpl.
    destruct (result_no_cycles (Facade.World.pings w) d true 1000
                (forceTargetAppend hops targetIP)) as [-> ->]; [lia|].
    split; [reflexivity|]. split; [reflexivity|].
    apply Forall_forall. intros row Hrow. apply in_map_iff in Hrow.
    destruct Hrow as (h & <- & _). simpl.
    rewrite RoundFacts.toFixed1_0. repeat split.
Qed.

Lemma duration_edge_cases_witness :
  map Mtr.Progress.cycle
    (Facade.progressOf
       (fst (Facade.target
               (Facade.Tool.mtrDuration
                  (Facade.constructor [str "dns.google"] None
                     (str "2024-01-01T00:00:00.000Z")))
               (str "dns.google") FacadeScenario.resolved)))
  = map Z.of_nat (seq 1 10).
Proof.
  apply (proj1 (duration_edge_cases [str "dns.google"]
                  (str "2024-01-01T00:00:00.000Z") None (str "dns.google")
                  FacadeScenario.resolved [str "8.8.8.8"] (str "8.8.8.8")
                  [Traceroute.reply 1 (str "10.0.0.1") false;
                   Traceroute.reply 2 (str "8.8.8.8") true]
                  eq_refl eq_refl
                  ltac:(vm_compute; reflexivity))).
  left. reflexivity.
Defined.

(** ** Local addresses *)

Lemma visit_fold : forall (ifaces : list Network.Iface.t)
                          (ipv4 ipv6 : list jsstring),
  fold_left Network.visit ifaces (ipv4, ipv6)
  = (ipv4 ++ map Network.Iface.address
               (filter (fun i => negb (Network.Iface.internal i)
                                 && jseqb (Network.Iface.family i)
                                      (str "IPv4")) ifaces),
     ipv6 ++ map Network.Iface.address
               (filter (fun i => negb (Network.Iface.internal i)
                                 && jseqb (Network.Iface.family i)
                                      (str "IPv6")) ifaces)).
Proof.
  induction ifaces as [|i ifaces IH]; intros ipv4 ipv6; simpl.
  - now rewrite !app_nil_r.
  - destruct (Network.Iface.internal i); simpl; [apply IH|].
    rewrite IH.
    destruct (jseqb (Network.Iface.family i) (str "IPv4"));
      destruct (jseqb (Network.Iface.family i) (str "IPv6")); simpl;
      now rewrite <- ?app_assoc.
Qed.

(** X19.  The local addresses reported are those of the interfaces that
    are not internal, in the order of the interfaces: the IPv4 list holds
    the addresses of family ['IPv4'], the IPv6 list those of family
    ['IPv6']; an address of an internal interface, such as the loopback
    address, is reported only if an interface that is not internal has it
    too. *)
Theorem local_addresses (interfaces : list (jsstring * list Network.Iface.t))
        (servers : list jsstring) :
  let info := Network.getLocalNetworkInfo interfaces servers in
  let external family :=
    map Network.Iface.address
      (filter (fun i => negb (Network.Iface.internal i)
                        && jseqb (Network.Iface.family i) family)
              (flat_map snd interfaces)) in
  Network.Info.ipv4 info = external (str "IPv4") /\
  Network.Info.ipv6 info = external (str "IPv6") /\
  Network.Info.dnsServers info = servers /\
  forall a,
    In a (Network.Info.ipv4 info ++ Network.Info.ipv6 info) ->
    exists name i, In (name, i) (flat_map
                                   (fun p => map (pair (fst p)) (snd p))
                                   interfaces) /\
                   Network.Iface.internal i = false /\
                   Network.Iface.address i = a.
Proof.
  intros info external.
  assert (Hfold : forall (l : list (jsstring * list Network.Iface.t))
                         ipv4 ipv6,
             fold_left (fun acc name => fold_left Network.visit (snd name) acc)
                       l (ipv4, ipv6)
             = (ipv4 ++ map Network.Iface.address
                          (filter (fun i => negb (Network.Iface.internal i)
                                            && jseqb (Network.Iface.family i)
                                                 (str "IPv4"))
                                  (flat_map snd l)),
                ipv6 ++ map Network.Iface.address
                          (filter (fun i => negb (Network.Iface.internal i)
                                            && jseqb (Network.Iface.family i)
                                                 (str "IPv6"))
                                  (flat_map snd l)))).
  { induction l as [|p l IH]; intros ipv4 ipv6; simpl.
    - now rewrite !app_nil_r.
    - rewrite visit_fold, IH, !filter_app, !map_app, <- !app_assoc.
      reflexivity. }
  assert (H4 : Network.Info.ipv4 info = external (str "IPv4")).
  { unfold info, Network.getLocalNetworkInfo. now rewrite Hfold. }
  assert (H6 : Network.Info.ipv6 info = external (str "IPv6")).
  { unfold info, Network.getLocalNetworkInfo. now rewrite Hfold. }
  split; [exact H4|]. split; [exact H6|]. split.
  { unfold info, Network.getLocalNetworkInfo. now rewrite Hfold. }
  intros a Ha. rewrite H4, H6 in Ha. unfold external in Ha.
  assert (Hin : exists i, In i (flat_map snd interfaces) /\
                          Network.Iface.internal i = false /\
                          Network.Iface.address i = a).
  { apply in_app_or in Ha.
    destruct Ha as [Ha|Ha]; apply in_map_iff in Ha;
      destruct Ha as (i & Hi & Hf); apply filter_In in Hf;
      destruct Hf as [Hf Hb]; apply andb_prop in Hb; destruct Hb as [Hb _];
      apply negb_true_iff in Hb; eauto. }
  destruct Hin as (i & Hi & Hint & Haddr).
  apply in_flat_map in Hi. destruct Hi as ([name l] & Hp & Hl).
  exists name, i. split; [|split; assumption].
  apply in_flat_map. exists (name, l). split; [assumption|].
  simpl. now apply in_map.
Qed.

Lemma local_addresses_witness :
  Network.Info.ipv4
    (Network.getLocalNetworkInfo FacadeScenario.interfaces [str "1.1.1.1"])
  = [str "192.168.1.7"] /\
  Network.Info.ipv6
    (Network.getLocalNetworkInfo FacadeScenario.interfaces [str "1.1.1.1"])
  = [str "fe80::1"].
Proof.
  pose proof (local_addresses FacadeScenario.interfaces [str "1.1.1.1"])
    as (H4 & H6 & _).
  split; [exact H4|exact H6].
Defined.
